(** * Functor: value resolution, type coercion and the invocation lifecycle

    A shallow embedding of [src/src/Functor.py] (class [Functor]) and of the
    properties its specification states about it.  Python objects live in a
    heap indexed by references; mutable lists that are shared between calls
    (the [attempted] list of [Fetch]) are threaded explicitly. *)

From Stdlib Require Import ZArith String Ascii List Bool Lia.
From Stdlib Require Import DecimalString DecimalZ.
From stdpp Require Import base option list strings gmap.

Import ListNotations.
Set Warnings "-register-all,-clear-no-such-hyp".
Local Open Scope string_scope.
Local Open Scope Z_scope.
Local Open Scope list_scope.

(** ** Text helpers: the parts of Python's [str] the source relies on *)

Module PyStr.

Definition is_upper (c : ascii) : bool :=
  let n := nat_of_ascii c in (Nat.leb 65 n && Nat.leb n 90)%bool.

Definition is_lower (c : ascii) : bool :=
  let n := nat_of_ascii c in (Nat.leb 97 n && Nat.leb n 122)%bool.

Definition is_digit (c : ascii) : bool :=
  let n := nat_of_ascii c in (Nat.leb 48 n && Nat.leb n 57)%bool.

(** ASCII white space, as stripped by [int()] and [float()]: the space,
    the controls 9 to 13 and the separators 28 to 31. *)
Definition is_space (c : ascii) : bool :=
  let n := nat_of_ascii c in
  (Nat.eqb n 32 || (Nat.leb 9 n && Nat.leb n 13)
   || (Nat.leb 28 n && Nat.leb n 31))%bool.

Definition lower_char (c : ascii) : ascii :=
  if is_upper c then ascii_of_nat (nat_of_ascii c + 32) else c.

Definition upper_char (c : ascii) : ascii :=
  if is_lower c then ascii_of_nat (nat_of_ascii c - 32) else c.

(** [str.lower()] and [str.upper()] on ASCII text. *)
Fixpoint lower (s : string) : string :=
  match s with
  | EmptyString => EmptyString
  | String c r => String (lower_char c) (lower r)
  end.

Fixpoint upper (s : string) : string :=
  match s with
  | EmptyString => EmptyString
  | String c r => String (upper_char c) (upper r)
  end.

(** [c in s] for a one-character [c]. *)
Fixpoint contains (c : ascii) (s : string) : bool :=
  match s with
  | EmptyString => false
  | String d r => (Ascii.eqb c d || contains c r)%bool
  end.

Fixpoint any (p : ascii -> bool) (s : string) : bool :=
  match s with
  | EmptyString => false
  | String d r => (p d || any p r)%bool
  end.

Fixpoint lstrip (s : string) : string :=
  match s with
  | String c r => if is_space c then lstrip r else s
  | EmptyString => EmptyString
  end.

Fixpoint rstrip (s : string) : string :=
  match s with
  | EmptyString => EmptyString
  | String c r =>
      match rstrip r with
      | EmptyString => if is_space c then EmptyString else String c EmptyString
      | r' => String c r'
      end
  end.

Definition strip (s : string) : string := rstrip (lstrip s).

(** Underscores are legal in a numeric literal only between two digits. *)
Fixpoint drop_underscores (prev_digit : bool) (s : string) : option string :=
  match s with
  | EmptyString => Some EmptyString
  | String c r =>
      if Ascii.eqb c "_"%char then
        match r with
        | String d _ =>
            if (prev_digit && is_digit d)%bool then drop_underscores false r
            else None
        | EmptyString => None
        end
      else String c <$> drop_underscores (is_digit c) r
  end.

(** The number of digits in a text. *)
Fixpoint digits (s : string) : N :=
  match s with
  | EmptyString => 0%N
  | String c r => ((if is_digit c then 1 else 0) + digits r)%N
  end.

(** [sys.get_int_max_str_digits()]: CPython 3.11 and later convert
    between [int] and [str] only up to this many digits, 4300 unless the
    interpreter is configured otherwise, and raise [ValueError] beyond. *)
Definition int_max_str_digits : N := 4300.

Definition within_limit (s : string) : bool :=
  (digits s <=? int_max_str_digits)%N.

(** [int(text)]: surrounding white space, an optional sign, decimal
    digits with single underscores between them, no more digits than the
    interpreter converts.  [None] stands for [ValueError]. *)
Definition int_of_str (s : string) : option Z :=
  t ← drop_underscores false (strip s);
  let body :=
    match t with
    | String "+" (String d _ as r) => if is_digit d then r else EmptyString
    | _ => t
    end in
  if within_limit body then Z.of_int <$> NilZero.int_of_string body else None.

(** [str(n)] for an [int]. *)
Definition str_of_int (n : Z) : string := NilZero.string_of_int (Z.to_int n).

End PyStr.

(** ** The Python runtime underneath the source

    [float()], [str()] of a float and the iteration order of a [set] are
    builtins of the interpreter, not code of this repository.  They are
    taken as an interface together with the facts about them that the
    proofs use; every theorem below holds for any runtime satisfying it. *)

Definition float_mark (c : ascii) : bool :=
  (Ascii.eqb c "." || Ascii.eqb c "e" || Ascii.eqb c "n")%bool.

Definition digit_or_n (c : ascii) : bool :=
  (PyStr.is_digit c || Ascii.eqb c "n" || Ascii.eqb c "N")%bool.

(** The type of Python floats. *)
Class PyFloat := { pyfloat : Type }.

Class PyRuntime {FT : PyFloat} := {
  (** [float(text)]; [None] stands for [ValueError]. *)
  float_of_str : string -> option pyfloat;
  (** [str(x)] for a float [x]. *)
  str_of_float : pyfloat -> string;
  (** [float(n)] for an int [n]. *)
  float_of_int : Z -> pyfloat;
  (** The text of a float always shows a point, an exponent, [inf] or [nan]. *)
  str_of_float_marked : forall f, PyStr.any float_mark (str_of_float f) = true;
  (** Text accepted by [float()] has a digit or spells [inf]/[nan]. *)
  float_of_str_shape :
    forall s f, float_of_str s = Some f -> PyStr.any digit_or_n s = true;
  (** Integers up to 2^53 are exact floats, printed as [<n>.0]. *)
  float_of_str_int : forall n, Z.abs n <= 2 ^ 53 ->
    float_of_str (PyStr.str_of_int n +:+ ".0") = Some (float_of_int n);
  str_of_float_int : forall n, Z.abs n <= 2 ^ 53 ->
    str_of_float (float_of_int n) = PyStr.str_of_int n +:+ ".0";
  (** [list(set(l))]: the elements of [l], each once, in the interpreter's
      hash order. *)
  list_of_set : list string -> list string;
  list_of_set_NoDup : forall l, NoDup (list_of_set l);
  list_of_set_elem : forall l x, x ∈ list_of_set l <-> x ∈ l
}.

(** ** Outcomes of running a piece of the program *)

Inductive exn : Type :=
| AttributeError (what : string)
| SyntaxError
| ValueError
| MissingArgumentError (what : string)
| FunctorError (what : string)
| InvalidNext
| UserError (what : string).

(** [OutOfFuel]: the recursion bound of the model was reached.
    [Unmodelled]: the program left the fragment of Python embedded here. *)
Inductive outcome (A : Type) : Type :=
| Ok (a : A)
| Raise (e : exn)
| OutOfFuel
| Unmodelled.

Arguments Ok {A} a.
Arguments Raise {A} e.
Arguments OutOfFuel {A}.
Arguments Unmodelled {A}.

Definition bind {A B} (m : outcome A) (k : A -> outcome B) : outcome B :=
  match m with
  | Ok a => k a
  | Raise e => Raise e
  | OutOfFuel => OutOfFuel
  | Unmodelled => Unmodelled
  end.

Notation "'do' x <- m ; k" := (bind m (fun x => k))
  (at level 10, x pattern, m at level 100, k at level 200).

Definition omap {A B} (f : A -> B) (m : outcome A) : outcome B :=
  do a <- m; Ok (f a).

(** ** Stateful code: a state-and-exception monad

    A Python exception leaves the mutations made before it in place, and
    [try]/[except] resumes from that state; so a raising run carries its
    state. *)
Inductive run (S A : Type) : Type :=
| Returns (a : A) (s : S)
| Raises (e : exn) (s : S)
| NoFuel
| NotModelled.

Arguments Returns {S A} a s.
Arguments Raises {S A} e s.
Arguments NoFuel {S A}.
Arguments NotModelled {S A}.

Definition M (S A : Type) : Type := S -> run S A.

Definition ret {S A} (a : A) : M S A := fun s => Returns a s.
Definition raise {S A} (e : exn) : M S A := fun s => Raises e s.

Definition bindM {S A B} (m : M S A) (k : A -> M S B) : M S B :=
  fun s =>
    match m s with
    | Returns a s' => k a s'
    | Raises e s' => Raises e s'
    | NoFuel => NoFuel
    | NotModelled => NotModelled
    end.

Notation "x <-- m ;; k" := (bindM m (fun x => k))
  (at level 100, m at level 99, k at level 200, right associativity).
Notation "m ;;; k" := (bindM m (fun _ => k))
  (at level 100, k at level 200, right associativity).

(** A computation that reads the state without changing it. *)
Definition pure {S A} (f : S -> outcome A) : M S A :=
  fun s =>
    match f s with
    | Ok a => Returns a s
    | Raise e => Raises e s
    | OutOfFuel => NoFuel
    | Unmodelled => NotModelled
    end.

Definition modify {S} (f : S -> S) : M S unit := fun s => Returns tt (f s).

(** [try: body  except Exception as e: handler(e)] *)
Definition try_except {S A} (body : M S A) (handler : exn -> M S A) : M S A :=
  fun s =>
    match body s with
    | Raises e s' => handler e s'
    | r => r
    end.

(** Run a computation on a part of the state. *)
Definition zoom {S T A} (get : S -> T) (put : T -> S -> S) (m : M T A) : M S A :=
  fun s =>
    match m (get s) with
    | Returns a t => Returns a (put t s)
    | Raises e t => Raises e (put t s)
    | NoFuel => NoFuel
    | NotModelled => NotModelled
    end.

Fixpoint for_each {S A} (l : list A) (body : A -> M S unit) : M S unit :=
  match l with
  | [] => ret tt
  | x :: r => body x ;;; for_each r body
  end.

Section Model.
Context {FT : PyFloat} {RT : PyRuntime}.

(** ** Data model *)

(** Python values that flow through [Fetch] and [EvaluateToType].
    A [VRef] is a reference to a Functor in the heap. *)
Inductive value : Type :=
| VNone
| VBool (b : bool)
| VInt (n : Z)
| VFloat (f : pyfloat)
| VStr (s : string)
| VList (l : list value)
| VDict (d : list (string * value))
| VRef (r : nat).

Definition VStrs (l : list string) : value := VList (map VStr l).

(** The attributes [Functor.__init__] sets, as a record; attributes added
    later with [setattr] (and by subclasses) are in [members]. [args] and
    [kwargs] do not exist before the first [WarmUp].  [precursor] and
    [executor] hold [VNone] or a reference; [fetchLocations] holds the keys
    of the dictionary of resolvers. *)
Record Functor : Type := mkFunctor {
  name : string;
  callMethod : string;
  rollbackMethod : string;
  initialized : bool;
  requiredKWArgs : list string;
  staticKWArgs : list string;
  staticArgsValid : bool;
  optionalKWArgs : list (string * value);
  argMapping : list string;
  fetchFrom : list string;
  fetchLocations : list string;
  requiredMethods : list string;
  requiredPrograms : list string;
  configNameOverrides : list (string * string);
  enableRollback : bool;
  result : Z;
  raiseExceptions : bool;
  functionSucceeded : bool;
  rollbackSucceeded : bool;
  precursor : value;
  executor : value;
  next : value;
  args : option (list value);
  kwargs : option (gmap string value);
  members : gmap string value
}.

(** Attributes of a Functor that hold callables or objects with no [value]
    form: the bound methods of the class, the dictionaries of resolvers,
    capabilities and callbacks, and what every Python object has.  The
    base class [Datum] is not among the sources: besides [name], its
    validity flag and the methods around it are taken to be there and are
    given no [value] form, so that reading one of them is [Unmodelled]. *)
Definition opaque_attrs : list string :=
  [ "fetchLocations"; "methods"; "methodSources"; "callbacks";
    "valid"; "IsValid"; "MakeValid"; "Invalidate";
    "__init__"; "__call__"; "__deepcopy__";
    "__class__"; "__delattr__"; "__dict__"; "__dir__"; "__doc__"; "__eq__";
    "__firstlineno__"; "__format__"; "__ge__"; "__getattribute__"; "__getstate__"; "__gt__";
    "__hash__"; "__init_subclass__"; "__le__"; "__lt__"; "__module__";
    "__ne__"; "__new__"; "__reduce__"; "__reduce_ex__"; "__repr__";
    "__setattr__"; "__sizeof__"; "__static_attributes__"; "__str__"; "__subclasshook__"; "__weakref__";
    "Function"; "Rollback"; "DidFunctionSucceed"; "DidRollbackSucceed";
    "ParseInitialArgs"; "BeforeFunction"; "AfterFunction"; "BeforeRollback";
    "AfterRollback"; "PopulateFetchLocations"; "EvaluateToType"; "Set";
    "Fetch"; "FetchWith"; "FetchWithout"; "FetchWithAndWithout";
    "RemoveDuplicateArgs"; "Initialize"; "ValidateStaticArgs";
    "PopulateMethods"; "PopulatePrecursor"; "ValidateArgs"; "PopulateNext";
    "ValidateMethods"; "ValidateNext"; "PrepareNext"; "CallNext"; "WarmUp";
    "GetExecutor"; "fetch_location_this"; "fetch_location_precursor";
    "fetch_location_args"; "fetch_location_executor"; "fetch_location_config";
    "fetch_location_globals"; "fetch_location_environment" ].

(** The record fields seen as attributes. *)
Definition field_value (f : Functor) (n : string) : option value :=
  if String.eqb n "name" then Some (VStr (name f))
  else if String.eqb n "callMethod" then Some (VStr (callMethod f))
  else if String.eqb n "rollbackMethod" then Some (VStr (rollbackMethod f))
  else if String.eqb n "initialized" then Some (VBool (initialized f))
  else if String.eqb n "requiredKWArgs" then Some (VStrs (requiredKWArgs f))
  else if String.eqb n "staticKWArgs" then Some (VStrs (staticKWArgs f))
  else if String.eqb n "staticArgsValid" then Some (VBool (staticArgsValid f))
  else if String.eqb n "optionalKWArgs" then Some (VDict (optionalKWArgs f))
  else if String.eqb n "argMapping" then Some (VStrs (argMapping f))
  else if String.eqb n "fetchFrom" then Some (VStrs (fetchFrom f))
  else if String.eqb n "requiredMethods" then Some (VStrs (requiredMethods f))
  else if String.eqb n "requiredPrograms" then Some (VStrs (requiredPrograms f))
  else if String.eqb n "configNameOverrides" then
    Some (VDict (map (fun kv => (kv.1, VStr kv.2)) (configNameOverrides f)))
  else if String.eqb n "enableRollback" then Some (VBool (enableRollback f))
  else if String.eqb n "result" then Some (VInt (result f))
  else if String.eqb n "raiseExceptions" then Some (VBool (raiseExceptions f))
  else if String.eqb n "functionSucceeded" then Some (VBool (functionSucceeded f))
  else if String.eqb n "rollbackSucceeded" then Some (VBool (rollbackSucceeded f))
  else if String.eqb n "precursor" then Some (precursor f)
  else if String.eqb n "executor" then Some (executor f)
  else if String.eqb n "next" then Some (next f)
  else if String.eqb n "args" then VList <$> args f
  else if String.eqb n "kwargs" then (fun m => VDict (map_to_list m)) <$> kwargs f
  else None.

Definition is_opaque (n : string) : bool := bool_decide (n ∈ opaque_attrs).

(** Modelled from the spec: [util.HasAttr] and [util.GetAttr] are absent
    from the sources; the 'self' scope is "direct lookup, always considered
    found if the attribute exists". *)
Definition HasAttr (f : Functor) (n : string) : bool :=
  match members f !! n with
  | Some _ => true
  | None => match field_value f n with Some _ => true | None => is_opaque n end
  end.

Definition GetAttr (f : Functor) (n : string) : outcome value :=
  match members f !! n with
  | Some v => Ok v
  | None =>
      match field_value f n with
      | Some v => Ok v
      | None => if is_opaque n then Unmodelled else Raise (AttributeError n)
      end
  end.

(** ** Type coercion and expression evaluation *)

(** The source evaluates text holding braces as an f-string:
    [eval(f"f\"{value}\"")].  The fragment embedded here is literal text,
    the escapes [{{] and [}}], and replacement fields [{this.<attr>}]; a
    quote, backslash or line break, which would change how the literal is
    read, and any other expression are [Unmodelled]. *)
Inductive segment : Type :=
| Lit (c : ascii)
| Field (expr : string).

Definition breaks_literal (c : ascii) : bool :=
  (Ascii.eqb c "034" || Ascii.eqb c "\" || Ascii.eqb c "010" || Ascii.eqb c "013")%bool.

Fixpoint parse_fstring (s : string) (expr : option string) : outcome (list segment) :=
  match expr with
  | None =>
      match s with
      | EmptyString => Ok []
      | String c r =>
          if Ascii.eqb c "{" then
            match r with
            | String "{" r' => omap (cons (Lit "{")) (parse_fstring r' None)
            | _ => parse_fstring r (Some EmptyString)
            end
          else if Ascii.eqb c "}" then
            match r with
            | String "}" r' => omap (cons (Lit "}")) (parse_fstring r' None)
            | _ => Raise SyntaxError
            end
          else if breaks_literal c then Unmodelled
          else omap (cons (Lit c)) (parse_fstring r None)
      end
  | Some e =>
      match s with
      | EmptyString => Raise SyntaxError
      | String c r =>
          if Ascii.eqb c "}" then omap (cons (Field e)) (parse_fstring r None)
          else if (Ascii.eqb c "{" || breaks_literal c)%bool then Unmodelled
          else parse_fstring r (Some (e +:+ String c EmptyString))
      end
  end.

Definition is_ident_char (c : ascii) : bool :=
  (PyStr.is_lower c || PyStr.is_upper c || PyStr.is_digit c || Ascii.eqb c "_")%bool.

Fixpoint all_ident (s : string) : bool :=
  match s with
  | EmptyString => true
  | String c r => (is_ident_char c && all_ident r)%bool
  end.

(** [str(v)], as an f-string field formats it, for the scalar values.
    An [int] beyond the digits the interpreter converts is a
    [ValueError]. *)
Definition text_of (v : value) : outcome string :=
  match v with
  | VNone => Ok "None"
  | VBool true => Ok "True"
  | VBool false => Ok "False"
  | VInt n =>
      if PyStr.within_limit (PyStr.str_of_int n) then Ok (PyStr.str_of_int n)
      else Raise ValueError
  | VFloat f => Ok (str_of_float f)
  | VStr s => Ok s
  | VList _ | VDict _ | VRef _ => Unmodelled
  end.

(** A name Python reserves: it cannot follow the dot of an attribute
    reference. *)
Definition keywords : list string :=
  [ "False"; "None"; "True"; "and"; "as"; "assert"; "async"; "await"; "break";
    "class"; "continue"; "def"; "del"; "elif"; "else"; "except"; "finally";
    "for"; "from"; "global"; "if"; "import"; "in"; "is"; "lambda"; "nonlocal";
    "not"; "or"; "pass"; "raise"; "return"; "try"; "while"; "with"; "yield" ].

Definition is_keyword (n : string) : bool := bool_decide (n ∈ keywords).

(** What a replacement field holds: [this.<attr>], a reference that does
    not compile, or an expression outside the fragment. *)
Inductive field : Type :=
| FAttr (attr : string)
| FInvalid
| FOther.

Definition read_field (expr : string) : field :=
  match expr with
  | String "t" (String "h" (String "i" (String "s" (String "." (String c r as attr))))) =>
      if (all_ident attr && negb (PyStr.is_digit c))%bool
      then if is_keyword attr then FInvalid else FAttr attr
      else FOther
  | _ => FOther
  end.

(** [eval] compiles the whole f-string before it evaluates any field: a
    field that does not compile is a [SyntaxError] whatever the others
    hold. *)
Fixpoint compile_fields (l : list segment) : outcome unit :=
  match l with
  | [] => Ok tt
  | Lit _ :: r => compile_fields r
  | Field e :: r =>
      match read_field e with
      | FAttr _ => compile_fields r
      | FInvalid => Raise SyntaxError
      | FOther =>
          match compile_fields r with
          | Raise e => Raise e
          | _ => Unmodelled
          end
      end
  end.

Definition eval_field (this : Functor) (expr : string) : outcome string :=
  match read_field expr with
  | FAttr attr => do v <- GetAttr this attr; text_of v
  | FInvalid => Raise SyntaxError
  | FOther => Unmodelled
  end.

Fixpoint eval_segments (this : Functor) (l : list segment) : outcome string :=
  match l with
  | [] => Ok EmptyString
  | Lit c :: r => omap (String c) (eval_segments this r)
  | Field e :: r =>
      do t <- eval_field this e;
      do rest <- eval_segments this r;
      Ok (t +:+ rest)
  end.

Definition eval_fstring (this : Functor) (s : string) : outcome string :=
  do segs <- parse_fstring s None;
  do _ <- compile_fields segs;
  eval_segments this segs.

(** The checks the source applies to text once it is interpolated. *)
Definition cast_text (t : string) : value :=
  if String.eqb (PyStr.lower t) "false" then VBool false
  else if String.eqb (PyStr.lower t) "true" then VBool true
  else
    let as_int :=
      match PyStr.int_of_str t with
      | Some n => if String.eqb (PyStr.str_of_int n) t then VInt n else VStr t
      | None => VStr t
      end in
    match float_of_str t with
    | Some f => if String.eqb (str_of_float f) t then VFloat f else as_int
    | None => as_int
    end.

Definition is_expression (s : string) : bool :=
  (PyStr.contains "{" s && PyStr.contains "}" s)%bool.

Fixpoint EvaluateToType (this : Functor) (v : value) (evaluateExpressions : bool)
  {struct v} : outcome value :=
  match v with
  | VNone => Ok VNone
  | VBool _ | VInt _ | VFloat _ => Ok v
  | VDict d =>
      omap VDict
        ((fix items (d : list (string * value)) : outcome (list (string * value)) :=
            match d with
            | [] => Ok []
            | (k, x) :: r =>
                do x' <- EvaluateToType this x evaluateExpressions;
                do r' <- items r;
                Ok ((k, x') :: r')
            end) d)
  | VList l =>
      omap VList
        ((fix elems (l : list value) : outcome (list value) :=
            match l with
            | [] => Ok []
            | x :: r =>
                do x' <- EvaluateToType this x evaluateExpressions;
                do r' <- elems r;
                Ok (x' :: r')
            end) l)
  | VStr s =>
      if String.eqb s "None" then Ok VNone
      else
        do evaluatedValue <-
          (if (evaluateExpressions && is_expression s)%bool
           then eval_fstring this s else Ok s);
        Ok (cast_text evaluatedValue)
  | VRef _ => Ok v
  end.

(** ** The world a Functor runs in *)

(** [heap]: the Functor objects, by reference.  [environ]: [os.environ].
    [builtins]: the attributes of the [builtins] module.  [programs]: the
    names [shutil.which] resolves on the host. *)
Record World : Type := mkWorld {
  heap : gmap nat Functor;
  environ : gmap string string;
  builtins : gmap string value;
  programs : gset string
}.

(** ** Value resolution: [Fetch] and its variants *)

(** What [Fetch] returns: the bare value of a top call ([start=True]) or
    the pair [(value, found)] of a nested one. *)
Inductive fetched : Type :=
| Top (v : value)
| Nested (v : value) (found : bool).

Definition fetch_return (start : bool) (v : value) (found : bool) : fetched :=
  if start then Top v else Nested v found.

(** A resolver unpacks the result of a nested call as [ret, found]. *)
Definition as_pair (r : fetched * list string) : outcome (value * bool * list string) :=
  match r with
  | (Nested v b, att) => Ok (v, b, att)
  | (Top _, _) => Unmodelled
  end.

(** [[f for f in this.fetchFrom if f not in dontFetchFrom]] *)
Definition without (l dontFetchFrom : list string) : list string :=
  filter (fun f => f ∉ dontFetchFrom) l.

Section Resolvers.
(** The recursive occurrence of [Fetch], on another object of the heap:
    reference, [varName], [default], [fetchFrom], [start], [attempted]. *)
Variable Fetch_rec :
  nat -> string -> value -> option (list string) -> bool ->
  option (list string) -> outcome (fetched * list string).
Variable w : World.

Definition FetchWith_in (this : nat) (doFetchFrom : list string)
    (varName : string) (default : value) (currentFetchFrom : option (list string))
    (start : bool) (attempted : option (list string)) : outcome (fetched * list string) :=
  match heap w !! this with
  | None => Unmodelled
  | Some f =>
      let currentFetchFrom := from_option id (fetchFrom f) currentFetchFrom in
      let fetchFrom := list_of_set (currentFetchFrom ++ doFetchFrom) in
      Fetch_rec this varName default (Some fetchFrom) start attempted
  end.

(** [currentFetchFrom] is defaulted and then not used: the comprehension
    reads [this.fetchFrom]. *)
Definition FetchWithout_in (this : nat) (dontFetchFrom : list string)
    (varName : string) (default : value) (currentFetchFrom : option (list string))
    (start : bool) (attempted : option (list string)) : outcome (fetched * list string) :=
  match heap w !! this with
  | None => Unmodelled
  | Some f =>
      let fetchFrom := without (fetchFrom f) dontFetchFrom in
      Fetch_rec this varName default (Some fetchFrom) start attempted
  end.

Definition FetchWithAndWithout_in (this : nat) (doFetchFrom dontFetchFrom : list string)
    (varName : string) (default : value) (currentFetchFrom : option (list string))
    (start : bool) (attempted : option (list string)) : outcome (fetched * list string) :=
  match heap w !! this with
  | None => Unmodelled
  | Some f =>
      let fetchFrom := without (fetchFrom f) dontFetchFrom in
      let fetchFrom := list_of_set (fetchFrom ++ doFetchFrom) in
      Fetch_rec this varName default (Some fetchFrom) start attempted
  end.

Definition not_found (default : value) (attempted : list string)
  : outcome (value * bool * list string) := Ok (default, false, attempted).

Definition fetch_location_this (f : Functor) (varName : string) (default : value)
    (fetchFrom attempted : list string) : outcome (value * bool * list string) :=
  if HasAttr f varName
  then do v <- GetAttr f varName; Ok (v, true, attempted)
  else not_found default attempted.

Definition fetch_location_precursor (f : Functor) (varName : string) (default : value)
    (fetchFrom attempted : list string) : outcome (value * bool * list string) :=
  match precursor f with
  | VNone => not_found default attempted
  | VRef p =>
      do r <- FetchWithAndWithout_in p ["this"] ["environment"] varName default
                (Some fetchFrom) false (Some attempted);
      as_pair r
  | _ => Raise (AttributeError "FetchWithAndWithout")
  end.

Definition fetch_location_args (f : Functor) (varName : string) (default : value)
    (fetchFrom attempted : list string) : outcome (value * bool * list string) :=
  match kwargs f with
  | None => Raise (AttributeError "kwargs")
  | Some kw =>
      match kw !! varName with
      | Some val => Ok (val, true, attempted)
      | None => not_found default attempted
      end
  end.

(** Modelled from the spec: the class of the executor is absent from the
    sources; its [FetchWithout] has the "same contract as the core
    Resolver", so an executor is an object of the heap and resolves with
    [FetchWithout] above.  [this.GetExecutor()] is [this.executor];
    calling [FetchWithout] on [None] is an [AttributeError]. *)
Definition fetch_location_executor (f : Functor) (varName : string) (default : value)
    (fetchFrom attempted : list string) : outcome (value * bool * list string) :=
  match executor f with
  | VRef e =>
      do r <- FetchWithout_in e ["environment"] varName default
                (Some fetchFrom) false (Some attempted);
      as_pair r
  | _ => Raise (AttributeError "FetchWithout")
  end.

Definition fetch_location_config (f : Functor) (varName : string) (default : value)
    (fetchFrom attempted : list string) : outcome (value * bool * list string) :=
  if negb (HasAttr f "config") then not_found default attempted
  else
    do config <- GetAttr f "config";
    match config with
    | VNone => not_found default attempted
    | VDict d =>
        match list_find (fun kv => kv.1 = varName) d with
        | Some (_, (_, val)) => Ok (val, true, attempted)
        | None => not_found default attempted
        end
    | _ => Unmodelled
    end.

Definition fetch_location_globals (f : Functor) (varName : string) (default : value)
    (fetchFrom attempted : list string) : outcome (value * bool * list string) :=
  match builtins w !! varName with
  | Some v => Ok (v, true, attempted)
  | None => not_found default attempted
  end.

Definition fetch_location_environment (f : Functor) (varName : string) (default : value)
    (fetchFrom attempted : list string) : outcome (value * bool * list string) :=
  match environ w !! varName with
  | Some envVar => Ok (VStr envVar, true, attempted)
  | None =>
      match environ w !! PyStr.upper varName with
      | Some envVar => Ok (VStr envVar, true, attempted)
      | None => not_found default attempted
      end
  end.

(** [getattr(this, f"fetch_location_{loc}")] for the resolvers the class
    defines. *)
Definition fetch_location (loc : string) :
    option (Functor -> string -> value -> list string -> list string ->
            outcome (value * bool * list string)) :=
  if String.eqb loc "this" then Some fetch_location_this
  else if String.eqb loc "args" then Some fetch_location_args
  else if String.eqb loc "globals" then Some fetch_location_globals
  else if String.eqb loc "config" then Some fetch_location_config
  else if String.eqb loc "precursor" then Some fetch_location_precursor
  else if String.eqb loc "executor" then Some fetch_location_executor
  else if String.eqb loc "environment" then Some fetch_location_environment
  else None.

(** The loop [for loc in fetchFrom] of [Fetch]: the scope that found the
    name with its value, or [None], and the [attempted] list as the
    resolvers left it. *)
Fixpoint fetch_scan (f : Functor) (varName : string) (default : value)
    (fetchFrom : list string) (locs : list string) (attempted : list string)
  : outcome (option (string * value) * list string) :=
  match locs with
  | [] => Ok (None, attempted)
  | loc :: rest =>
      if bool_decide (loc ∈ fetchLocations f) then
        match fetch_location loc with
        | None => Unmodelled
        | Some resolver =>
            do (ret, found, attempted') <-
              resolver f varName default fetchFrom attempted;
            if found : bool then Ok (Some (loc, ret), attempted')
            else fetch_scan f varName default fetchFrom rest attempted'
        end
      else fetch_scan f varName default fetchFrom rest attempted
  end.

Definition Fetch_in (this : nat) (varName : string) (default : value)
    (scopeOrder : option (list string)) (start : bool)
    (attempted : option (list string)) : outcome (fetched * list string) :=
  match heap w !! this with
  | None => Unmodelled
  | Some f =>
      let attempted := from_option id [] attempted in
      if bool_decide (name f ∈ attempted)
      then Ok (fetch_return start default false, attempted)
      else
        let attempted := attempted ++ [name f] in
        let fetchFrom := from_option id (fetchFrom f) scopeOrder in
        do (hit, attempted') <-
          fetch_scan f varName default fetchFrom fetchFrom attempted;
        match hit with
        | Some (_, ret) => Ok (fetch_return start ret true, attempted')
        | None => Ok (fetch_return start default false, attempted')
        end
  end.
End Resolvers.

(** [Fetch], bounded by the depth of nested calls it may make.  The
    [callbacks.fetch] hook is [None], as [__init__] leaves it. *)
Fixpoint Fetch (fuel : nat) (w : World) (this : nat) (varName : string)
    (default : value) (fetchFrom : option (list string)) (start : bool)
    (attempted : option (list string)) : outcome (fetched * list string) :=
  match fuel with
  | O => OutOfFuel
  | S fuel' => Fetch_in (Fetch fuel' w) w this varName default fetchFrom start attempted
  end.

Definition FetchWith (fuel : nat) (w : World) :=
  FetchWith_in (Fetch fuel w) w.
Definition FetchWithout (fuel : nat) (w : World) :=
  FetchWithout_in (Fetch fuel w) w.
Definition FetchWithAndWithout (fuel : nat) (w : World) :=
  FetchWithAndWithout_in (Fetch fuel w) w.

(** ** Attribute updates *)

Definition set_members (f : Functor) (m : gmap string value) : Functor :=
  mkFunctor (name f) (callMethod f) (rollbackMethod f) (initialized f)
    (requiredKWArgs f) (staticKWArgs f) (staticArgsValid f) (optionalKWArgs f)
    (argMapping f) (fetchFrom f) (fetchLocations f) (requiredMethods f)
    (requiredPrograms f) (configNameOverrides f) (enableRollback f) (result f)
    (raiseExceptions f) (functionSucceeded f) (rollbackSucceeded f)
    (precursor f) (executor f) (next f) (args f) (kwargs f) m.

Definition set_next (f : Functor) (v : value) : Functor :=
  mkFunctor (name f) (callMethod f) (rollbackMethod f) (initialized f)
    (requiredKWArgs f) (staticKWArgs f) (staticArgsValid f) (optionalKWArgs f)
    (argMapping f) (fetchFrom f) (fetchLocations f) (requiredMethods f)
    (requiredPrograms f) (configNameOverrides f) (enableRollback f) (result f)
    (raiseExceptions f) (functionSucceeded f) (rollbackSucceeded f)
    (precursor f) (executor f) v (args f) (kwargs f) (members f).

Definition set_links (f : Functor) (p e : value) (kw : option (gmap string value))
  : Functor :=
  mkFunctor (name f) (callMethod f) (rollbackMethod f) (initialized f)
    (requiredKWArgs f) (staticKWArgs f) (staticArgsValid f) (optionalKWArgs f)
    (argMapping f) (fetchFrom f) (fetchLocations f) (requiredMethods f)
    (requiredPrograms f) (configNameOverrides f) (enableRollback f) (result f)
    (raiseExceptions f) (functionSucceeded f) (rollbackSucceeded f)
    p e (next f) (args f) kw (members f).

Definition set_call_args (f : Functor) (a : list value) (kw : gmap string value)
  : Functor :=
  mkFunctor (name f) (callMethod f) (rollbackMethod f) (initialized f)
    (requiredKWArgs f) (staticKWArgs f) (staticArgsValid f) (optionalKWArgs f)
    (argMapping f) (fetchFrom f) (fetchLocations f) (requiredMethods f)
    (requiredPrograms f) (configNameOverrides f) (enableRollback f) (result f)
    (raiseExceptions f) (functionSucceeded f) (rollbackSucceeded f)
    (precursor f) (executor f) (next f) (Some a) (Some kw) (members f).

Definition set_fetchLocations (f : Functor) (l : list string) : Functor :=
  mkFunctor (name f) (callMethod f) (rollbackMethod f) (initialized f)
    (requiredKWArgs f) (staticKWArgs f) (staticArgsValid f) (optionalKWArgs f)
    (argMapping f) (fetchFrom f) l (requiredMethods f)
    (requiredPrograms f) (configNameOverrides f) (enableRollback f) (result f)
    (raiseExceptions f) (functionSucceeded f) (rollbackSucceeded f)
    (precursor f) (executor f) (next f) (args f) (kwargs f) (members f).

Definition set_required (f : Functor) (kw meths progs : list string) : Functor :=
  mkFunctor (name f) (callMethod f) (rollbackMethod f) (initialized f)
    kw (staticKWArgs f) (staticArgsValid f) (optionalKWArgs f)
    (argMapping f) (fetchFrom f) (fetchLocations f) meths
    progs (configNameOverrides f) (enableRollback f) (result f)
    (raiseExceptions f) (functionSucceeded f) (rollbackSucceeded f)
    (precursor f) (executor f) (next f) (args f) (kwargs f) (members f).

Definition set_initialized (f : Functor) (b : bool) : Functor :=
  mkFunctor (name f) (callMethod f) (rollbackMethod f) b
    (requiredKWArgs f) (staticKWArgs f) (staticArgsValid f) (optionalKWArgs f)
    (argMapping f) (fetchFrom f) (fetchLocations f) (requiredMethods f)
    (requiredPrograms f) (configNameOverrides f) (enableRollback f) (result f)
    (raiseExceptions f) (functionSucceeded f) (rollbackSucceeded f)
    (precursor f) (executor f) (next f) (args f) (kwargs f) (members f).

Definition set_staticArgsValid (f : Functor) (b : bool) : Functor :=
  mkFunctor (name f) (callMethod f) (rollbackMethod f) (initialized f)
    (requiredKWArgs f) (staticKWArgs f) b (optionalKWArgs f)
    (argMapping f) (fetchFrom f) (fetchLocations f) (requiredMethods f)
    (requiredPrograms f) (configNameOverrides f) (enableRollback f) (result f)
    (raiseExceptions f) (functionSucceeded f) (rollbackSucceeded f)
    (precursor f) (executor f) (next f) (args f) (kwargs f) (members f).

Definition set_result (f : Functor) (r : Z) : Functor :=
  mkFunctor (name f) (callMethod f) (rollbackMethod f) (initialized f)
    (requiredKWArgs f) (staticKWArgs f) (staticArgsValid f) (optionalKWArgs f)
    (argMapping f) (fetchFrom f) (fetchLocations f) (requiredMethods f)
    (requiredPrograms f) (configNameOverrides f) (enableRollback f) r
    (raiseExceptions f) (functionSucceeded f) (rollbackSucceeded f)
    (precursor f) (executor f) (next f) (args f) (kwargs f) (members f).

Definition set_heap (w : World) (h : gmap nat Functor) : World :=
  mkWorld h (environ w) (builtins w) (programs w).

(** The object [this] refers to; a dangling reference is outside the model. *)
Definition self (this : nat) : M World Functor :=
  fun w => match heap w !! this with
           | Some f => Returns f w
           | None => NotModelled
           end.

Definition update (this : nat) (g : Functor -> Functor) : M World unit :=
  f <-- self this ;; modify (fun w => set_heap w (<[this := g f]> (heap w))).

(** [setattr(this, varName, value)].  Assigning [next] replaces the queue;
    assigning over another attribute of [__init__] or over a method would
    change the shape of the object and is outside the model. *)
Definition setattr (f : Functor) (varName : string) (v : value) : outcome Functor :=
  if String.eqb varName "next" then Ok (set_next f v)
  else
    match field_value f varName with
    | Some _ => Unmodelled
    | None =>
        if is_opaque varName then Unmodelled
        else if (String.eqb varName "args" || String.eqb varName "kwargs")%bool
        then Unmodelled
        else Ok (set_members f (<[varName := v]> (members f)))
    end.

(** The loop over [configNameOverrides.items()] of [Set]: the first key
    equal to [varName] renames it. *)
Definition override_name (f : Functor) (varName : string) : string :=
  match list_find (fun kv => kv.1 = varName) (configNameOverrides f) with
  | Some (_, (_, var)) => var
  | None => varName
  end.

Definition Set_ (this : nat) (varName : string) (v : value)
    (evaluateExpressions : bool) : M World unit :=
  f <-- self this ;;
  v' <-- pure (fun _ => EvaluateToType f v evaluateExpressions) ;;
  f' <-- pure (fun _ => setattr f (override_name f varName) v') ;;
  update this (fun _ => f').

(** ** One-time initialization *)

(** [getattr(this, f"fetch_location_{loc}")] succeeds for these. *)
Definition has_resolver (loc : string) : bool :=
  bool_decide (loc ∈ ["this"; "args"; "globals"; "config"; "precursor";
                      "executor"; "environment"]).

(** The [try] around the loop of [PopulateFetchLocations] ends it at the
    first scope without a resolver. *)
Fixpoint populate_locations (locs registered : list string) : list string :=
  match locs with
  | [] => registered
  | loc :: rest =>
      if has_resolver loc then
        populate_locations rest
          (if bool_decide (loc ∈ registered) then registered else registered ++ [loc])
      else registered
  end.

Definition PopulateFetchLocations (this : nat) : M World unit :=
  update this (fun f =>
    set_fetchLocations f (populate_locations (fetchFrom f) (fetchLocations f))).

(** [list(dict.fromkeys(l))]: every element once, at its first position. *)
Fixpoint fromkeys_from (seen l : list string) : list string :=
  match l with
  | [] => []
  | x :: r =>
      if bool_decide (x ∈ seen) then fromkeys_from seen r
      else x :: fromkeys_from (x :: seen) r
  end.

Definition fromkeys (l : list string) : list string := fromkeys_from [] l.

(** [list.remove(x)]: drops the first occurrence. *)
Fixpoint list_remove (x : string) (l : list string) : list string :=
  match l with
  | [] => []
  | y :: r => if bool_decide (x = y) then r else y :: list_remove x r
  end.

(** [for arg in required: if arg in optional: required.remove(arg)].
    The list iterator keeps an index into the list that the body shrinks:
    [i] is the index of the next element to visit. *)
Fixpoint remove_optional (fuel : nat) (optional : list string) (i : nat)
    (required : list string) : outcome (list string) :=
  match required !! i with
  | None => Ok required
  | Some arg =>
      match fuel with
      | O => OutOfFuel
      | S fuel' =>
          if bool_decide (arg ∈ optional)
          then remove_optional fuel' optional (S i) (list_remove arg required)
          else remove_optional fuel' optional (S i) required
      end
  end.

Definition RemoveDuplicateArgs (this : nat) : M World unit :=
  update this (fun f =>
    set_required f (fromkeys (requiredKWArgs f)) (fromkeys (requiredMethods f))
      (fromkeys (requiredPrograms f))) ;;;
  f <-- self this ;;
  kw <-- pure (fun _ =>
           remove_optional (length (requiredKWArgs f)) (map fst (optionalKWArgs f))
             0 (requiredKWArgs f)) ;;
  update this (fun f => set_required f kw (requiredMethods f) (requiredPrograms f)).

Definition Initialize (this : nat) : M World unit :=
  f <-- self this ;;
  if initialized f then ret tt
  else
    PopulateFetchLocations this ;;;
    RemoveDuplicateArgs this ;;;
    f <-- self this ;;
    for_each (requiredPrograms f) (fun prog =>
      fun w => if bool_decide (prog ∈ programs w) then Returns tt w
               else Raises (FunctorError (prog +:+ " required but not found in path.")) w) ;;;
    update this (fun f => set_initialized f true).

(** ** Static arguments *)

Definition is_none (v : value) : bool :=
  match v with VNone => true | _ => false end.

Definition top_value (r : fetched * list string) : outcome value :=
  match r with
  | (Top v, _) => Ok v
  | (Nested _ _, _) => Unmodelled
  end.

Definition ValidateStaticArgs (fuel : nat) (this : nat) : M World unit :=
  f <-- self this ;;
  if staticArgsValid f then ret tt
  else
    for_each (staticKWArgs f) (fun skw =>
      f <-- self this ;;
      if HasAttr f skw then ret tt
      else
        fetched <-- pure (fun w =>
          do r <- Fetch fuel w this skw VNone None true None; top_value r) ;;
        if is_none fetched
        then raise (MissingArgumentError
                      ("Static key-word argument " +:+ skw +:+ " could not be Fetched."))
        else Set_ this skw fetched true) ;;;
    update this (fun f => set_staticArgsValid f true).

(** ** Links to the predecessor and the executor *)

(** [this.kwargs.pop(k)] when [k in this.kwargs]. *)
Definition PopulatePrecursor (this : nat) : M World unit :=
  f <-- self this ;;
  kw <-- pure (fun _ => match kwargs f with
                        | Some kw => Ok kw
                        | None => Raise (AttributeError "kwargs")
                        end) ;;
  let '(e, kw1) :=
    if is_none (executor f) then
      match kw !! "executor" with
      | Some e => (e, delete "executor" kw)
      | None => (executor f, kw)
      end
    else (executor f, kw) in
  match kw1 !! "precursor" with
  | Some p =>
      update this (fun f => set_links f p e (Some (delete "precursor" kw1))) ;;;
      (* the debug message reads [this.precursor.name] *)
      match p with
      | VRef r => (fun w => match heap w !! r with
                            | Some _ => Returns tt w
                            | None => NotModelled
                            end)
      | _ => raise (AttributeError "name")
      end
  | None => update this (fun f => set_links f VNone e (Some kw1))
  end.

(** ** Successor list and argument validation *)

Definition PopulateNext (fuel : nat) (this : nat) : M World unit :=
  let dontFetchFrom := ["this"; "environment"; "executor"; "globals"] in
  v <-- pure (fun w =>
          do r <- FetchWithout fuel w this dontFetchFrom "next" (VList []) None true None;
          top_value r) ;;
  Set_ this "next" v false.

(** [d[k] = v] on a dictionary kept in insertion order. *)
Fixpoint dict_set (d : list (string * value)) (k : string) (v : value)
  : list (string * value) :=
  match d with
  | [] => [(k, v)]
  | (k', v') :: r =>
      if bool_decide (k = k') then (k, v) :: r else (k', v') :: dict_set r k v
  end.

(** [dict(zip(names, values))] *)
Fixpoint dict_zip (acc : list (string * value)) (names : list string)
    (values : list value) : list (string * value) :=
  match names, values with
  | k :: ks, v :: vs => dict_zip (dict_set acc k v) ks vs
  | _, _ => acc
  end.

Definition ValidateArgs (fuel : nat) (this : nat) : M World unit :=
  f <-- self this ;;
  a <-- pure (fun _ => match args f with
                       | Some a => Ok a
                       | None => Raise (AttributeError "args")
                       end) ;;
  if Nat.ltb (length (argMapping f)) (length a)
  then raise (MissingArgumentError "Too many arguments.")
  else
    let argMap := dict_zip [] (take (length a) (argMapping f)) a in
    for_each argMap (fun kv => Set_ this kv.1 kv.2 true) ;;;
    f <-- self this ;;
    for_each (requiredKWArgs f) (fun rkw =>
      if bool_decide (rkw ∈ map fst argMap) then ret tt
      else
        r <-- pure (fun w =>
                do r <- FetchWithout fuel w this ["this"] rkw VNone None false None;
                as_pair r) ;;
        let '(fetched, found, _) := r in
        if found : bool then Set_ this rkw fetched true
        else raise (MissingArgumentError
                      ("Key-word argument " +:+ rkw +:+ " could not be Fetched."))) ;;;
    f <-- self this ;;
    for_each (optionalKWArgs f) (fun kv =>
      let '(okw, default) := kv in
      if bool_decide (okw ∈ map fst argMap) then ret tt
      else
        v <-- pure (fun w =>
                do r <- FetchWithout fuel w this ["this"] okw default None true None;
                top_value r) ;;
        Set_ this okw v true).

(** ** The invocation lifecycle *)

(** Methods a subclass overrides and calls into collaborators that are
    not part of these sources, as transformers of the world.  [Before],
    [Call], [DidCallSucceed], [After] stand for the methods [__call__]
    looks up by name from [callMethod]; [Undo], [DidUndoSucceed] for those
    it looks up from [rollbackMethod].  A hook may change any object of
    the heap, this Operation included, and may raise.  What a hook does
    to the stack of the tracker by invoking other Operations is outside
    this embedding: the tracker below records the pushes and pops of the
    one invocation followed. *)
Record Hooks : Type := mkHooks {
  PopulateMethods : nat -> M World unit;
  ParseInitialArgs : nat -> M World unit;
  ValidateMethods : nat -> M World unit;
  BeginPlacing : nat -> string -> M World unit;
  ResolvePlacementOf : nat -> string -> M World unit;
  Before : nat -> M World unit;
  Call : nat -> M World value;
  DidCallSucceed : nat -> M World bool;
  Undo : nat -> M World value;
  DidUndoSucceed : nat -> M World bool;
  After : nat -> M World unit;
  ValidateNext : nat -> value -> M World bool;
  (** [executor.Execute(next, precursor=this, next=queue)] *)
  Execute : nat -> value -> nat -> value -> M World value
}.

(** Calls that leave the class, in the order they are made. *)
Inductive event : Type :=
| EvBefore
| EvCall
| EvUndo
| EvAfter
| EvValidateNext (successor : value)
| EvExecute (successor : value) (queue : value).

(** The process: the world, the stack of [FunctorTracker] and the calls
    made so far. *)
Record Process : Type := mkProcess {
  world : World;
  tracker : list nat;
  trace : list event
}.

Definition in_world {A} (m : M World A) : M Process A :=
  zoom world (fun w p => mkProcess w (tracker p) (trace p)) m.

Definition emit (e : event) : M Process unit :=
  modify (fun p => mkProcess (world p) (tracker p) (trace p ++ [e])).

(** Modelled from the spec: [FunctorTracker] is absent from the sources;
    it is "a process-wide stack [that] tracks in-flight Operations (push on
    entry, pop on exit)". *)
Definition Push (this : nat) : M Process unit :=
  modify (fun p => mkProcess (world p) (tracker p ++ [this]) (trace p)).

Definition Pop (this : nat) : M Process unit :=
  modify (fun p => mkProcess (world p) (removelast (tracker p)) (trace p)).

Section Lifecycle.
Variable fuel : nat.
Variable H : Hooks.

Definition CallNext (this : nat) : M Process value :=
  f <-- in_world (self this) ;;
  match next f with
  | VList (successor :: queue) =>
      (* [this.next.pop(0)] *)
      in_world (update this (fun f => set_next f (VList queue))) ;;;
      if is_none (executor f) then raise InvalidNext
      else
        emit (EvValidateNext successor) ;;;
        ok <-- in_world (ValidateNext H this successor) ;;
        if ok : bool then
          (* [this.GetExecutor().Execute(next, precursor=this, next=this.next)] *)
          f <-- in_world (self this) ;;
          match executor f with
          | VRef e =>
              emit (EvExecute successor (next f)) ;;;
              in_world (Execute H e successor this (next f))
          | VNone => raise (AttributeError "Execute")
          | _ => fun _ => NotModelled
          end
        else raise InvalidNext
  | _ =>
      (* an empty queue, or a value whose [pop(0)] fails *)
      ret VNone
  end.
(** The executor's placement hooks run only for a truthy [executor]. *)
Definition placing (this : nat) (hook : nat -> string -> M World unit) : M World unit :=
  f <-- self this ;;
  match executor f with
  | VNone => ret tt
  | VRef e => hook e (name f)
  | _ => fun _ => NotModelled
  end.

Definition WarmUp (this : nat) (a : list value) (kw : gmap string value)
  : M World unit :=
  update this (fun f => set_call_args f a kw) ;;;
  try_except
    (PopulatePrecursor this ;;;
     placing this (BeginPlacing H) ;;;
     Initialize this ;;;
     PopulateMethods H this ;;;
     ParseInitialArgs H this ;;;
     ValidateStaticArgs fuel this ;;;
     PopulateNext fuel this ;;;
     ValidateArgs fuel this ;;;
     ValidateMethods H this ;;;
     placing this (ResolvePlacementOf H))
    (fun e =>
       f <-- self this ;;
       if raiseExceptions f then raise e else ret tt).

(** The local variables [ret] and [nextRet] of [__call__] outlive an
    exception caught inside it, so they are part of the state of its
    body. *)
Record Frame : Type := mkFrame {
  proc : Process;
  ret_ : value;
  nextRet : value
}.

Definition in_proc {A} (m : M Process A) : M Frame A :=
  zoom proc (fun p fr => mkFrame p (ret_ fr) (nextRet fr)) m.

Definition hook {A} (e : event) (m : M World A) : M Frame A :=
  in_proc (emit e ;;; in_world m).

Definition set_ret (v : value) : M Frame unit :=
  modify (fun fr => mkFrame (proc fr) v (nextRet fr)).

Definition set_nextRet (v : value) : M Frame unit :=
  modify (fun fr => mkFrame (proc fr) (ret_ fr) v).

Definition this_result (this : nat) (r : Z) : M Frame unit :=
  in_proc (in_world (update this (fun f => set_result f r))).

(** The branches of [__call__] that set [result] and chain. *)
Definition settle (this : nat) : M Frame unit :=
  ok <-- in_proc (in_world (DidCallSucceed H this)) ;;
  if ok : bool then
    this_result this 0 ;;;
    n <-- in_proc (CallNext this) ;;
    set_nextRet n
  else
    f <-- in_proc (in_world (self this)) ;;
    if enableRollback f then
      v <-- hook EvUndo (Undo H this) ;;
      set_ret v ;;;
      undone <-- in_proc (in_world (DidUndoSucceed H this)) ;;
      if undone : bool then
        this_result this 1 ;;;
        n <-- in_proc (CallNext this) ;;
        set_nextRet n
      else this_result this 2
    else this_result this 3.

Definition call_body (this : nat) (a : list value) (kw : gmap string value)
  : M Frame unit :=
  in_proc (in_world (WarmUp this a kw)) ;;;
  hook EvBefore (Before H this) ;;;
  v <-- hook EvCall (Call H this) ;;
  set_ret v ;;;
  settle this ;;;
  hook EvAfter (After H this).

Definition call_frame (this : nat) (a : list value) (kw : gmap string value)
  : M Frame value :=
  try_except (call_body this a kw)
    (fun e =>
       f <-- in_proc (in_world (self this)) ;;
       if raiseExceptions f then raise e else ret tt) ;;;
  f <-- in_proc (in_world (self this)) ;;
  if (raiseExceptions f && Z.ltb 1 (result f))%bool
  then raise (FunctorError (name f +:+ " failed with result "
                            +:+ PyStr.str_of_int (result f)))
  else
    fr <-- (fun fr => Returns fr fr) ;;
    let r := if is_none (nextRet fr) then ret_ fr else nextRet fr in
    in_proc (Pop this) ;;;
    ret r.

(** [Functor.__call__(this, *args, **kwargs)] *)
Definition __call__ (this : nat) (a : list value) (kw : gmap string value)
  : M Process value :=
  Push this ;;;
  fun p =>
    match call_frame this a kw (mkFrame p VNone VNone) with
    | Returns v fr => Returns v (proc fr)
    | Raises e fr => Raises e (proc fr)
    | NoFuel => NoFuel
    | NotModelled => NotModelled
    end.
End Lifecycle.

(** ** Construction *)

(** The object [Functor.__init__(name)] leaves. *)
Definition new_Functor (name : string) : Functor :=
  {| name := name;
     callMethod := "Function";
     rollbackMethod := "Rollback";
     initialized := false;
     requiredKWArgs := [];
     staticKWArgs := [];
     staticArgsValid := false;
     optionalKWArgs := [];
     argMapping := [];
     fetchFrom := ["this"; "args"; "globals"; "config"; "precursor"; "executor";
                   "environment"];
     fetchLocations := [];
     requiredMethods := [];
     requiredPrograms := [];
     configNameOverrides := [];
     enableRollback := true;
     result := 0;
     raiseExceptions := true;
     functionSucceeded := false;
     rollbackSucceeded := false;
     precursor := VNone;
     executor := VNone;
     next := VList [];
     args := None;
     kwargs := None;
     members := ∅ |}.

(** The methods of the base class that [__call__] reaches through
    overridable names, and collaborators that do nothing. *)
Definition base_hooks : Hooks :=
  {| PopulateMethods := fun _ => ret tt;
     ParseInitialArgs := fun _ => ret tt;
     ValidateMethods := fun _ => ret tt;
     BeginPlacing := fun _ _ => ret tt;
     ResolvePlacementOf := fun _ _ => ret tt;
     Before := fun _ => ret tt;
     Call := fun _ => ret VNone;
     DidCallSucceed := fun this => f <-- self this ;; ret (functionSucceeded f);
     Undo := fun _ => ret VNone;
     DidUndoSucceed := fun this => f <-- self this ;; ret (rollbackSucceeded f);
     After := fun _ => ret tt;
     ValidateNext := fun _ _ => ret true;
     Execute := fun _ _ _ _ => ret VNone |}.

End Model.

(** ** A reference runtime

    A runtime to run the model on: its floats are the whole numbers, read
    and printed as [<n>.0], and a set lists its elements in first-seen
    order.  The theorems are proved for every runtime; only the runs on
    concrete inputs use this one. *)
Module RefRuntime.

Fixpoint strip_dot0 (s : string) : option string :=
  match s with
  | EmptyString => None
  | String c r =>
      if String.eqb s ".0" then Some EmptyString else String c <$> strip_dot0 r
  end.

Definition whole_of_str (s : string) : option Z :=
  p ← strip_dot0 s;
  d ← NilZero.int_of_string p;
  if (String.eqb (PyStr.str_of_int (Z.of_int d)) p && PyStr.any digit_or_n s)%bool
  then Some (Z.of_int d) else None.

Definition str_of_whole (n : Z) : string := PyStr.str_of_int n +:+ ".0".

Lemma any_app p a b : PyStr.any p (a +:+ b) = (PyStr.any p a || PyStr.any p b)%bool.
Proof.
  induction a as [|c a IH]; simpl; [reflexivity|].
  rewrite IH. apply orb_assoc.
Qed.

Lemma strip_dot0_app p : strip_dot0 (p +:+ ".0") = Some p.
Proof.
  induction p as [|c p IH]; [reflexivity|].
  change (String c p +:+ ".0") with (String c (p +:+ ".0")).
  cbn [strip_dot0]. rewrite IH.
  destruct (String.eqb_spec (String c (p +:+ ".0")) ".0") as [E|_]; [|reflexivity].
  injection E as _ E. destruct p as [|? [|? ?]]; discriminate.
Qed.

Lemma int_of_string_of_int n :
  NilZero.int_of_string (PyStr.str_of_int n) = Some (Z.to_int n).
Proof.
  unfold PyStr.str_of_int. apply NilZero.isi; destruct n; simpl; try discriminate;
    intros [= E]; exact (DecimalPos.Unsigned.to_uint_nonnil _ E).
Qed.

Lemma float_of_str_text n : whole_of_str (str_of_whole n) = Some n.
Proof.
  unfold whole_of_str, str_of_whole. rewrite strip_dot0_app. simpl.
  rewrite int_of_string_of_int. simpl. rewrite DecimalZ.of_to.
  rewrite String.eqb_refl, any_app. simpl. rewrite orb_true_r. reflexivity.
Qed.

Lemma float_of_str_has_digit s f :
  whole_of_str s = Some f -> PyStr.any digit_or_n s = true.
Proof.
  unfold whole_of_str. destruct (strip_dot0 s) as [p|]; [simpl|discriminate].
  destruct (NilZero.int_of_string p) as [d|]; [simpl|discriminate].
  destruct (PyStr.any digit_or_n s); [reflexivity|].
  rewrite andb_false_r. discriminate.
Qed.

Lemma fromkeys_from_NoDup seen l :
  NoDup (fromkeys_from seen l) /\ forall x, x ∈ fromkeys_from seen l -> x ∉ seen.
Proof.
  revert seen. induction l as [|y l IH]; intros seen; simpl.
  - split; [constructor|]. intros x Hx. inversion Hx.
  - case_bool_decide as Hy; [apply IH|].
    destruct (IH (y :: seen)) as [ND Hout]. split.
    + constructor; [|exact ND]. intros Hin. apply (Hout _ Hin). left.
    + intros x Hx. apply elem_of_cons in Hx as [->|Hx]; [exact Hy|].
      intros Hs. apply (Hout _ Hx). right. exact Hs.
Qed.

Lemma fromkeys_from_elem seen l x :
  x ∈ fromkeys_from seen l <-> x ∈ l /\ x ∉ seen.
Proof.
  revert seen. induction l as [|y l IH]; intros seen; simpl.
  - split; [intros Hx; inversion Hx|intros [Hx _]; inversion Hx].
  - case_bool_decide as Hy.
    + rewrite IH, elem_of_cons. split; [tauto|].
      intros [[->|Hx] Hs]; [contradiction|tauto].
    + rewrite elem_of_cons, IH, !elem_of_cons. split.
      * intros [->|[Hx Hs]]; [tauto|]. split; [tauto|]. intros Hs'. apply Hs. tauto.
      * intros [[->|Hx] Hs]; [tauto|].
        destruct (decide (x = y)) as [->|Hne]; [tauto|]. right. split; [exact Hx|].
        intros [?|?]; contradiction.
Qed.

#[export] Instance whole_numbers : PyFloat := {| pyfloat := Z |}.

#[export] Instance runtime : PyRuntime.
Proof.
  refine {| float_of_str := whole_of_str;
            str_of_float := str_of_whole;
            float_of_int := fun n => n;
            list_of_set := fromkeys |}.
  - intros f. unfold str_of_whole. rewrite any_app. simpl. apply orb_true_r.
  - exact float_of_str_has_digit.
  - intros n _. apply float_of_str_text.
  - reflexivity.
  - intros l. apply fromkeys_from_NoDup.
  - intros l x. unfold fromkeys. rewrite fromkeys_from_elem. split; [tauto|].
    intros Hx. split; [exact Hx|]. intros Hn. inversion Hn.
Defined.

End RefRuntime.

(** * Properties *)

Example int_of_str_examples :
  PyStr.int_of_str "3" = Some 3 /\ PyStr.int_of_str " -1_000 " = Some (-1000) /\
  PyStr.int_of_str "+07" = Some 7 /\ PyStr.int_of_str "3.0" = None /\
  PyStr.int_of_str EmptyString = None /\ PyStr.int_of_str "1__0" = None /\
  PyStr.int_of_str "+-3" = None /\ PyStr.str_of_int (-42) = "-42" /\
  PyStr.lower "TrUe" = "true" /\ PyStr.upper "path_x1" = "PATH_X1".
Proof. vm_compute. repeat split. Qed.

(** ** The coercion rules as the specification words them *)
Module Spec.
Section Spec.
Context {FT : PyFloat} {RT : PyRuntime}.

(** "accepted as float only if formatting it back produces the identical
    text" *)
Definition float_round_trip (t : string) : option pyfloat :=
  match float_of_str t with
  | Some f => if String.eqb (str_of_float f) t then Some f else None
  | None => None
  end.

(** "then integer parse (same round-trip check)" *)
Definition int_round_trip (t : string) : option Z :=
  match PyStr.int_of_str t with
  | Some n => if String.eqb (PyStr.str_of_int n) t then Some n else None
  | None => None
  end.

(** "attempt boolean parse (case-insensitive), then float parse, then
    integer parse. If none apply, keep the text as-is." *)
Definition typed_text (t : string) : value :=
  if String.eqb (PyStr.lower t) "true" then VBool true
  else if String.eqb (PyStr.lower t) "false" then VBool false
  else match float_round_trip t with
       | Some f => VFloat f
       | None =>
           match int_round_trip t with
           | Some n => VInt n
           | None => VStr t
           end
       end.

(** "recursively evaluate every element, preserving order" *)
Fixpoint each {A B} (f : A -> outcome B) (l : list A) : outcome (list B) :=
  match l with
  | [] => Ok []
  | x :: r => do y <- f x; do r' <- each f r; Ok (y :: r')
  end.

(** "recursively evaluate every value, preserving keys" *)
Definition each_value {A B} (f : A -> outcome B) (d : list (string * A))
  : outcome (list (string * B)) :=
  each (fun kv => do y <- f kv.2; Ok (kv.1, y)) d.

(** The text the checks apply to: "if [evaluateExpressions] is true and
    the text contains a [{]…[}] substring, treat the whole text as a
    template". *)
Definition interpolated (this : Functor) (s : string) (evaluateExpressions : bool)
  : outcome string :=
  if (evaluateExpressions && is_expression s)%bool then eval_fstring this s else Ok s.
End Spec.
End Spec.

Section Coercion.
Context {FT : PyFloat} {RT : PyRuntime}.

Lemma cast_text_typed_text t : cast_text t = Spec.typed_text t.
Proof.
  unfold cast_text, Spec.typed_text, Spec.float_round_trip, Spec.int_round_trip.
  destruct (String.eqb_spec (PyStr.lower t) "false") as [E|_].
  - rewrite E. reflexivity.
  - destruct (String.eqb (PyStr.lower t) "true"); [reflexivity|].
    destruct (float_of_str t) as [f|];
      [destruct (String.eqb (str_of_float f) t); [reflexivity|]|];
      destruct (PyStr.int_of_str t) as [n|]; try reflexivity;
      destruct (String.eqb (PyStr.str_of_int n) t); reflexivity.
Qed.

Lemma EvaluateToType_list this l ev :
  EvaluateToType this (VList l) ev
  = omap VList (Spec.each (fun x => EvaluateToType this x ev) l).
Proof.
  cbn [EvaluateToType]. f_equal.
  induction l as [|x l IH]; [reflexivity|].
  cbn [Spec.each]. rewrite <- IH. reflexivity.
Qed.

Lemma EvaluateToType_dict this d ev :
  EvaluateToType this (VDict d) ev
  = omap VDict (Spec.each_value (fun x => EvaluateToType this x ev) d).
Proof.
  cbn [EvaluateToType]. f_equal. unfold Spec.each_value.
  induction d as [|[k x] d IH]; [reflexivity|].
  cbn [Spec.each]. rewrite <- IH. cbn [fst snd].
  destruct (EvaluateToType this x ev); reflexivity.
Qed.

(** No float prints as a bare integer literal. *)
Lemma float_round_trip_unmarked t :
  PyStr.any float_mark t = false -> Spec.float_round_trip t = None.
Proof.
  intros Hm. unfold Spec.float_round_trip.
  destruct (float_of_str t) as [f|]; [|reflexivity].
  destruct (String.eqb_spec (str_of_float f) t) as [E|_]; [|reflexivity].
  pose proof (str_of_float_marked f) as Hf. rewrite E, Hm in Hf. discriminate.
Qed.

Lemma float_round_trip_no_digit t :
  PyStr.any digit_or_n t = false -> Spec.float_round_trip t = None.
Proof.
  intros Hd. unfold Spec.float_round_trip.
  destruct (float_of_str t) as [f|] eqn:E; [|reflexivity].
  apply float_of_str_shape in E. rewrite Hd in E. discriminate.
Qed.

Lemma float_round_trip_whole n :
  Z.abs n <= 2 ^ 53 ->
  Spec.float_round_trip (PyStr.str_of_int n +:+ ".0") = Some (float_of_int n).
Proof.
  intros Hn. unfold Spec.float_round_trip.
  rewrite (float_of_str_int n Hn), (str_of_float_int n Hn), String.eqb_refl.
  reflexivity.
Qed.

Lemma EvaluateToType_text this s ev :
  EvaluateToType this (VStr s) ev
  = if String.eqb s "None" then Ok VNone
    else do t <- Spec.interpolated this s ev; Ok (Spec.typed_text t).
Proof.
  cbn [EvaluateToType]. destruct (String.eqb s "None"); [reflexivity|].
  unfold Spec.interpolated.
  destruct (if (ev && is_expression s)%bool then eval_fstring this s else Ok s);
    cbn [bind]; try reflexivity.
  rewrite cast_text_typed_text. reflexivity.
Qed.

Lemma typed_text_three_point_zero : Spec.typed_text "3.0" = VFloat (float_of_int 3).
Proof.
  unfold Spec.typed_text.
  change (PyStr.lower "3.0") with "3.0". cbn [String.eqb Ascii.eqb Bool.eqb].
  change "3.0" with (PyStr.str_of_int 3 +:+ ".0").
  rewrite float_round_trip_whole; [reflexivity|]. vm_compute. discriminate.
Qed.

Lemma typed_text_three : Spec.typed_text "3" = VInt 3.
Proof.
  unfold Spec.typed_text.
  rewrite float_round_trip_unmarked by reflexivity. reflexivity.
Qed.

Lemma typed_text_hello : Spec.typed_text "hello" = VStr "hello".
Proof.
  unfold Spec.typed_text.
  rewrite float_round_trip_no_digit by reflexivity. reflexivity.
Qed.

Lemma GetAttr_member (f : Functor) n v : members f !! n = Some v -> GetAttr f n = Ok v.
Proof. intros E. unfold GetAttr. rewrite E. reflexivity. Qed.

Lemma interpolate_count this :
  eval_fstring (set_members this (<["count" := VInt 3]> (members this))) "{this.count}"
  = Ok "3".
Proof.
  set (f := set_members _ _).
  change (eval_fstring f "{this.count}")
    with (do t <- (do v <- GetAttr f "count"; text_of v); Ok (t +:+ EmptyString)).
  rewrite (GetAttr_member f "count" (VInt 3)); [reflexivity|].
  apply lookup_insert_eq.
Qed.

(** C7. [EvaluateToType]: null and the text "None" give null; booleans,
    integers and floats pass through; mappings and sequences are
    evaluated value by value, keeping keys and order; text is
    interpolated when asked to and then read as a boolean
    (case-insensitively), else as a float if printing it back gives the
    same text, else as an integer under the same check, else kept.  So
    "{this.count}" with attribute count = 3 gives the integer 3, "true"
    gives true, "3.0" the float 3.0, "3" the integer 3 and "hello"
    itself. *)
Theorem EvaluateToType_contract (this : Functor) (ev : bool) :
  EvaluateToType this VNone ev = Ok VNone
  /\ EvaluateToType this (VStr "None") ev = Ok VNone
  /\ (forall b, EvaluateToType this (VBool b) ev = Ok (VBool b))
  /\ (forall n, EvaluateToType this (VInt n) ev = Ok (VInt n))
  /\ (forall x, EvaluateToType this (VFloat x) ev = Ok (VFloat x))
  /\ (forall d, EvaluateToType this (VDict d) ev
                = omap VDict (Spec.each_value (fun x => EvaluateToType this x ev) d))
  /\ (forall l, EvaluateToType this (VList l) ev
                = omap VList (Spec.each (fun x => EvaluateToType this x ev) l))
  /\ (forall s, EvaluateToType this (VStr s) ev
                = if String.eqb s "None" then Ok VNone
                  else do t <- Spec.interpolated this s ev; Ok (Spec.typed_text t))
  /\ EvaluateToType (set_members this (<["count" := VInt 3]> (members this)))
       (VStr "{this.count}") true = Ok (VInt 3)
  /\ EvaluateToType this (VStr "true") ev = Ok (VBool true)
  /\ EvaluateToType this (VStr "3.0") ev = Ok (VFloat (float_of_int 3))
  /\ EvaluateToType this (VStr "3") ev = Ok (VInt 3)
  /\ EvaluateToType this (VStr "hello") ev = Ok (VStr "hello").
Proof.
  repeat split; try reflexivity.
  - intros d. apply EvaluateToType_dict.
  - intros l. apply EvaluateToType_list.
  - intros s. apply EvaluateToType_text.
  - rewrite EvaluateToType_text. cbn [String.eqb Ascii.eqb Bool.eqb].
    unfold Spec.interpolated. cbn [andb].
    change (is_expression "{this.count}") with true. cbv iota.
    rewrite interpolate_count. cbn [bind]. rewrite typed_text_three. reflexivity.
  - rewrite EvaluateToType_text. cbn [String.eqb Ascii.eqb Bool.eqb].
    unfold Spec.interpolated. change (is_expression "true") with false.
    rewrite andb_false_r. reflexivity.
  - rewrite EvaluateToType_text. cbn [String.eqb Ascii.eqb Bool.eqb].
    unfold Spec.interpolated. change (is_expression "3.0") with false.
    rewrite andb_false_r. cbn [bind]. rewrite typed_text_three_point_zero. reflexivity.
  - rewrite EvaluateToType_text. cbn [String.eqb Ascii.eqb Bool.eqb].
    unfold Spec.interpolated. change (is_expression "3") with false.
    rewrite andb_false_r. cbn [bind]. rewrite typed_text_three. reflexivity.
  - rewrite EvaluateToType_text. cbn [String.eqb Ascii.eqb Bool.eqb].
    unfold Spec.interpolated. change (is_expression "hello") with false.
    rewrite andb_false_r. cbn [bind]. rewrite typed_text_hello. reflexivity.
Qed.
End Coercion.

(** ** Resolution: cycle safety and termination *)

Section Resolution.
Context {FT : PyFloat} {RT : PyRuntime}.
Local Open Scope nat_scope.
Implicit Types (w : World) (f : Functor) (att : list string).

(** The names carried by the objects of the heap. *)
Definition names w : gset string :=
  list_to_set (name <$> (map_to_list (heap w)).*2).

(** The names a resolution chain has not passed through yet. *)
Definition unvisited w att : gset string := names w ∖ list_to_set att.

Lemma name_in_names w this f : heap w !! this = Some f -> name f ∈ names w.
Proof.
  intros Hf. unfold names. rewrite elem_of_list_to_set.
  apply list_elem_of_fmap_2.
  apply (list_elem_of_fmap_2 snd _ (this, f)).
  apply elem_of_map_to_list. exact Hf.
Qed.

Lemma size_list_to_set_le (l : list string) :
  size (list_to_set l : gset string) <= length l.
Proof.
  induction l as [|x l IH].
  - rewrite list_to_set_nil, size_empty. reflexivity.
  - rewrite list_to_set_cons, length_cons.
    destruct (decide (x ∈ (list_to_set l : gset string))) as [Hin|Hout].
    + replace ({[x]} ∪ list_to_set l) with (list_to_set l : gset string)
        by set_solver. lia.
    + rewrite size_union by set_solver. rewrite size_singleton. lia.
Qed.

Lemma size_names w : size (names w) <= size (heap w).
Proof.
  unfold names. etrans; [apply size_list_to_set_le|].
  rewrite !length_fmap, length_map_to_list. lia.
Qed.

Lemma size_unvisited w att : size (unvisited w att) <= size (heap w).
Proof.
  etrans; [|apply size_names]. apply subseteq_size. unfold unvisited. set_solver.
Qed.

Lemma unvisited_mono w att att' :
  att ⊆ att' -> size (unvisited w att') <= size (unvisited w att).
Proof. intros Hs. apply subseteq_size. unfold unvisited. set_solver. Qed.

Lemma unvisited_append w this f att :
  heap w !! this = Some f -> name f ∉ att ->
  size (unvisited w (att ++ [name f])) < size (unvisited w att).
Proof.
  intros Hf Hn. apply subset_size. unfold unvisited.
  apply name_in_names in Hf. set_solver.
Qed.

(** What the proofs ask of the recursive occurrence of [Fetch]: with
    fewer than [n] names left to visit it answers, and it only adds to
    the list of names passed through. *)
Definition answers w
    (F : nat -> string -> value -> option (list string) -> bool ->
         option (list string) -> outcome (fetched * list string))
    (n : nat) : Prop :=
  forall this var d order start att,
    (size (unvisited w att) < n)%nat ->
    F this var d order start (Some att) <> OutOfFuel
    /\ forall r att', F this var d order start (Some att) = Ok (r, att') -> att ⊆ att'.

Lemma as_pair_answers (m : outcome (fetched * list string)) att :
  m <> OutOfFuel ->
  (forall r att', m = Ok (r, att') -> att ⊆ att') ->
  (do r <- m; as_pair r) <> OutOfFuel
  /\ forall v b att', (do r <- m; as_pair r) = Ok (v, b, att') -> att ⊆ att'.
Proof.
  intros Hne Hsub. destruct m as [[[v|v b] att1]| | |]; cbn; try done.
  split; [done|]. intros v' b' att' [= <- <- <-]. eapply Hsub. reflexivity.
Qed.

Lemma GetAttr_answers f n : GetAttr f n <> OutOfFuel.
Proof. unfold GetAttr. repeat case_match; done. Qed.

Lemma resolver_answers w F n loc res f var d order att :
  answers w F n -> (size (unvisited w att) < n)%nat ->
  fetch_location F w loc = Some res ->
  res f var d order att <> OutOfFuel
  /\ forall v b att', res f var d order att = Ok (v, b, att') -> att ⊆ att'.
Proof.
  intros HF Hsz. unfold fetch_location. intros E.
  repeat case_match; try discriminate E; injection E as <-.
  - unfold fetch_location_this, not_found.
    pose proof (GetAttr_answers f var) as Hg.
    destruct (HasAttr f var); [destruct (GetAttr f var); cbn|]; split; try done;
      intros ??? [= <- <- <-]; done.
  - unfold fetch_location_args, not_found.
    repeat case_match; split; try done; intros ??? [= <- <- <-]; done.
  - unfold fetch_location_globals, not_found.
    repeat case_match; split; try done; intros ??? [= <- <- <-]; done.
  - unfold fetch_location_config, not_found.
    destruct (negb (HasAttr f "config")); [split; [done|intros ??? [= <- <- <-]; done]|].
    pose proof (GetAttr_answers f "config") as Hg.
    destruct (GetAttr f "config") as [c| | |]; cbn; try done.
    repeat case_match; split; try done; intros ??? [= <- <- <-]; done.
  - unfold fetch_location_precursor, not_found.
    destruct (precursor f) as [| | | | | | |p]; try done.
    + split; [done|intros ??? [= <- <- <-]; done].
    + unfold FetchWithAndWithout_in. destruct (heap w !! p); [|done].
      destruct (HF p var d
        (Some (list_of_set (without (fetchFrom f0) ["environment"] ++ ["this"])))
        false att Hsz) as [Hne Hsub].
      apply as_pair_answers; assumption.
  - unfold fetch_location_executor.
    destruct (executor f) as [| | | | | | |e]; try done.
    unfold FetchWithout_in. destruct (heap w !! e); [|done].
    destruct (HF e var d (Some (without (fetchFrom f0) ["environment"]))
                false att Hsz) as [Hne Hsub].
    apply as_pair_answers; assumption.
  - unfold fetch_location_environment, not_found.
    repeat case_match; split; try done; intros ??? [= <- <- <-]; done.
Qed.

Lemma fetch_scan_answers w F n f var d order locs att :
  answers w F n -> (size (unvisited w att) < n)%nat ->
  fetch_scan F w f var d order locs att <> OutOfFuel
  /\ forall hit att', fetch_scan F w f var d order locs att = Ok (hit, att') ->
                      att ⊆ att'.
Proof.
  intros HF. revert att. induction locs as [|loc rest IH]; intros att Hsz; cbn.
  - split; [done|]. intros ?? [= <- <-]. done.
  - case_bool_decide; [|apply IH; exact Hsz].
    destruct (fetch_location F w loc) as [res|] eqn:Hres; [|done].
    destruct (resolver_answers w F n loc res f var d order att HF Hsz Hres)
      as [Hne Hsub].
    destruct (res f var d order att) as [[[v b] att1]| | |]; cbn; try done.
    specialize (Hsub v b att1 eq_refl).
    destruct b.
    + split; [done|]. intros ?? [= <- <-]. exact Hsub.
    + destruct (IH att1) as [Hne' Hsub'].
      { eapply Nat.le_lt_trans; [apply unvisited_mono; exact Hsub|exact Hsz]. }
      split; [exact Hne'|]. intros hit att' E. etrans; [exact Hsub|].
      eapply Hsub'. exact E.
Qed.

Lemma Fetch_answers w n : answers w (Fetch n w) n.
Proof.
  induction n as [|n IH]; intros this var d order start att Hsz; [lia|].
  cbn [Fetch]. unfold Fetch_in. destruct (heap w !! this) as [f|] eqn:Hf; [|done].
  cbn [from_option id]. case_bool_decide as Hin.
  - split; [done|]. intros ?? [= <- <-]. done.
  - pose proof (unvisited_append w this f att Hf Hin) as Hlt.
    destruct (fetch_scan_answers w (Fetch n w) n f var d
                (from_option id (fetchFrom f) order)
                (from_option id (fetchFrom f) order) (att ++ [name f]) IH)
      as [Hne Hsub]; [lia|].
    destruct (fetch_scan _ _ _ _ _ _ _ _) as [[hit att1]| | |]; cbn; try done.
    specialize (Hsub hit att1 eq_refl).
    assert (att ⊆ att1) by (etrans; [|exact Hsub]; set_solver).
    destruct hit as [[? ?]|]; (split; [done|]); intros ?? [= <- <-]; assumption.
Qed.

Lemma Fetch_attempted_None fuel w this var d order start :
  Fetch fuel w this var d order start None
  = Fetch fuel w this var d order start (Some []).
Proof. destruct fuel; reflexivity. Qed.

(** *** More fuel does not change an answer *)

Definition extends
    (F F' : nat -> string -> value -> option (list string) -> bool ->
            option (list string) -> outcome (fetched * list string)) : Prop :=
  forall this var d order start (tried : option (list string)),
    F this var d order start tried <> OutOfFuel ->
    F' this var d order start tried = F this var d order start tried.

Lemma bind_extends {A B} (m m' : outcome A) (k : A -> outcome B) :
  (m <> OutOfFuel -> m' = m) -> bind m k <> OutOfFuel -> bind m' k = bind m k.
Proof.
  intros Hm Hk. rewrite Hm; [reflexivity|]. intros E. rewrite E in Hk. done.
Qed.

Lemma resolver_extends w F F' loc res f var d order att :
  extends F F' -> fetch_location F w loc = Some res ->
  exists res', fetch_location F' w loc = Some res'
    /\ (res f var d order att <> OutOfFuel ->
        res' f var d order att = res f var d order att).
Proof.
  intros HF. unfold fetch_location. intros E.
  repeat case_match; try discriminate E; injection E as <-;
    (eexists; split; [reflexivity|]); try done.
  - unfold fetch_location_precursor. destruct (precursor f); try done.
    unfold FetchWithAndWithout_in. destruct (heap w !! r); [|done].
    apply bind_extends. apply HF.
  - unfold fetch_location_executor. destruct (executor f); try done.
    unfold FetchWithout_in. destruct (heap w !! r); [|done].
    apply bind_extends. apply HF.
Qed.

Lemma fetch_scan_extends w F F' f var d order locs att :
  extends F F' ->
  fetch_scan F w f var d order locs att <> OutOfFuel ->
  fetch_scan F' w f var d order locs att = fetch_scan F w f var d order locs att.
Proof.
  intros HF. revert att. induction locs as [|loc rest IH]; intros att; cbn;
    [reflexivity|].
  case_bool_decide; [|apply IH].
  destruct (fetch_location F w loc) as [res|] eqn:Hres.
  - destruct (resolver_extends w F F' loc res f var d order att HF Hres)
      as (res' & -> & Hsame).
    intros Hne. rewrite Hsame; [|intros E; rewrite E in Hne; done].
    destruct (res f var d order att) as [[[v b] att1]| | |]; cbn; try reflexivity.
    destruct b; [reflexivity|]. apply IH. exact Hne.
  - assert (fetch_location F' w loc = None) as ->; [|reflexivity].
    revert Hres. unfold fetch_location. repeat case_match; done.
Qed.

Lemma Fetch_in_extends w F F' :
  extends F F' -> extends (Fetch_in F w) (Fetch_in F' w).
Proof.
  intros HF this var d order start tried. unfold Fetch_in.
  destruct (heap w !! this) as [f|]; [|reflexivity].
  case_bool_decide; [reflexivity|]. apply bind_extends.
  apply fetch_scan_extends. exact HF.
Qed.

Lemma Fetch_fuel_S w n : extends (Fetch n w) (Fetch (S n) w).
Proof.
  induction n as [|n IH]; [intros ??????; done|].
  change (extends (Fetch_in (Fetch n w) w) (Fetch_in (Fetch (S n) w) w)).
  apply Fetch_in_extends. exact IH.
Qed.

Lemma Fetch_fuel_le w n m : n <= m -> extends (Fetch n w) (Fetch m w).
Proof.
  induction 1 as [|m Hle IH]; [intros ???????; reflexivity|].
  intros this var d order start tried Hne.
  rewrite <- (IH this var d order start tried Hne).
  apply Fetch_fuel_S. rewrite IH; exact Hne.
Qed.

(** *** The cycle guard *)

Lemma Fetch_guard fuel w this f var d order start att :
  heap w !! this = Some f -> name f ∈ att ->
  Fetch (S fuel) w this var d order start (Some att)
  = Ok (fetch_return start d false, att).
Proof.
  intros Hf Hin. cbn [Fetch]. unfold Fetch_in. rewrite Hf. cbn [from_option id].
  rewrite bool_decide_eq_true_2 by exact Hin. reflexivity.
Qed.

Lemma Fetch_total fuel w this var d order start tried :
  size (heap w) < fuel ->
  Fetch fuel w this var d order start tried <> OutOfFuel.
Proof.
  intros Hsz.
  assert (forall att, Fetch fuel w this var d order start (Some att) <> OutOfFuel)
    as Hsome.
  { intros att. apply Fetch_answers.
    eapply Nat.le_lt_trans; [apply size_unvisited|exact Hsz]. }
  destruct tried as [att|]; [apply Hsome|].
  rewrite Fetch_attempted_None. apply Hsome.
Qed.

Lemma Fetch_stable fuel fuel' w this var d order start tried :
  size (heap w) < fuel -> fuel <= fuel' ->
  Fetch fuel' w this var d order start tried
  = Fetch fuel w this var d order start tried.
Proof.
  intros Hsz Hle. apply Fetch_fuel_le; [exact Hle|]. apply Fetch_total. exact Hsz.
Qed.

Lemma Fetch_records_name fuel w this f var d order start att r att' :
  heap w !! this = Some f ->
  Fetch fuel w this var d order start (Some att) = Ok (r, att') ->
  name f ∈ att' /\ att ⊆ att'.
Proof.
  intros Hf E.
  assert (Fetch (S (fuel `max` size (heap w))) w this var d order start (Some att)
          = Ok (r, att')) as E'.
  { rewrite <- E. apply Fetch_fuel_le; [lia|]. rewrite E. done. }
  clear E. assert (size (heap w) <= fuel `max` size (heap w)) as Hm by lia.
  revert E' Hm. generalize (fuel `max` size (heap w)). intros m E Hm.
  assert (att ⊆ att') as Hsub.
  { eapply (Fetch_answers w (S m)); [|exact E].
    pose proof (size_unvisited w att). lia. }
  split; [|exact Hsub].
  destruct (decide (name f ∈ att)) as [Hin|Hout]; [apply Hsub, Hin|].
  cbn [Fetch] in E. unfold Fetch_in in E. rewrite Hf in E.
  cbn [from_option id] in E. rewrite bool_decide_eq_false_2 in E by exact Hout.
  pose proof (unvisited_append w this f att Hf Hout) as Hlt.
  pose proof (size_unvisited w att) as Hle.
  destruct (fetch_scan_answers w (Fetch m w) m f var d
              (from_option id (fetchFrom f) order)
              (from_option id (fetchFrom f) order) (att ++ [name f])
              (Fetch_answers w m)) as [_ Hgrow]; [lia|].
  destruct (fetch_scan _ _ _ _ _ _ _ _) as [[hit att1]| | |]; cbn in E; try done.
  specialize (Hgrow hit att1 eq_refl).
  assert (att' = att1) as -> by (destruct hit as [[??]|]; congruence).
  apply Hgrow. set_solver.
Qed.

(** C1. A [Fetch] on an Operation whose name is already in [visited]
    returns the default (alone on a top call, with found = false on a
    nested one) and consults no scope; any other call hands on a list
    that holds its own name; and with fuel for one call per object of the
    heap, [Fetch] answers on every heap, whatever references by
    predecessor and executor it holds, and more fuel does not change the
    answer. *)
Theorem Fetch_cycle_safe w this f var d order start att :
  heap w !! this = Some f ->
  (name f ∈ att -> forall fuel,
     Fetch (S fuel) w this var d order start (Some att)
     = Ok (if start then Top d else Nested d false, att))
  /\ (forall fuel r att',
        Fetch fuel w this var d order start (Some att) = Ok (r, att') ->
        name f ∈ att' /\ att ⊆ att')
  /\ (forall fuel tried, size (heap w) < fuel ->
        Fetch fuel w this var d order start tried <> OutOfFuel)
  /\ (forall fuel fuel' tried, size (heap w) < fuel -> fuel <= fuel' ->
        Fetch fuel' w this var d order start tried
        = Fetch fuel w this var d order start tried).
Proof.
  intros Hf. split; [|split; [|split]].
  - intros Hin fuel. apply (Fetch_guard fuel w this f); assumption.
  - intros fuel r att' E. eapply Fetch_records_name; eassumption.
  - intros fuel tried. apply Fetch_total.
  - intros fuel fuel' tried. apply Fetch_stable.
Qed.

(** *** Scope order *)

(** The scopes of [locs], consulted in turn from [att], all fail to
    find the name and leave [att']: each is either not registered, or
    its resolver reports found = false. *)
Inductive misses F w f (var : string) (d : value) (order : list string)
  : list string -> list string -> list string -> Prop :=
| misses_nil att : misses F w f var d order [] att att
| misses_skip loc rest att att' :
    loc ∉ fetchLocations f ->
    misses F w f var d order rest att att' ->
    misses F w f var d order (loc :: rest) att att'
| misses_miss loc rest res v att att1 att' :
    loc ∈ fetchLocations f ->
    fetch_location F w loc = Some res ->
    res f var d order att = Ok (v, false, att1) ->
    misses F w f var d order rest att1 att' ->
    misses F w f var d order (loc :: rest) att att'.

Lemma fetch_scan_misses F w f var d order pre rest att att1 :
  misses F w f var d order pre att att1 ->
  fetch_scan F w f var d order (pre ++ rest) att
  = fetch_scan F w f var d order rest att1.
Proof.
  induction 1 as [att|loc pre att att' Hout _ IH
                 |loc pre res v att att1 att' Hin Hres Hrun _ IH]; cbn.
  - reflexivity.
  - rewrite bool_decide_eq_false_2 by exact Hout. exact IH.
  - rewrite bool_decide_eq_true_2 by exact Hin. rewrite Hres, Hrun. cbn. exact IH.
Qed.

Lemma fetch_scan_none_misses F w f var d order locs att att' :
  fetch_scan F w f var d order locs att = Ok (None, att') ->
  misses F w f var d order locs att att'.
Proof.
  revert att. induction locs as [|loc rest IH]; intros att; cbn.
  - intros [= <-]. constructor.
  - case_bool_decide as Hreg.
    + destruct (fetch_location F w loc) as [res|] eqn:Hres; [|done].
      destruct (res f var d order att) as [[[v b] att1]| | |] eqn:Hrun; cbn; try done.
      destruct b; [done|]. intros E. eapply misses_miss; eauto.
    + intros E. apply misses_skip; auto.
Qed.

Lemma fetch_scan_found F w f var d order pre loc post res v att att1 att2 :
  misses F w f var d order pre att att1 ->
  loc ∈ fetchLocations f ->
  fetch_location F w loc = Some res ->
  res f var d order att1 = Ok (v, true, att2) ->
  fetch_scan F w f var d order (pre ++ loc :: post) att = Ok (Some (loc, v), att2).
Proof.
  intros Hpre Hin Hres Hrun. rewrite (fetch_scan_misses _ _ _ _ _ _ _ _ _ _ Hpre).
  cbn. rewrite bool_decide_eq_true_2 by exact Hin. rewrite Hres, Hrun. reflexivity.
Qed.

(** The resolvers of the class do not look at the scope order they are
    handed. *)
Lemma resolver_ignores_order F w loc res f var d order order' att :
  fetch_location F w loc = Some res ->
  res f var d order att = res f var d order' att.
Proof.
  unfold fetch_location. intros E.
  repeat case_match; try discriminate E; injection E as <-; reflexivity.
Qed.

Lemma fetch_scan_ignores_order F w f var d order order' locs att :
  fetch_scan F w f var d order locs att = fetch_scan F w f var d order' locs att.
Proof.
  revert att. induction locs as [|loc rest IH]; intros att; cbn; [reflexivity|].
  case_bool_decide; [|apply IH].
  destruct (fetch_location F w loc) as [res|] eqn:Hres; [|reflexivity].
  rewrite (resolver_ignores_order F w loc res f var d order order' att Hres).
  destruct (res f var d order' att) as [[[v b] att1]| | |]; cbn; try reflexivity.
  destruct b; [reflexivity|apply IH].
Qed.

Lemma fetch_scan_skip F w f var d order pre loc post att :
  loc ∉ fetchLocations f ->
  fetch_scan F w f var d order (pre ++ loc :: post) att
  = fetch_scan F w f var d order (pre ++ post) att.
Proof.
  intros Hunreg. revert att. induction pre as [|p pre IH]; intros att; cbn.
  - rewrite bool_decide_eq_false_2 by exact Hunreg. reflexivity.
  - case_bool_decide; [|apply IH].
    destruct (fetch_location F w p) as [res|]; [|reflexivity].
    destruct (res f var d order att) as [[[v b] att1]| | |]; cbn; try reflexivity.
    destruct b; [reflexivity|apply IH].
Qed.

Lemma Fetch_unfold fuel w this f var d order start att :
  heap w !! this = Some f -> name f ∉ att ->
  Fetch (S fuel) w this var d order start (Some att)
  = do r <- fetch_scan (Fetch fuel w) w f var d
              (from_option id (fetchFrom f) order)
              (from_option id (fetchFrom f) order) (att ++ [name f]);
    match r.1 with
    | Some (_, v) => Ok (fetch_return start v true, r.2)
    | None => Ok (fetch_return start d false, r.2)
    end.
Proof.
  intros Hf Hout. cbn [Fetch]. unfold Fetch_in. rewrite Hf. cbn [from_option id].
  rewrite bool_decide_eq_false_2 by exact Hout.
  destruct (fetch_scan _ _ _ _ _ _ _ _) as [[hit att1]| | |]; reflexivity.
Qed.

(** C2. [Fetch] consults the scopes in the order of [scopeOrder], or of
    [fetchFrom] when none is given, and skips a scope with no registered
    resolver; the first scope that reports found = true gives the value
    returned, whatever scopes come after it; when none does, the default
    is returned, with found = false on a nested call.  In particular a
    name found in the call arguments is returned although the
    environment, later in the order, holds it too. *)
Theorem Fetch_scope_order fuel w this f var d order start att scopes :
  heap w !! this = Some f -> name f ∉ att ->
  scopes = from_option id (fetchFrom f) order ->
  (forall pre loc post res v att1 att2,
      scopes = pre ++ loc :: post ->
      misses (Fetch fuel w) w f var d scopes pre (att ++ [name f]) att1 ->
      loc ∈ fetchLocations f ->
      fetch_location (Fetch fuel w) w loc = Some res ->
      res f var d scopes att1 = Ok (v, true, att2) ->
      Fetch (S fuel) w this var d order start (Some att)
      = Ok (if start then Top v else Nested v true, att2))
  /\ (forall att1,
        misses (Fetch fuel w) w f var d scopes scopes (att ++ [name f]) att1 ->
        Fetch (S fuel) w this var d order start (Some att)
        = Ok (if start then Top d else Nested d false, att1))
  /\ (forall pre loc post,
        scopes = pre ++ loc :: post -> loc ∉ fetchLocations f ->
        Fetch (S fuel) w this var d order start (Some att)
        = Fetch (S fuel) w this var d (Some (pre ++ post)) start (Some att))
  /\ (forall pre mid post kw v e att1,
        scopes = pre ++ "args" :: mid ++ "environment" :: post ->
        misses (Fetch fuel w) w f var d scopes pre (att ++ [name f]) att1 ->
        "args" ∈ fetchLocations f ->
        kwargs f = Some kw -> kw !! var = Some v ->
        environ w !! var = Some e ->
        Fetch (S fuel) w this var d order start (Some att)
        = Ok (if start then Top v else Nested v true, att1)).
Proof.
  intros Hf Hout ->. rewrite (Fetch_unfold fuel w this f) by assumption.
  set (scopes := from_option id (fetchFrom f) order).
  split; [|split; [|split]].
  - intros pre loc post res v att1 att2 Hsplit Hpre Hin Hres Hrun.
    rewrite Hsplit at 2.
    rewrite (fetch_scan_found _ _ _ _ _ _ pre loc post res v _ att1 att2);
      try assumption. reflexivity.
  - intros att1 Hall.
    rewrite <- (app_nil_r scopes) at 2.
    rewrite (fetch_scan_misses _ _ _ _ _ _ _ _ _ _ Hall). reflexivity.
  - intros pre loc post Hsplit Hunreg.
    rewrite (Fetch_unfold fuel w this f) by assumption. cbn [from_option id].
    rewrite Hsplit at 2.
    rewrite (fetch_scan_ignores_order _ _ _ _ _ scopes (pre ++ post)).
    rewrite (fetch_scan_skip _ _ _ _ _ _ pre loc post _ Hunreg). reflexivity.
  - intros pre mid post kw v e att1 Hsplit Hpre Hin Hkw Hv _.
    rewrite Hsplit at 2.
    rewrite (fetch_scan_found _ _ _ _ _ _ pre "args" _ fetch_location_args v
               _ att1 att1); try assumption; [reflexivity..|].
    unfold fetch_location_args. rewrite Hkw, Hv. reflexivity.
Qed.

(** *** Delegation to the predecessor and to the executor *)

Lemma elem_of_without (l dont : list string) s :
  s ∈ without l dont <-> s ∈ l /\ s ∉ dont.
Proof. unfold without. rewrite list_elem_of_filter. tauto. Qed.

(** C5 as amended. Consulting the 'predecessor' scope of an Operation
    with a predecessor attached delegates to the predecessor's
    [FetchWithAndWithout], as a nested call handed the name, the default,
    the scope order of the caller and the same visited list, with "this"
    to add and "environment" to exclude: the predecessor resolves with
    its [Fetch] over a scope order that holds "this", does not hold
    "environment" and repeats no scope.  With no predecessor attached
    the scope reports not found. *)
Theorem precursor_scope_delegates fuel w f var d order att :
  (precursor f = VNone ->
     fetch_location_precursor (Fetch fuel w) w f var d order att = Ok (d, false, att))
  /\ (forall p pf, precursor f = VRef p -> heap w !! p = Some pf ->
        fetch_location_precursor (Fetch fuel w) w f var d order att
        = bind (FetchWithAndWithout fuel w p ["this"] ["environment"] var d
                  (Some order) false (Some att))
            as_pair
        /\ exists scopes,
             FetchWithAndWithout fuel w p ["this"] ["environment"] var d
               (Some order) false (Some att)
             = Fetch fuel w p var d (Some scopes) false (Some att)
             /\ "this" ∈ scopes
             /\ ("environment" ∉ scopes)
             /\ NoDup scopes).
Proof.
  split.
  - intros Hp. unfold fetch_location_precursor. rewrite Hp. reflexivity.
  - intros p pf Hp Hpf. split.
    + unfold fetch_location_precursor. rewrite Hp. reflexivity.
    + exists (list_of_set (without (fetchFrom pf) ["environment"] ++ ["this"])).
      split; [|split; [|split]].
      * unfold FetchWithAndWithout, FetchWithAndWithout_in. rewrite Hpf. reflexivity.
      * rewrite list_of_set_elem, elem_of_app, list_elem_of_singleton. right. reflexivity.
      * rewrite list_of_set_elem, elem_of_app, elem_of_without, !list_elem_of_singleton.
        intros [[_ E]|E]; [apply E; reflexivity|discriminate E].
      * apply list_of_set_NoDup.
Qed.

(** [FetchWithout] and [FetchWithAndWithout] resolve over the
    Operation's own [fetchFrom], whatever current scope order they are
    given. *)
Lemma FetchWithout_ignores_current fuel w this dont var d cur cur' start tried :
  FetchWithout fuel w this dont var d cur start tried
  = FetchWithout fuel w this dont var d cur' start tried.
Proof. reflexivity. Qed.

Lemma FetchWithAndWithout_ignores_current fuel w this more dont var d cur cur' start tried :
  FetchWithAndWithout fuel w this more dont var d cur start tried
  = FetchWithAndWithout fuel w this more dont var d cur' start tried.
Proof. reflexivity. Qed.

(** [FetchWith] resolves over the current scope order and the added
    scopes, each once. *)
Lemma FetchWith_scopes fuel w this f more var d cur start tried :
  heap w !! this = Some f ->
  exists scopes,
    FetchWith fuel w this more var d cur start tried
    = Fetch fuel w this var d (Some scopes) start tried
    /\ NoDup scopes
    /\ forall s, s ∈ scopes <-> s ∈ from_option id (fetchFrom f) cur \/ s ∈ more.
Proof.
  intros Hf. eexists. split; [|split].
  - unfold FetchWith, FetchWith_in. rewrite Hf. reflexivity.
  - apply list_of_set_NoDup.
  - intros s. rewrite list_of_set_elem, elem_of_app. reflexivity.
Qed.

Lemma fetch_scan_unregistered F w f var d order locs att :
  (forall s, s ∈ locs -> s ∉ fetchLocations f) ->
  fetch_scan F w f var d order locs att = Ok (None, att).
Proof.
  induction locs as [|loc rest IH]; intros Hun; cbn; [reflexivity|].
  rewrite bool_decide_eq_false_2 by (apply Hun; left).
  apply IH. intros s Hs. apply Hun. right. exact Hs.
Qed.
End Resolution.

(** ** The lifecycle: static arguments, links, result codes *)

Section LifecycleFacts.
Context {FT : PyFloat} {RT : PyRuntime}.
Implicit Types (w : World) (f : Functor).

Lemma self_run w this f : heap w !! this = Some f -> self this w = Returns f w.
Proof. intros Hf. unfold self. rewrite Hf. reflexivity. Qed.

Lemma update_run w this f g :
  heap w !! this = Some f ->
  update this g w = Returns tt (set_heap w (<[this := g f]> (heap w))).
Proof. intros Hf. unfold update, bindM. rewrite (self_run w this f Hf). reflexivity. Qed.

Lemma lookup_set_heap w this f :
  heap (set_heap w (<[this := f]> (heap w))) !! this = Some f.
Proof. cbn. apply lookup_insert_eq. Qed.

(** Static arguments that are already attributes are passed over. *)
Lemma static_loop_skips w this f (done : list string) (body : string -> M World unit) :
  heap w !! this = Some f ->
  Forall (fun x => HasAttr f x = true) done ->
  (forall x, HasAttr f x = true -> body x w = Returns tt w) ->
  for_each done body w = Returns tt w.
Proof.
  intros Hf Hall Hbody. induction Hall as [|x done Hx _ IH]; [reflexivity|].
  cbn [for_each]. unfold bindM. rewrite (Hbody x Hx). exact IH.
Qed.

Lemma for_each_app {S A} (l1 l2 : list A) (body : A -> M S unit) s :
  for_each (l1 ++ l2) body s
  = (for_each l1 body ;;; for_each l2 body) s.
Proof.
  revert s. induction l1 as [|x l1 IH]; intros s; cbn [for_each app].
  - reflexivity.
  - unfold bindM in *. destruct (body x s); try reflexivity. apply IH.
Qed.

(** C4. Once [staticArgsValid] is set, [ValidateStaticArgs] returns at
    once: it makes no [Fetch] and changes nothing, whatever call
    arguments the invocation brought.  A run of it that returns normally
    has resolved every static argument and sets the flag, so all later
    runs are of that kind.  A static argument that is not an attribute
    yet and that [Fetch] resolves to null raises [MissingArgumentError]. *)
Theorem static_args_resolved_once fuel w this f :
  heap w !! this = Some f ->
  (staticArgsValid f = true ->
     ValidateStaticArgs fuel this w = Returns tt w
     /\ forall a kw,
          (update this (fun f => set_call_args f a kw) ;;;
           ValidateStaticArgs fuel this) w
          = Returns tt (set_heap w (<[this := set_call_args f a kw]> (heap w)))
          /\ members (set_call_args f a kw) = members f)
  /\ (forall w',
        ValidateStaticArgs fuel this w = Returns tt w' ->
        exists f', heap w' !! this = Some f' /\ staticArgsValid f' = true
                   /\ forall fuel', ValidateStaticArgs fuel' this w' = Returns tt w')
  /\ (forall done skw rest att,
        staticArgsValid f = false ->
        staticKWArgs f = done ++ skw :: rest ->
        Forall (fun x => HasAttr f x = true) done ->
        HasAttr f skw = false ->
        Fetch fuel w this skw VNone None true None = Ok (Top VNone, att) ->
        ValidateStaticArgs fuel this w
        = Raises (MissingArgumentError
                    ("Static key-word argument " +:+ skw +:+ " could not be Fetched."))
            w).
Proof.
  intros Hf.
  assert (forall fuel0 w0 f0, heap w0 !! this = Some f0 -> staticArgsValid f0 = true ->
            ValidateStaticArgs fuel0 this w0 = Returns tt w0) as Hnop.
  { intros fuel0 w0 f0 Hf0 Hv. unfold ValidateStaticArgs, bindM.
    rewrite (self_run w0 this f0 Hf0), Hv. reflexivity. }
  split; [|split].
  - intros Hv. split; [exact (Hnop fuel w f Hf Hv)|].
    intros a kw. split; [|reflexivity].
    unfold bindM at 1. rewrite (update_run w this f _ Hf).
    eapply Hnop; [apply lookup_set_heap|exact Hv].
  - intros w'. unfold ValidateStaticArgs, bindM at 1.
    rewrite (self_run w this f Hf).
    destruct (staticArgsValid f) eqn:Hv.
    + intros [= <-]. exists f. split; [exact Hf|]. split; [exact Hv|].
      intros fuel'. exact (Hnop fuel' w f Hf Hv).
    + unfold bindM at 1. destruct (for_each _ _ w) as [[] w1| | |]; try done.
      unfold update, bindM. unfold self. destruct (heap w1 !! this) as [f1|] eqn:Hf1;
        [|done].
      cbn. intros [= <-]. eexists. split; [apply lookup_insert_eq|].
      split; [reflexivity|]. intros fuel'.
      eapply Hnop; [apply lookup_insert_eq|reflexivity].
  - intros done skw rest att Hv Hsplit Hdone Hskw Hfetch.
    unfold ValidateStaticArgs, bindM at 1. rewrite (self_run w this f Hf), Hv, Hsplit.
    unfold bindM at 1. rewrite for_each_app. unfold bindM at 1.
    rewrite (static_loop_skips w this f done _ Hf Hdone).
    + cbn [for_each]. unfold bindM at 1 2. rewrite (self_run w this f Hf), Hskw.
      unfold bindM at 1. unfold pure. rewrite Hfetch. cbn. reflexivity.
    + intros x Hx. unfold bindM. rewrite (self_run w this f Hf), Hx. reflexivity.
Qed.

(** C10. With no executor attached — [PopulatePrecursor] leaves
    [executor] at [None] when the call arguments bring none — a [Fetch]
    that reaches the 'executor' scope, no earlier scope having found the
    name, raises: the resolver calls [FetchWithout] on [None].  It does
    not skip the scope or return the default, whereas the 'predecessor'
    scope reports not found when the predecessor is [None]. *)
Theorem executor_scope_unset fuel w this f var d order start att scopes pre post att1 :
  heap w !! this = Some f -> name f ∉ att ->
  scopes = from_option id (fetchFrom f) order ->
  executor f = VNone -> "executor" ∈ fetchLocations f ->
  scopes = pre ++ "executor" :: post ->
  misses (Fetch fuel w) w f var d scopes pre (att ++ [name f]) att1 ->
  Fetch (S fuel) w this var d order start (Some att)
  = Raise (AttributeError "FetchWithout")
  /\ (precursor f = VNone ->
        fetch_location_precursor (Fetch fuel w) w f var d scopes att1
        = Ok (d, false, att1))
  /\ (forall kw, kwargs f = Some kw -> kw !! "executor" = None ->
        match PopulatePrecursor this w with
        | Returns _ w' | Raises _ w' =>
            exists f', heap w' !! this = Some f' /\ executor f' = VNone
        | NoFuel => False
        | NotModelled => exists r, kw !! "precursor" = Some (VRef r)
        end).
Proof.
  intros Hf Hout -> He Hreg Hsplit Hpre. split; [|split].
  - rewrite (Fetch_unfold fuel w this f) by assumption.
    rewrite Hsplit at 2. rewrite (fetch_scan_misses _ _ _ _ _ _ _ _ _ _ Hpre).
    cbn. rewrite bool_decide_eq_true_2 by exact Hreg.
    unfold fetch_location_executor. rewrite He. reflexivity.
  - intros Hp. unfold fetch_location_precursor. rewrite Hp. reflexivity.
  - intros kw Hkw Hnone. unfold PopulatePrecursor, bindM at 1.
    rewrite (self_run w this f Hf). unfold bindM at 1, pure. rewrite Hkw.
    rewrite He. cbn [is_none]. rewrite Hnone.
    destruct (kw !! "precursor") as [p|] eqn:Hp.
    + unfold bindM. rewrite (update_run w this f _ Hf).
      assert (exists f', heap (set_heap w (<[this := set_links f p VNone
                                              (Some (delete "precursor" kw))]> (heap w)))
                           !! this = Some f' /\ executor f' = VNone) as Hex.
      { eexists. split; [apply lookup_set_heap|reflexivity]. }
      destruct p; try exact Hex.
      destruct (heap _ !! r); [exact Hex|]. exists r. reflexivity.
    + rewrite (update_run w this f _ Hf). eexists.
      split; [apply lookup_set_heap|reflexivity].
Qed.

(** *** Result codes and chaining *)














Lemma bind_in_world {A B} (m : M World A) (k : A -> M Process B) w tr ev a w' :
  m w = Returns a w' ->
  bindM (in_world m) k (mkProcess w tr ev) = k a (mkProcess w' tr ev).
Proof.
  intros E. unfold bindM, in_world, zoom. cbn [world tracker trace].
  rewrite E. reflexivity.
Qed.

Lemma bind_emit {B} e (k : unit -> M Process B) w tr ev :
  bindM (emit e) k (mkProcess w tr ev) = k tt (mkProcess w tr (ev ++ [e])).
Proof. reflexivity. Qed.





(** Whatever the hooks do: an invocation that returns does not leave
    [raiseExceptions] set together with a [result] above 1. *)
Lemma call_returns_low_code fuel H this a kw p r p' f :
  __call__ fuel H this a kw p = Returns r p' ->
  heap (world p') !! this = Some f ->
  raiseExceptions f = true -> result f <= 1.
Proof.
  unfold __call__, bindM at 1, Push, modify.
  destruct (call_frame fuel H this a kw _) as [v fr| | |] eqn:E; try discriminate.
  intros [= <- <-]. revert E. unfold call_frame, bindM at 1.
  destruct (try_except _ _ _) as [[] fr1| | |]; try discriminate.
  unfold bindM at 1, in_proc, in_world, zoom, self.
  destruct (heap (world (proc fr1)) !! this) as [g|] eqn:Hg; [|discriminate].
  destruct (raiseExceptions g && (1 <? result g))%bool eqn:Hflag; [discriminate|].
  unfold bindM, Pop, modify, ret. cbn [proc world tracker trace ret_ nextRet].
  intros [= _ <-]. cbn [proc world]. destruct fr1 as [[w1 tr1 ev1] rv nv].
  cbn [proc world] in *. rewrite Hg. intros [= <-] Hre.
  rewrite Hre in Hflag. cbn [andb] in Hflag. apply Z.ltb_ge in Hflag. exact Hflag.
Qed.
End LifecycleFacts.

(** ** Deduplication of the declared arguments *)

Section Dedup.
Local Open Scope nat_scope.

Lemma length_list_remove_le x l : length (list_remove x l) <= length l.
Proof.
  induction l as [|y l IH]; cbn; [lia|]. case_bool_decide; cbn; lia.
Qed.

(** The loop visits at most one element per position of the list it was
    started on, so that many steps are enough. *)
Lemma remove_optional_total fuel optional i required :
  length required <= i + fuel ->
  remove_optional fuel optional i required <> OutOfFuel.
Proof.
  revert i required. induction fuel as [|fuel IH]; intros i required Hlen.
  - cbn. destruct (required !! i) eqn:E; [|done].
    apply lookup_lt_Some in E. lia.
  - cbn. destruct (required !! i); [|done].
    case_bool_decide; apply IH; [|lia].
    pose proof (length_list_remove_le s required). lia.
Qed.

Lemma fromkeys_NoDup l : NoDup (fromkeys l).
Proof. apply RefRuntime.fromkeys_from_NoDup. Qed.

Lemma fromkeys_elem l x : x ∈ fromkeys l <-> x ∈ l.
Proof.
  unfold fromkeys. rewrite RefRuntime.fromkeys_from_elem. split; [tauto|].
  intros Hx. split; [exact Hx|]. intros Hn. inversion Hn.
Qed.

(** First-seen order: a list without repetitions is left as it is. *)
Lemma fromkeys_from_id seen l :
  NoDup l -> (forall x, x ∈ l -> x ∉ seen) -> fromkeys_from seen l = l.
Proof.
  intros Hnd. revert seen. induction Hnd as [|x l Hx _ IH]; intros seen Hs;
    [reflexivity|]. cbn.
  rewrite bool_decide_eq_false_2 by (apply Hs; left). f_equal. apply IH.
  intros y Hy [->|Hin]%elem_of_cons; [contradiction|].
  apply (Hs y); [right; exact Hy|exact Hin].
Qed.

Lemma fromkeys_idempotent l : fromkeys (fromkeys l) = fromkeys l.
Proof.
  apply fromkeys_from_id; [apply fromkeys_NoDup|]. intros x _ Hn. inversion Hn.
Qed.

(** What the loop leaves of the names still to visit: a name that is not
    optional stays; an optional one goes, and the name after it, which
    slides into its position, is passed over and stays. *)
Fixpoint passes_over (optional l : list string) : list string :=
  match l with
  | [] => []
  | x :: r =>
      if bool_decide (x ∈ optional) then
        match r with
        | [] => []
        | y :: r' => y :: passes_over optional r'
        end
      else x :: passes_over optional r
  end.

Lemma list_remove_middle (done : list string) x r :
  x ∉ done -> list_remove x (done ++ x :: r) = done ++ r.
Proof.
  intros Hx. induction done as [|z done IH]; cbn.
  - rewrite bool_decide_eq_true_2 by reflexivity. reflexivity.
  - rewrite bool_decide_eq_false_2.
    + f_equal. apply IH. intros Hin. apply Hx. right. exact Hin.
    + intros ->. apply Hx. left.
Qed.

Lemma remove_optional_run fuel optional (done todo : list string) :
  NoDup (done ++ todo) -> length todo <= fuel ->
  remove_optional fuel optional (length done) (done ++ todo)
  = Ok (done ++ passes_over optional todo).
Proof.
  revert done todo. induction fuel as [|fuel IH]; intros done todo Hnd Hlen.
  - destruct todo; [|cbn in Hlen; lia]. cbn. rewrite !app_nil_r.
    rewrite lookup_ge_None_2 by lia. reflexivity.
  - destruct todo as [|x r].
    + cbn. rewrite !app_nil_r. rewrite lookup_ge_None_2 by lia. reflexivity.
    + cbn [remove_optional passes_over].
      rewrite list_lookup_middle by reflexivity.
      case_bool_decide as Hopt.
      * rewrite list_remove_middle
          by (apply NoDup_app in Hnd as (_ & Hd & _); intros Hin;
              apply (Hd x Hin); left).
        assert (NoDup (done ++ r)) as Hnd'.
        { apply NoDup_app in Hnd as (H1 & H2 & H3). apply NoDup_app.
          split; [exact H1|]. split.
          - intros y Hy Hr. apply (H2 y Hy). right. exact Hr.
          - apply NoDup_cons in H3 as [_ H3]. exact H3. }
        destruct r as [|y r'].
        { rewrite app_nil_r. destruct fuel; cbn; rewrite lookup_ge_None_2 by lia;
            reflexivity. }
        replace (done ++ y :: r') with ((done ++ [y]) ++ r')
          by (rewrite <- app_assoc; reflexivity).
        replace (S (length done)) with (length (done ++ [y]))
          by (rewrite length_app; cbn; lia).
        rewrite IH.
        -- rewrite <- app_assoc. reflexivity.
        -- rewrite <- app_assoc. exact Hnd'.
        -- cbn in Hlen. lia.
      * replace (done ++ x :: r) with ((done ++ [x]) ++ r)
          by (rewrite <- app_assoc; reflexivity).
        replace (S (length done)) with (length (done ++ [x]))
          by (rewrite length_app; cbn; lia).
        rewrite IH.
        -- rewrite <- app_assoc. reflexivity.
        -- rewrite <- app_assoc. exact Hnd.
        -- cbn in Hlen. lia.
Qed.

(** The required names [RemoveDuplicateArgs] leaves. *)
Lemma remove_optional_fromkeys optional required :
  remove_optional (length (fromkeys required)) optional 0 (fromkeys required)
  = Ok (passes_over optional (fromkeys required)).
Proof.
  apply (remove_optional_run _ optional [] (fromkeys required));
    [apply fromkeys_NoDup|reflexivity].
Qed.
End Dedup.

(** * Runs on concrete inputs *)

Module Runs.
Import RefRuntime.

Definition default_scopes : list string :=
  ["this"; "args"; "globals"; "config"; "precursor"; "executor"; "environment"].

(** An Operation of a subclass that sets these attributes in its
    [__init__]. *)
Definition custom (n : string) (scopes required static : list string)
    (optional : list (string * value)) (succeeded undone : bool) : Functor :=
  {| name := n;
     callMethod := "Function";
     rollbackMethod := "Rollback";
     initialized := false;
     requiredKWArgs := required;
     staticKWArgs := static;
     staticArgsValid := false;
     optionalKWArgs := optional;
     argMapping := [];
     fetchFrom := scopes;
     fetchLocations := [];
     requiredMethods := [];
     requiredPrograms := [];
     configNameOverrides := [];
     enableRollback := true;
     result := 0;
     raiseExceptions := true;
     functionSucceeded := succeeded;
     rollbackSucceeded := undone;
     precursor := VNone;
     executor := VNone;
     next := VList [];
     args := None;
     kwargs := None;
     members := ∅ |}.

(** An object on which [Initialize] has registered the resolvers and
    [WarmUp] has stored the call arguments [kw]. *)
Definition ready (f : Functor) (kw : gmap string value) : Functor :=
  set_initialized
    (set_call_args
       (set_fetchLocations f (populate_locations (fetchFrom f) [])) [] kw)
    true.

Definition world_of {A} (r : run World A) (w : World) : World :=
  match r with Returns _ w' | Raises _ w' => w' | _ => w end.

Definition object_of (w : World) (this : nat) (f : Functor) : Functor :=
  from_option id f (heap w !! this).

Ltac decide_elem := apply (bool_decide_unpack _); vm_compute; exact I.

(** ** A cycle of predecessors *)

Definition cyc_A : Functor :=
  set_links (ready (custom "A" ["this"; "args"; "precursor"; "environment"] [] [] []
                      false false) ∅)
    (VRef 1) VNone (Some ∅).

Definition cyc_B : Functor :=
  set_links (ready (custom "B" ["this"; "args"; "precursor"; "environment"] [] [] []
                      false false) ∅)
    (VRef 0) VNone (Some ∅).

Definition cyc : World := mkWorld {[ 0%nat := cyc_A; 1%nat := cyc_B ]} ∅ ∅ ∅.

Example Fetch_through_cycle :
  Fetch 3 cyc 0 "x" (VStr "fallback") None true None
  = Ok (Top (VStr "fallback"), ["A"; "B"]).
Proof. vm_compute. reflexivity. Qed.

Lemma Fetch_cycle_safe_witness :
  heap cyc !! 0%nat = Some cyc_A
  /\ Fetch 1 cyc 0 "x" (VStr "fallback") None false (Some ["B"; "A"])
     = Ok (Nested (VStr "fallback") false, ["B"; "A"])
  /\ Fetch 3 cyc 0 "x" (VStr "fallback") None false (Some ["B"; "A"]) <> OutOfFuel.
Proof.
  assert (heap cyc !! 0%nat = Some cyc_A) as Hf by reflexivity.
  destruct (Fetch_cycle_safe cyc 0 cyc_A "x" (VStr "fallback") None false ["B"; "A"] Hf)
    as (Hguard & _ & Htotal & _).
  split; [exact Hf|]. split.
  - apply Hguard. decide_elem.
  - apply Htotal. vm_compute. lia.
Defined.


(** ** Call arguments before the environment *)

Definition op_args : Functor :=
  ready (new_Functor "op") {[ "x" := VInt 1 ]}.

Definition w_args : World :=
  mkWorld {[ 0%nat := op_args ]} {[ "x" := "e" ]} ∅ ∅.

Lemma Fetch_scope_order_witness :
  heap w_args !! 0%nat = Some op_args
  /\ fetch_location_environment w_args op_args "x" VNone default_scopes ["op"]
     = Ok (VStr "e", true, ["op"])
  /\ Fetch 1 w_args 0 "x" VNone None true (Some []) = Ok (Top (VInt 1), ["op"]).
Proof.
  assert (heap w_args !! 0%nat = Some op_args) as Hf by reflexivity.
  split; [exact Hf|]. split; [reflexivity|].
  destruct (Fetch_scope_order 0 w_args 0 op_args "x" VNone None true [] default_scopes
              Hf (not_elem_of_nil _) eq_refl) as (_ & _ & _ & Hargs).
  apply (Hargs ["this"] ["globals"; "config"; "precursor"; "executor"] []
           {[ "x" := VInt 1 ]} (VInt 1) "e" ["op"]).
  - reflexivity.
  - eapply misses_miss; [decide_elem|reflexivity|reflexivity|apply misses_nil].
  - decide_elem.
  - reflexivity.
  - reflexivity.
  - reflexivity.
Defined.

(** ** No executor attached *)

Definition op_bare : Functor := ready (new_Functor "op") ∅.

Definition w_bare : World := mkWorld {[ 0%nat := op_bare ]} ∅ ∅ ∅.

Lemma executor_scope_unset_witness :
  heap w_bare !! 0%nat = Some op_bare
  /\ executor op_bare = VNone
  /\ Fetch 1 w_bare 0 "x" (VStr "fallback") None true (Some [])
     = Raise (AttributeError "FetchWithout")
  /\ fetch_location_precursor (Fetch 0 w_bare) w_bare op_bare "x" (VStr "fallback")
       default_scopes ["op"]
     = Ok (VStr "fallback", false, ["op"]).
Proof.
  assert (heap w_bare !! 0%nat = Some op_bare) as Hf by reflexivity.
  split; [exact Hf|]. split; [reflexivity|].
  assert (misses (Fetch 0 w_bare) w_bare op_bare "x" (VStr "fallback") default_scopes
            ["this"; "args"; "globals"; "config"; "precursor"] ([] ++ [name op_bare])
            ["op"]) as Hpre.
  { repeat (eapply misses_miss; [decide_elem|reflexivity|reflexivity|]).
    apply misses_nil. }
  destruct (executor_scope_unset 0 w_bare 0 op_bare "x" (VStr "fallback") None true []
              default_scopes ["this"; "args"; "globals"; "config"; "precursor"]
              ["environment"] ["op"] Hf (not_elem_of_nil _) eq_refl eq_refl
              ltac:(decide_elem) eq_refl Hpre) as (Hraise & Hprec & _).
  split; [exact Hraise|]. apply Hprec. reflexivity.
Defined.

(** ** The predecessor's own attributes *)

Definition pre_A : Functor :=
  set_links (ready (new_Functor "A") ∅) (VRef 1) VNone (Some ∅).

Definition pre_B : Functor :=
  set_members (ready (custom "B" ["this"] [] [] [] false false) ∅) {[ "x" := VInt 5 ]}.

Definition w_pre : World := mkWorld {[ 0%nat := pre_A; 1%nat := pre_B ]} ∅ ∅ ∅.

Example Fetch_from_predecessor_attribute :
  Fetch 2 w_pre 0 "x" VNone None true None = Ok (Top (VInt 5), ["A"; "B"]).
Proof. vm_compute. reflexivity. Qed.

(** C5 as stated fails: no scope order without "this" makes the
    predecessor answer as the 'predecessor' scope does here, where the
    name is an attribute of the predecessor and of nothing else. *)
Lemma precursor_scope_includes_self :
  ~ exists scopes,
      ("this" ∉ scopes) /\ ("environment" ∉ scopes)
      /\ fetch_location_precursor (Fetch 1 w_pre) w_pre pre_A "x" VNone
           (fetchFrom pre_A) ["A"]
         = bind (Fetch 1 w_pre 1 "x" VNone (Some scopes) false (Some ["A"])) as_pair.
Proof.
  intros (scopes & Hthis & _ & E).
  assert (fetch_location_precursor (Fetch 1 w_pre) w_pre pre_A "x" VNone
            (fetchFrom pre_A) ["A"] = Ok (VInt 5, true, ["A"; "B"])) as Hcode
    by (vm_compute; reflexivity).
  rewrite Hcode in E.
  rewrite (Fetch_unfold 0 w_pre 1 pre_B) in E; [|reflexivity|].
  - cbn [from_option id] in E.
    rewrite fetch_scan_unregistered in E; [discriminate E|].
    intros s Hs Hreg. apply Hthis.
    replace (fetchLocations pre_B) with ["this"] in Hreg by reflexivity.
    apply list_elem_of_singleton in Hreg. subst s. exact Hs.
  - intros Hin. apply (bool_decide_pack _) in Hin. vm_compute in Hin. exact Hin.
Qed.

Lemma precursor_scope_delegates_witness :
  precursor pre_A = VRef 1 /\ heap w_pre !! 1%nat = Some pre_B
  /\ fetch_location_precursor (Fetch 1 w_pre) w_pre pre_A "x" VNone default_scopes ["A"]
     = bind (FetchWithAndWithout 1 w_pre 1 ["this"] ["environment"] "x" VNone
               (Some default_scopes) false (Some ["A"]))
         as_pair
  /\ FetchWithAndWithout 1 w_pre 1 ["this"] ["environment"] "x" VNone
       (Some default_scopes) false (Some ["A"])
     = Ok (Nested (VInt 5) true, ["A"; "B"]).
Proof.
  split; [reflexivity|]. split; [reflexivity|].
  destruct (precursor_scope_delegates 1 w_pre pre_A "x" VNone default_scopes ["A"])
    as [_ Hdel].
  destruct (Hdel 1%nat pre_B eq_refl eq_refl) as [E _].
  split; [exact E|vm_compute; reflexivity].
Defined.

(** ** A current scope order handed to [FetchWithout] *)

Definition w_globals : World :=
  mkWorld {[ 0%nat := op_bare ]} ∅ {[ "__debug__" := VBool true ]} ∅.

(** C9 fails on the code: asked to resolve within the current scope order
    ['args'] less 'this', [FetchWithout] reads the Operation's [fetchFrom]
    instead and returns what the 'globals' scope holds, where the core
    algorithm over the order asked for returns the default. *)
Theorem FetchWithout_reads_fetchFrom :
  FetchWithout 1 w_globals 0 ["this"] "__debug__" VNone (Some ["args"]) true None
  = Ok (Top (VBool true), ["op"])
  /\ Fetch 1 w_globals 0 "__debug__" VNone (Some (without ["args"] ["this"])) true None
     = Ok (Top VNone, ["op"])
  /\ FetchWithAndWithout 1 w_globals 0 [] ["this"] "__debug__" VNone (Some ["args"])
       true None
     = Ok (Top (VBool true), ["op"]).
Proof. vm_compute. repeat split. Qed.

(** ** Names both required and optional *)

Definition op_both : Functor :=
  custom "op" default_scopes ["a"; "b"] [] [("a", VInt 1); ("b", VInt 2)] false false.

Definition w_both : World := mkWorld {[ 0%nat := op_both ]} ∅ ∅ ∅.

(** C6 fails on the code: with "a" and "b" both required and optional,
    initialization removes "a" from the required names and passes over
    "b", which slid into the position the loop had just left; "b" stays
    declared both ways. *)
Theorem RemoveDuplicateArgs_passes_over :
  exists w' f',
    Initialize 0 w_both = Returns tt w'
    /\ heap w' !! 0%nat = Some f'
    /\ initialized f' = true
    /\ requiredKWArgs f' = ["b"]
    /\ "b" ∈ requiredKWArgs f'
    /\ "b" ∈ map fst (optionalKWArgs f').
Proof.
  eexists _, _. split; [vm_compute; reflexivity|].
  split; [vm_compute; reflexivity|].
  split; [reflexivity|]. split; [reflexivity|]. split; decide_elem.
Qed.

(** ** The stack of in-flight Operations *)

Definition w_fail : World := mkWorld {[ 0%nat := new_Functor "op" ]} ∅ ∅ ∅.

Definition p_fail : Process := mkProcess w_fail [] [].

(** C8 fails on the code: an invocation that ends in [FunctorError]
    (here the primary capability and the rollback both fail, result 2,
    with [raiseExceptions] set) leaves through the [raise] before
    [FunctorTracker.Pop] is reached; the stack is one deeper than before
    the invocation. *)
Theorem call_raise_skips_Pop :
  exists p',
    __call__ 2 base_hooks 0 [] ∅ p_fail
    = Raises (FunctorError "op failed with result 2") p'
    /\ tracker p_fail = []
    /\ tracker p' = [0%nat]
    /\ trace p' = [EvBefore; EvCall; EvUndo; EvAfter].
Proof. eexists. vm_compute. repeat split. Qed.

(** The same skip when setup raises: a required argument that no scope
    holds ends the invocation in the resolver's error, the stack one
    deeper. *)
Example call_setup_raise_skips_Pop :
  exists e p',
    __call__ 2 base_hooks 0 [] ∅
      (mkProcess (mkWorld {[ 0%nat := custom "op" ["args"; "config"] ["a"] [] []
                                          true true ]} ∅ ∅ ∅) [] [])
    = Raises e p'
    /\ tracker p' = [0%nat].
Proof. eexists _, _. vm_compute. repeat split. Qed.

(** ** Rollback and chaining *)

Definition op_roll : Functor := custom "op" default_scopes [] [] [] false true.

Definition the_executor : Functor :=
  ready (custom "executor" ["this"; "args"; "config"] [] [] [] false false) ∅.

Definition w_roll : World :=
  mkWorld {[ 0%nat := op_roll; 1%nat := the_executor ]} ∅ ∅ ∅.

Definition kw_roll : gmap string value :=
  {[ "executor" := VRef 1; "next" := VList [VStr "B"] ]}.

Definition p_roll : Process := mkProcess w_roll [] [].



Example rollback_then_chain :
  exists r p',
    __call__ 2 base_hooks 0 [] kw_roll p_roll = Returns r p'
    /\ tracker p' = []
    /\ trace p' = [EvBefore; EvCall; EvUndo; EvValidateNext (VStr "B");
                   EvExecute (VStr "B") (VList []); EvAfter]
    /\ result (object_of (world p') 0 op_roll) = 1.
Proof. eexists _, _. vm_compute. repeat split. Qed.


(** ** A successor queued and nobody to run it *)





(** ** A static argument over two invocations *)

Definition op_static : Functor :=
  ready (custom "op" default_scopes [] ["region"] [] true true)
    {[ "region" := VStr "eu" ]}.

Definition w_static : World := mkWorld {[ 0%nat := op_static ]} ∅ ∅ ∅.

Definition w_cached : World := world_of (ValidateStaticArgs 1 0 w_static) w_static.

Definition op_cached : Functor := object_of w_cached 0 op_static.

Definition kw_us : gmap string value := {[ "region" := VStr "us" ]}.

Lemma static_args_resolved_once_witness :
  ValidateStaticArgs 1 0 w_static = Returns tt w_cached
  /\ heap w_cached !! 0%nat = Some op_cached
  /\ staticArgsValid op_cached = true
  /\ members op_cached !! "region" = Some (VStr "eu")
  /\ (update 0 (fun f => set_call_args f [] kw_us) ;;; ValidateStaticArgs 1 0) w_cached
     = Returns tt (set_heap w_cached
                     (<[0%nat := set_call_args op_cached [] kw_us]> (heap w_cached)))
  /\ members (set_call_args op_cached [] kw_us) !! "region" = Some (VStr "eu").
Proof.
  assert (heap w_cached !! 0%nat = Some op_cached) as Hf by (vm_compute; reflexivity).
  split; [vm_compute; reflexivity|]. split; [exact Hf|].
  split; [vm_compute; reflexivity|]. split; [vm_compute; reflexivity|].
  destruct (static_args_resolved_once 1 w_cached 0 op_cached Hf) as (Hvalid & _ & _).
  destruct Hvalid as [_ Hlater]; [vm_compute; reflexivity|].
  destruct (Hlater [] kw_us) as [Hrun Hsame].
  split; [exact Hrun|]. rewrite Hsame. vm_compute. reflexivity.
Defined.

Definition process_of {A} (r : run Process A) (p : Process) : Process :=
  match r with Returns _ p' | Raises _ p' => p' | _ => p end.

Definition p_fresh : Process :=
  mkProcess (mkWorld {[ 0%nat := custom "op" default_scopes [] ["region"] []
                                    true true ]} ∅ ∅ ∅) [] [].

Definition p_once : Process :=
  process_of (__call__ 2 base_hooks 0 [] {[ "region" := VStr "eu" ]} p_fresh) p_fresh.

Definition p_twice : Process :=
  process_of (__call__ 2 base_hooks 0 [] kw_us p_once) p_once.

(** Two whole invocations, the second with another value for the static
    argument among its call arguments: the attribute keeps the first. *)
Example static_value_kept_across_calls :
  __call__ 2 base_hooks 0 [] {[ "region" := VStr "eu" ]} p_fresh = Returns VNone p_once
  /\ members (object_of (world p_once) 0 op_static) !! "region" = Some (VStr "eu")
  /\ __call__ 2 base_hooks 0 [] kw_us p_once = Returns VNone p_twice
  /\ kwargs (object_of (world p_twice) 0 op_static) = Some kw_us
  /\ members (object_of (world p_twice) 0 op_static) !! "region" = Some (VStr "eu").
Proof.
  split; [vm_compute; reflexivity|]. split; [vm_compute; reflexivity|].
  split; [vm_compute; reflexivity|]. split; vm_compute; reflexivity.
Qed.

(** A static argument that resolves to nothing. *)
Example static_argument_missing :
  ValidateStaticArgs 1 0
    (mkWorld {[ 0%nat := ready (custom "op" ["this"; "args"] [] ["region"] []
                                  true true) ∅ ]} ∅ ∅ ∅)
  = Raises (MissingArgumentError
              "Static key-word argument region could not be Fetched.")
      (mkWorld {[ 0%nat := ready (custom "op" ["this"; "args"] [] ["region"] []
                                    true true) ∅ ]} ∅ ∅ ∅).
Proof. vm_compute. reflexivity. Qed.
End Runs.

(** * Further properties of the code *)

(** ** Coercion without expressions, and what it keeps *)

Section CoercionFacts.
Context {FT : PyFloat} {RT : PyRuntime}.

(** Induction over values, through the lists and dictionaries they hold. *)
Lemma value_nested_ind (P : value -> Prop) :
  P VNone -> (forall b, P (VBool b)) -> (forall n, P (VInt n)) ->
  (forall x, P (VFloat x)) -> (forall s, P (VStr s)) ->
  (forall l, Forall P l -> P (VList l)) ->
  (forall d, Forall (fun kv => P kv.2) d -> P (VDict d)) ->
  (forall r, P (VRef r)) ->
  forall v, P v.
Proof.
  intros HN HB HI HF HS HL HD HR.
  refine (fix IH (v : value) : P v :=
            match v with
            | VNone => HN
            | VBool b => HB b
            | VInt n => HI n
            | VFloat x => HF x
            | VStr s => HS s
            | VList l =>
                HL l ((fix go (l : list value) : Forall P l :=
                         match l with
                         | [] => @List.Forall_nil _ P
                         | x :: r => @List.Forall_cons _ P x r (IH x) (go r)
                         end) l)
            | VDict d =>
                HD d ((fix go (d : list (string * value))
                        : Forall (fun kv => P kv.2) d :=
                         match d with
                         | [] => @List.Forall_nil _ (fun kv => P kv.2)
                         | kv :: r =>
                             @List.Forall_cons _ (fun kv => P kv.2) kv r (IH kv.2) (go r)
                         end) d)
            | VRef r => HR r
            end).
Qed.

Lemma each_Ok {A B} (f : A -> outcome B) l l' :
  Spec.each f l = Ok l' <-> Forall2 (fun x y => f x = Ok y) l l'.
Proof.
  revert l'. induction l as [|x l IH]; intros l'; cbn.
  - split; [intros [= <-]; constructor|intros Hl; inversion Hl; reflexivity].
  - destruct (f x) as [y| | |] eqn:Ex; cbn.
    + destruct (Spec.each f l) as [r| | |] eqn:Er; cbn.
      * split.
        -- intros [= <-]. constructor; [exact Ex|]. apply IH. reflexivity.
        -- intros Hl. inversion Hl as [|? y' ? r' Hy Hr]; subst.
           apply IH in Hr. congruence.
      * split; [discriminate|]. intros Hl. inversion Hl as [|? y' ? r' Hy Hr]; subst.
        apply IH in Hr. discriminate.
      * split; [discriminate|]. intros Hl. inversion Hl as [|? y' ? r' Hy Hr]; subst.
        apply IH in Hr. discriminate.
      * split; [discriminate|]. intros Hl. inversion Hl as [|? y' ? r' Hy Hr]; subst.
        apply IH in Hr. discriminate.
    + split; [discriminate|]. intros Hl. inversion Hl; congruence.
    + split; [discriminate|]. intros Hl. inversion Hl; congruence.
    + split; [discriminate|]. intros Hl. inversion Hl; congruence.
Qed.

(** Coercion with [evaluateExpressions] off, as a function of the value
    alone. *)
Fixpoint coerced (v : value) : value :=
  match v with
  | VStr s => if String.eqb s "None" then VNone else cast_text s
  | VList l => VList (map coerced l)
  | VDict d => VDict (map (fun kv => (kv.1, coerced kv.2)) d)
  | _ => v
  end.

Lemma EvaluateToType_plain this v : EvaluateToType this v false = Ok (coerced v).
Proof.
  induction v as [| | | |s|l IH|d IH|] using value_nested_ind; try reflexivity.
  - cbn. destruct (String.eqb s "None"); reflexivity.
  - rewrite EvaluateToType_list. cbn [coerced].
    assert (Spec.each (fun x => EvaluateToType this x false) l = Ok (map coerced l))
      as ->; [|reflexivity].
    apply each_Ok. induction IH as [|x l Hx _ IHl]; constructor; assumption.
  - rewrite EvaluateToType_dict. cbn [coerced]. unfold Spec.each_value.
    match goal with |- omap _ ?e = _ =>
      assert (e = Ok (map (fun kv => (kv.1, coerced kv.2)) d)) as ->; [|reflexivity]
    end.
    apply each_Ok. induction IH as [|[k x] d Hx _ IHd]; constructor; [|assumption].
    cbn in *. rewrite Hx. reflexivity.
Qed.

(** What text is read as: a boolean, a number, or itself. *)
Lemma cast_text_cases t :
  (exists b, cast_text t = VBool b) \/ (exists f, cast_text t = VFloat f)
  \/ (exists n, cast_text t = VInt n) \/ cast_text t = VStr t.
Proof.
  unfold cast_text.
  destruct (String.eqb (PyStr.lower t) "false"); [left; eauto|].
  destruct (String.eqb (PyStr.lower t) "true"); [left; eauto|].
  destruct (float_of_str t) as [f|];
    [destruct (String.eqb (str_of_float f) t); [right; left; eauto|]|];
    (destruct (PyStr.int_of_str t) as [n|];
     [destruct (String.eqb (PyStr.str_of_int n) t); [right; right; left; eauto|]|]);
    right; right; right; reflexivity.
Qed.

Lemma coerced_cast_text t :
  String.eqb t "None" = false -> coerced (cast_text t) = cast_text t.
Proof.
  intros EN.
  destruct (cast_text_cases t) as [[b E]|[[f E]|[[n E]|E]]]; rewrite E; try reflexivity.
  cbn [coerced]. rewrite EN. exact E.
Qed.

Lemma coerced_idempotent v : coerced (coerced v) = coerced v.
Proof.
  induction v as [| | | |s|l IH|d IH|] using value_nested_ind; try reflexivity.
  - cbn [coerced]. destruct (String.eqb s "None") eqn:EN; [reflexivity|].
    apply coerced_cast_text. exact EN.
  - cbn [coerced]. f_equal.
    induction IH as [|x l Hx _ IHl]; cbn [map]; [reflexivity|].
    rewrite Hx, IHl. reflexivity.
  - cbn [coerced]. f_equal.
    induction IH as [|[k x] d Hx _ IHd]; cbn [map fst snd]; [reflexivity|].
    cbn [snd] in Hx. rewrite Hx, IHd. reflexivity.
Qed.

(** X1. With [evaluateExpressions] off, [EvaluateToType] never raises and
    does not look at the Operation: float() and int() are tried inside
    [try] blocks, so every value, nested or not, coerces to one and the
    same value whatever the object. *)
Theorem EvaluateToType_plain_total (v : value) :
  exists v', forall this, EvaluateToType this v false = Ok v'.
Proof. exists (coerced v). intros this. apply EvaluateToType_plain. Qed.

(** X2. Coercing twice is coercing once: a value that [EvaluateToType]
    returned with [evaluateExpressions] off is returned unchanged when it
    is evaluated again. *)
Theorem EvaluateToType_plain_idempotent (this : Functor) (v v' : value) :
  EvaluateToType this v false = Ok v' ->
  EvaluateToType this v' false = Ok v'.
Proof.
  rewrite !EvaluateToType_plain. intros [= <-]. rewrite coerced_idempotent. reflexivity.
Qed.

(** *** Integers through text *)

Fixpoint all_chars (p : ascii -> bool) (s : string) : bool :=
  match s with
  | EmptyString => true
  | String c r => (p c && all_chars p r)%bool
  end.

(** The characters of a printed integer. *)
Definition numeric (c : ascii) : bool :=
  (PyStr.is_digit c || Ascii.eqb c "-")%bool.

Lemma string_of_uint_digits d :
  all_chars PyStr.is_digit (NilEmpty.string_of_uint d) = true.
Proof. induction d; cbn; try rewrite IHd; reflexivity. Qed.

Lemma all_chars_weaken (p q : ascii -> bool) s :
  (forall c, p c = true -> q c = true) -> all_chars p s = true -> all_chars q s = true.
Proof.
  intros Hpq. induction s as [|c r IH]; cbn; [reflexivity|].
  intros [Hc Hr]%andb_true_iff. rewrite (Hpq c Hc), (IH Hr). reflexivity.
Qed.

Lemma str_of_int_numeric n : all_chars numeric (PyStr.str_of_int n) = true.
Proof.
  assert (forall d, all_chars numeric (NilZero.string_of_uint d) = true) as Hu.
  { intros d. apply (all_chars_weaken PyStr.is_digit).
    - intros c Hc. unfold numeric. rewrite Hc. reflexivity.
    - destruct d; try apply string_of_uint_digits. reflexivity. }
  unfold PyStr.str_of_int. destruct (Z.to_int n) as [d|d]; cbn [NilZero.string_of_int].
  - apply Hu.
  - cbn [all_chars]. rewrite Hu. reflexivity.
Qed.

Lemma any_none (p q : ascii -> bool) s :
  (forall c, p c = true -> q c = false) -> all_chars p s = true -> PyStr.any q s = false.
Proof.
  intros Hpq. induction s as [|c r IH]; cbn; [reflexivity|].
  intros [Hc Hr]%andb_true_iff. rewrite (Hpq c Hc), (IH Hr). reflexivity.
Qed.

Lemma contains_none (p : ascii -> bool) c s :
  p c = false -> all_chars p s = true -> PyStr.contains c s = false.
Proof.
  intros Hc. induction s as [|x r IH]; cbn; [reflexivity|].
  intros [Hx Hr]%andb_true_iff. rewrite (IH Hr), orb_false_r.
  destruct (Ascii.eqb_spec c x) as [->|_]; [congruence|reflexivity].
Qed.

Lemma numeric_facts c :
  numeric c = true ->
  float_mark c = false /\ PyStr.is_space c = false /\ PyStr.is_upper c = false
  /\ Ascii.eqb c "_" = false /\ Ascii.eqb c "+" = false.
Proof.
  destruct c as [[] [] [] [] [] [] [] []]; vm_compute; intros H;
    try discriminate H; repeat split.
Qed.

Lemma lower_numeric s : all_chars numeric s = true -> PyStr.lower s = s.
Proof.
  induction s as [|c r IH]; cbn; [reflexivity|].
  intros [Hc Hr]%andb_true_iff. rewrite (IH Hr). unfold PyStr.lower_char.
  destruct (numeric_facts c Hc) as (_ & _ & -> & _). reflexivity.
Qed.

Lemma strip_numeric s : all_chars numeric s = true -> PyStr.strip s = s.
Proof.
  intros Hs. unfold PyStr.strip.
  assert (PyStr.lstrip s = s) as ->.
  { destruct s as [|c r]; [reflexivity|]. cbn in *.
    apply andb_true_iff in Hs as [Hc _].
    destruct (numeric_facts c Hc) as (_ & -> & _). reflexivity. }
  induction s as [|c r IH]; [reflexivity|]. cbn in *.
  apply andb_true_iff in Hs as [Hc Hr]. rewrite (IH Hr).
  destruct (numeric_facts c Hc) as (_ & -> & _). destruct r; reflexivity.
Qed.

Lemma drop_underscores_numeric b s :
  all_chars numeric s = true -> PyStr.drop_underscores b s = Some s.
Proof.
  revert b. induction s as [|c r IH]; intros b; cbn; [reflexivity|].
  intros [Hc Hr]%andb_true_iff.
  destruct (numeric_facts c Hc) as (_ & _ & _ & -> & _).
  rewrite (IH _ Hr). reflexivity.
Qed.

Lemma int_of_str_numeric t :
  all_chars numeric t = true ->
  PyStr.int_of_str t
  = if PyStr.within_limit t then Z.of_int <$> NilZero.int_of_string t else None.
Proof.
  intros Hs. unfold PyStr.int_of_str.
  rewrite (strip_numeric _ Hs), (drop_underscores_numeric _ _ Hs). cbn [mbind option_bind].
  assert (match t with
          | String "+" (String d _ as r) => if PyStr.is_digit d then r else EmptyString
          | _ => t
          end = t) as ->; [|reflexivity].
  destruct t as [|c r]; [reflexivity|]. cbn in Hs.
  apply andb_true_iff in Hs as [Hc _].
  destruct c as [[] [] [] [] [] [] [] []]; try reflexivity; discriminate Hc.
Qed.

Lemma int_of_str_of_int n :
  PyStr.int_of_str (PyStr.str_of_int n)
  = if PyStr.within_limit (PyStr.str_of_int n) then Some n else None.
Proof.
  rewrite (int_of_str_numeric _ (str_of_int_numeric n)).
  destruct (PyStr.within_limit _); [|reflexivity].
  rewrite RefRuntime.int_of_string_of_int. cbn.
  rewrite DecimalZ.of_to. reflexivity.
Qed.

(** Text that [int()] reads and that is the print of what it read is
    within the digits the interpreter converts. *)
Lemma int_of_str_within t n :
  PyStr.int_of_str t = Some n -> PyStr.str_of_int n = t ->
  PyStr.within_limit t = true.
Proof.
  intros En E. pose proof (str_of_int_numeric n) as Hs. rewrite E in Hs.
  rewrite (int_of_str_numeric t Hs) in En.
  destruct (PyStr.within_limit t); [reflexivity|discriminate].
Qed.

(** X3. Coercion keeps what the text says: the value text is read as
    prints back as that text, except that a boolean prints with Python's
    capitalisation; so the two agree once lower-cased. *)
Theorem cast_text_prints_back (t : string) :
  omap PyStr.lower (text_of (cast_text t)) = Ok (PyStr.lower t)
  /\ ((String.eqb (PyStr.lower t) "true" || String.eqb (PyStr.lower t) "false") = false
      -> text_of (cast_text t) = Ok t).
Proof.
  unfold cast_text.
  destruct (String.eqb_spec (PyStr.lower t) "false") as [Ef|_].
  { rewrite Ef. split; [reflexivity|]. discriminate. }
  destruct (String.eqb_spec (PyStr.lower t) "true") as [Et|_].
  { rewrite Et. split; [reflexivity|]. discriminate. }
  assert (forall v, text_of v = Ok t ->
            omap PyStr.lower (text_of v) = Ok (PyStr.lower t)
            /\ ((false || false)%bool = false -> text_of v = Ok t)) as Hok.
  { intros v E. rewrite E. split; [reflexivity|]. intros _. reflexivity. }
  destruct (float_of_str t) as [f|];
    [destruct (String.eqb_spec (str_of_float f) t) as [E|_];
     [apply Hok; cbn; rewrite E; reflexivity|]|];
    (destruct (PyStr.int_of_str t) as [n|] eqn:En;
     [destruct (String.eqb_spec (PyStr.str_of_int n) t) as [E|_];
      [apply Hok; cbn [text_of]; rewrite E, (int_of_str_within t n En E);
       reflexivity|]|]);
    apply Hok; reflexivity.
Qed.

(** X4. An integer goes through text unharmed as far as the
    interpreter converts: when [str(n)] has no more digits than the limit
    of [int()], [EvaluateToType] reads it back as the integer [n], with
    expressions on or off; beyond the limit [int()] raises inside its
    [try], and the text stays text. *)
Theorem EvaluateToType_int_text (this : Functor) (n : Z) (ev : bool) :
  EvaluateToType this (VStr (PyStr.str_of_int n)) ev
  = Ok (if PyStr.within_limit (PyStr.str_of_int n) then VInt n
        else VStr (PyStr.str_of_int n)).
Proof.
  pose proof (str_of_int_numeric n) as Hs.
  assert (forall t, all_chars numeric t = false ->
                    String.eqb (PyStr.str_of_int n) t = false) as Hne.
  { intros t Ht. destruct (String.eqb_spec (PyStr.str_of_int n) t) as [E|_];
      [|reflexivity]. rewrite E in Hs. congruence. }
  rewrite EvaluateToType_text. rewrite (Hne "None") by reflexivity.
  unfold Spec.interpolated, is_expression.
  rewrite (contains_none numeric "{" _ eq_refl Hs). rewrite andb_false_r. cbn [bind].
  unfold Spec.typed_text. rewrite (lower_numeric _ Hs).
  rewrite (Hne "true"), (Hne "false") by reflexivity.
  rewrite float_round_trip_unmarked.
  - unfold Spec.int_round_trip. rewrite int_of_str_of_int.
    destruct (PyStr.within_limit _); [|reflexivity].
    rewrite String.eqb_refl. reflexivity.
  - apply (any_none numeric); [|exact Hs]. intros c Hc.
    apply (numeric_facts c Hc).
Qed.

(** *** Interpolating one attribute *)

(** A Python identifier in ASCII, as [{this.<attr>}] names one. *)
Definition attribute_name (a : string) : bool :=
  match a with
  | String c _ => (all_ident a && negb (PyStr.is_digit c))%bool
  | EmptyString => false
  end.

Definition path_char (c : ascii) : bool :=
  (is_ident_char c || Ascii.eqb c ".")%bool.

Lemma path_char_plain c :
  path_char c = true ->
  Ascii.eqb c "}" = false /\ (Ascii.eqb c "{" || breaks_literal c)%bool = false.
Proof.
  destruct c as [[] [] [] [] [] [] [] []]; vm_compute; intros H;
    try discriminate H; split; reflexivity.
Qed.

Lemma append_empty s : s +:+ EmptyString = s.
Proof.
  induction s as [|c s IH]; [reflexivity|].
  change (String c s +:+ EmptyString) with (String c (s +:+ EmptyString)).
  rewrite IH. reflexivity.
Qed.

Lemma append_snoc s c r : (s +:+ String c EmptyString) +:+ r = s +:+ String c r.
Proof.
  induction s as [|x s IH]; [reflexivity|].
  change (String x (s +:+ String c EmptyString) +:+ r = String x (s +:+ String c r)).
  change (String x ((s +:+ String c EmptyString) +:+ r) = String x (s +:+ String c r)).
  rewrite IH. reflexivity.
Qed.

Lemma parse_field body acc :
  all_chars path_char body = true ->
  parse_fstring (body +:+ "}") (Some acc) = Ok [Field (acc +:+ body)].
Proof.
  revert acc. induction body as [|c r IH]; intros acc Hb.
  - simpl. rewrite append_empty. reflexivity.
  - simpl in Hb. apply andb_true_iff in Hb as [Hc Hr].
    destruct (path_char_plain c Hc) as [E1 E2].
    change (String c r +:+ "}") with (String c (r +:+ "}")).
    cbn [parse_fstring]. rewrite E1, E2. rewrite (IH _ Hr).
    rewrite append_snoc. reflexivity.
Qed.

Lemma all_ident_path a : all_ident a = true -> all_chars path_char a = true.
Proof.
  induction a as [|c r IH]; [reflexivity|].
  cbn [all_ident all_chars]. intros [Hc Hr]%andb_true_iff.
  unfold path_char at 1. rewrite Hc, (IH Hr). reflexivity.
Qed.

Lemma contains_app_r c a b : PyStr.contains c b = true -> PyStr.contains c (a +:+ b) = true.
Proof.
  intros Hb. induction a as [|x a IH]; [exact Hb|].
  change (String x a +:+ b) with (String x (a +:+ b)).
  cbn [PyStr.contains]. rewrite IH. apply orb_true_r.
Qed.

Lemma read_field_attribute a :
  attribute_name a = true ->
  read_field ("this." +:+ a) = if is_keyword a then FInvalid else FAttr a.
Proof.
  destruct a as [|c r]; [discriminate|]. cbn [attribute_name]. intros Ha.
  change ("this." +:+ String c r)
    with (String "t" (String "h" (String "i" (String "s" (String "." (String c r)))))).
  cbn [read_field]. rewrite Ha. reflexivity.
Qed.

Lemma parse_one_field a :
  attribute_name a = true ->
  parse_fstring ("{this." +:+ a +:+ "}") None = Ok [Field ("this." +:+ a)].
Proof.
  intros Ha.
  change ("{this." +:+ a +:+ "}") with (String "{" (("this." +:+ a) +:+ "}")).
  assert (all_chars path_char ("this." +:+ a) = true) as Hp.
  { destruct a as [|c r]; [discriminate Ha|]. cbn [attribute_name] in Ha.
    apply andb_true_iff in Ha as [Ha _]. cbn.
    apply (all_ident_path (String c r)). exact Ha. }
  pose proof (parse_field ("this." +:+ a) EmptyString Hp) as E.
  change (EmptyString +:+ ("this." +:+ a)) with ("this." +:+ a) in E.
  cbn [parse_fstring Ascii.eqb Bool.eqb]. cbn [append] in *. exact E.
Qed.

Lemma eval_fstring_attribute (this : Functor) a :
  attribute_name a = true ->
  eval_fstring this ("{this." +:+ a +:+ "}")
  = if is_keyword a then Raise SyntaxError else bind (GetAttr this a) text_of.
Proof.
  intros Ha. unfold eval_fstring. rewrite (parse_one_field a Ha).
  cbn [bind compile_fields eval_segments]. unfold eval_field.
  rewrite (read_field_attribute a Ha).
  destruct (is_keyword a); [reflexivity|]. cbn [bind].
  destruct (GetAttr this a) as [v| | |]; cbn [bind]; try reflexivity.
  destruct (text_of v) as [t| | |]; cbn [bind]; try reflexivity.
  rewrite append_empty. reflexivity.
Qed.

(** X5. Text that is exactly one field [{this.<attr>}], its value
    interpolated: when [<attr>] is a keyword of Python the text does not
    compile and evaluation raises [SyntaxError]; otherwise the attribute
    is read, printed, and the print is read as text is, so that what
    reading or printing the attribute raises, evaluation raises, and an
    attribute holding 0 comes back as the integer 0. *)
Theorem EvaluateToType_one_field (this : Functor) (a : string) :
  attribute_name a = true ->
  EvaluateToType this (VStr ("{this." +:+ a +:+ "}")) true
  = if is_keyword a then Raise SyntaxError
    else do v <- GetAttr this a; do t <- text_of v; Ok (cast_text t).
Proof.
  intros Ha.
  assert (is_expression ("{this." +:+ a +:+ "}") = true) as He.
  { unfold is_expression. apply andb_true_iff. split; [reflexivity|].
    exact (contains_app_r "}" (String "{" ("this." +:+ a)) "}" eq_refl). }
  cbn [EvaluateToType]. rewrite He.
  change (String.eqb ("{this." +:+ a +:+ "}") "None") with false. cbv iota.
  cbn [andb]. rewrite (eval_fstring_attribute this a Ha).
  destruct (is_keyword a); [reflexivity|].
  destruct (GetAttr this a) as [v| | |]; reflexivity.
Qed.

(** *** Text without braces *)

(** No text in the value holds both an opening and a closing brace. *)
Fixpoint brace_free (v : value) : bool :=
  match v with
  | VStr s => negb (is_expression s)
  | VList l => forallb brace_free l
  | VDict d => forallb (fun kv => brace_free kv.2) d
  | _ => true
  end.

(** X21. Only text that holds both braces is evaluated: on a value
    in which no text does, through lists and dictionaries, coercion with
    [evaluateExpressions] on gives what it gives with it off, and in
    particular reads no attribute and cannot raise. *)
Theorem EvaluateToType_without_braces (this : Functor) (v : value) :
  brace_free v = true ->
  EvaluateToType this v true = EvaluateToType this v false.
Proof.
  intros Hv. rewrite (EvaluateToType_plain this v). revert Hv.
  induction v as [| | | |s|l IH|d IH|] using value_nested_ind; try reflexivity.
  - cbn [brace_free EvaluateToType coerced]. intros Hs%negb_true_iff.
    rewrite Hs. cbn [andb bind]. destruct (String.eqb s "None"); reflexivity.
  - cbn [brace_free]. intros Hl. rewrite EvaluateToType_list. cbn [coerced].
    assert (Spec.each (fun x => EvaluateToType this x true) l = Ok (map coerced l))
      as ->; [|reflexivity].
    apply each_Ok. induction IH as [|x l Hx _ IHl]; [constructor|].
    cbn [forallb] in Hl. apply andb_true_iff in Hl as [H1 H2].
    constructor; [apply Hx, H1|apply IHl, H2].
  - cbn [brace_free]. intros Hd. rewrite EvaluateToType_dict. cbn [coerced].
    unfold Spec.each_value.
    match goal with |- omap _ ?e = _ =>
      assert (e = Ok (map (fun kv => (kv.1, coerced kv.2)) d)) as ->; [|reflexivity]
    end.
    apply each_Ok. induction IH as [|[k x] d Hx _ IHd]; [constructor|].
    cbn [forallb] in Hd. apply andb_true_iff in Hd as [H1 H2].
    constructor; [|apply IHd, H2]. cbn in *. rewrite (Hx H1). reflexivity.
Qed.
End CoercionFacts.

(** ** Further properties of value resolution *)

Section ResolutionFacts.
Context {FT : PyFloat} {RT : PyRuntime}.
Local Open Scope nat_scope.
Implicit Types (w : World) (f : Functor) (att : list string).

(** *** The list of visited Operations *)

(** [attempted] after a call: what it was, with names appended, and
    still free of repetitions when it was. *)
Definition grows (att att' : list string) : Prop :=
  att `prefix_of` att' /\ (NoDup att -> NoDup att').

Lemma grows_refl att : grows att att.
Proof. split; [reflexivity|auto]. Qed.

Lemma grows_trans att1 att2 att3 : grows att1 att2 -> grows att2 att3 -> grows att1 att3.
Proof. intros [P1 N1] [P2 N2]. split; [etrans; eassumption|auto]. Qed.

Definition appends
    (F : nat -> string -> value -> option (list string) -> bool ->
         option (list string) -> outcome (fetched * list string)) : Prop :=
  forall this var d order start att r att',
    F this var d order start (Some att) = Ok (r, att') -> grows att att'.

Lemma as_pair_Ok (m : outcome (fetched * list string)) v b att' :
  (do r <- m; as_pair r) = Ok (v, b, att') -> m = Ok (Nested v b, att').
Proof.
  destruct m as [[[x|x y] a]| | |]; cbn; try discriminate.
  intros [= <- <- <-]. reflexivity.
Qed.

Lemma resolver_grows w F loc res f var d order att v b att' :
  appends F ->
  fetch_location F w loc = Some res ->
  res f var d order att = Ok (v, b, att') -> grows att att'.
Proof.
  intros HF. unfold fetch_location. intros E.
  repeat case_match; try discriminate E; injection E as <-.
  - unfold fetch_location_this, not_found.
    destruct (HasAttr f var); [destruct (GetAttr f var); cbn|];
      intros [= <- <- <-] || discriminate; apply grows_refl.
  - unfold fetch_location_args, not_found.
    repeat case_match; intros [= <- <- <-] || discriminate; apply grows_refl.
  - unfold fetch_location_globals, not_found.
    repeat case_match; intros [= <- <- <-]; apply grows_refl.
  - unfold fetch_location_config, not_found.
    destruct (negb (HasAttr f "config")); [intros [= <- <- <-]; apply grows_refl|].
    destruct (GetAttr f "config") as [c| | |]; cbn; try discriminate.
    repeat case_match; intros [= <- <- <-] || discriminate; apply grows_refl.
  - unfold fetch_location_precursor, not_found.
    destruct (precursor f) as [| | | | | | |p]; try discriminate.
    + intros [= <- <- <-]; apply grows_refl.
    + unfold FetchWithAndWithout_in. destruct (heap w !! p); [|discriminate].
      intros E%as_pair_Ok. exact (HF _ _ _ _ _ _ _ _ E).
  - unfold fetch_location_executor.
    destruct (executor f) as [| | | | | | |e]; try discriminate.
    unfold FetchWithout_in. destruct (heap w !! e); [|discriminate].
    intros E%as_pair_Ok. exact (HF _ _ _ _ _ _ _ _ E).
  - unfold fetch_location_environment, not_found.
    repeat case_match; intros [= <- <- <-]; apply grows_refl.
Qed.

Lemma fetch_scan_grows w F f var d order locs att hit att' :
  appends F ->
  fetch_scan F w f var d order locs att = Ok (hit, att') -> grows att att'.
Proof.
  intros HF. revert att. induction locs as [|loc rest IH]; intros att; cbn.
  - intros [= <- <-]. apply grows_refl.
  - case_bool_decide; [|apply IH].
    destruct (fetch_location F w loc) as [res|] eqn:Hres; [|discriminate].
    destruct (res f var d order att) as [[[v b] att1]| | |] eqn:Er; cbn;
      try discriminate.
    pose proof (resolver_grows w F loc res f var d order att v b att1 HF Hres Er) as G.
    destruct b.
    + intros [= <- <-]. exact G.
    + intros E. exact (grows_trans _ _ _ G (IH _ E)).
Qed.

Lemma Fetch_appends fuel w : appends (Fetch fuel w).
Proof.
  induction fuel as [|n IH]; intros this var d order start att r att';
    [discriminate|].
  cbn [Fetch]. unfold Fetch_in. destruct (heap w !! this) as [f|]; [|discriminate].
  cbn [from_option id]. case_bool_decide as Hin.
  - intros [= <- <-]. apply grows_refl.
  - destruct (fetch_scan _ _ _ _ _ _ _ _) as [[hit att1]| | |] eqn:Es; cbn;
      try discriminate.
    apply (fetch_scan_grows _ _ _ _ _ _ _ _ _ _ IH) in Es.
    assert (grows att (att ++ [name f])) as G0.
    { split; [apply prefix_app_r; reflexivity|].
      intros ND. apply NoDup_app. split; [exact ND|].
      split; [|apply NoDup_singleton].
      intros x Hx ->%list_elem_of_singleton. contradiction. }
    destruct hit as [[? ?]|]; intros [= <- <-]; exact (grows_trans _ _ _ G0 Es).
Qed.

(** X6. The list of visited Operations that [Fetch] hands back is the
    list it was given with names appended at the end: nothing is removed
    or reordered, and no name is entered twice. *)
Theorem Fetch_visited_grows fuel w this var d order start tried r att' :
  Fetch fuel w this var d order start tried = Ok (r, att') ->
  from_option id [] tried `prefix_of` att'
  /\ (NoDup (from_option id [] tried) -> NoDup att').
Proof.
  destruct tried as [att|]; cbn [from_option id].
  - apply Fetch_appends.
  - rewrite Fetch_attempted_None. apply Fetch_appends.
Qed.


(** *** Before initialization *)

(** X7. An Operation whose scopes are not registered yet, as
    [__init__] leaves it until [Initialize] has run, finds nothing:
    [Fetch] answers the default for every name, also for an attribute the
    Operation has, whatever the scope order asked for. *)
Theorem Fetch_before_Initialize fuel w this f var d order start tried :
  heap w !! this = Some f ->
  fetchLocations f = [] ->
  Fetch (S fuel) w this var d order start tried
  = Ok (fetch_return start d false,
        if bool_decide (name f ∈ from_option id [] tried)
        then from_option id [] tried
        else from_option id [] tried ++ [name f]).
Proof.
  intros Hf Hl.
  assert (forall att,
            Fetch (S fuel) w this var d order start (Some att)
            = Ok (fetch_return start d false,
                  if bool_decide (name f ∈ att) then att else att ++ [name f])) as Hs.
  { intros att. case_bool_decide as Hin.
    - apply (Fetch_guard fuel w this f); assumption.
    - rewrite (Fetch_unfold fuel w this f var d order start att Hf Hin).
      rewrite fetch_scan_unregistered; [reflexivity|].
      intros s _. rewrite Hl. apply not_elem_of_nil. }
  destruct tried as [att|]; cbn [from_option id].
  - apply Hs.
  - rewrite Fetch_attempted_None. apply Hs.
Qed.

(** *** The environment *)

Definition set_environ w (env : gmap string string) : World :=
  mkWorld (heap w) env (builtins w) (programs w).

Definition environment_blind
    (F F' : nat -> string -> value -> option (list string) -> bool ->
            option (list string) -> outcome (fetched * list string)) : Prop :=
  forall this var d scopes start tried,
    "environment" ∉ scopes ->
    F' this var d (Some scopes) start tried = F this var d (Some scopes) start tried.

Lemma resolver_environment_blind w env F F' loc res :
  environment_blind F F' -> loc <> "environment" ->
  fetch_location F w loc = Some res ->
  exists res', fetch_location F' (set_environ w env) loc = Some res'
    /\ forall f var d order att, res' f var d order att = res f var d order att.
Proof.
  intros HF Hloc. unfold fetch_location. intros E.
  repeat case_match; try discriminate E; injection E as <-;
    try (eexists; split; [reflexivity|]; intros f var d order att; reflexivity).
  - eexists; split; [reflexivity|]. intros f var d order att.
    unfold fetch_location_precursor.
    destruct (precursor f) as [| | | | | | |p]; try reflexivity.
    unfold FetchWithAndWithout_in. cbn [heap set_environ].
    destruct (heap w !! p) as [pf|]; [|reflexivity].
    rewrite HF; [reflexivity|].
    rewrite list_of_set_elem, elem_of_app, elem_of_without.
    intros [[_ Hn]|Hn]; [apply Hn; set_solver|set_solver].
  - eexists; split; [reflexivity|]. intros f var d order att.
    unfold fetch_location_executor.
    destruct (executor f) as [| | | | | | |e]; try reflexivity.
    unfold FetchWithout_in. cbn [heap set_environ].
    destruct (heap w !! e) as [ef|]; [|reflexivity].
    rewrite HF; [reflexivity|].
    rewrite elem_of_without. intros [_ Hn]. apply Hn. set_solver.
  - exfalso. apply Hloc. apply String.eqb_eq. assumption.
Qed.

Lemma fetch_scan_environment_blind w env F F' f var d order locs att :
  environment_blind F F' -> "environment" ∉ locs ->
  fetch_scan F' (set_environ w env) f var d order locs att
  = fetch_scan F w f var d order locs att.
Proof.
  intros HF. revert att. induction locs as [|loc rest IH]; intros att Hn;
    [reflexivity|].
  apply not_elem_of_cons in Hn as [Hloc Hrest]. cbn [fetch_scan].
  case_bool_decide; [|apply IH; exact Hrest].
  destruct (fetch_location F w loc) as [res|] eqn:Hres.
  - destruct (resolver_environment_blind w env F F' loc res HF (not_eq_sym Hloc) Hres)
      as (res' & -> & Hsame).
    rewrite Hsame. destruct (res f var d order att) as [[[v b] att1]| | |]; cbn;
      try reflexivity.
    destruct b; [reflexivity|]. apply IH. exact Hrest.
  - assert (fetch_location F' (set_environ w env) loc = None) as ->; [|reflexivity].
    revert Hres. unfold fetch_location. repeat case_match; intros; congruence.
Qed.

Lemma Fetch_environment_blind fuel w env :
  environment_blind (Fetch fuel w) (Fetch fuel (set_environ w env)).
Proof.
  induction fuel as [|n IH]; intros this var d scopes start tried Hn; [reflexivity|].
  cbn [Fetch]. unfold Fetch_in. cbn [heap set_environ].
  destruct (heap w !! this) as [f|]; [|reflexivity].
  case_bool_decide; [reflexivity|]. cbn [from_option id].
  rewrite (fetch_scan_environment_blind w env _ _ f var d scopes scopes _ IH Hn).
  reflexivity.
Qed.

(** X8. [os.environ] is read by the Operation that was asked, in its
    [environment] scope, and by no other: a [Fetch] whose scope order
    leaves [environment] out gives the same answer whatever the
    environment holds, although it may go through predecessors and
    executors whose own scope order lists [environment]; so do
    [FetchWithout] and [FetchWithAndWithout] when told to leave it out. *)
Theorem Fetch_environment_local fuel w env this var d scopes start tried :
  "environment" ∉ scopes ->
  Fetch fuel (set_environ w env) this var d (Some scopes) start tried
  = Fetch fuel w this var d (Some scopes) start tried
  /\ (forall dont cur,
        "environment" ∈ dont ->
        FetchWithout fuel (set_environ w env) this dont var d cur start tried
        = FetchWithout fuel w this dont var d cur start tried)
  /\ (forall more dont cur,
        "environment" ∈ dont -> "environment" ∉ more ->
        FetchWithAndWithout fuel (set_environ w env) this more dont var d cur start tried
        = FetchWithAndWithout fuel w this more dont var d cur start tried).
Proof.
  intros Hn. split; [apply Fetch_environment_blind; exact Hn|]. split.
  - intros dont cur Hd. unfold FetchWithout, FetchWithout_in. cbn [heap set_environ].
    destruct (heap w !! this) as [f|]; [|reflexivity].
    apply Fetch_environment_blind. rewrite elem_of_without. intros [_ Hx]. auto.
  - intros more dont cur Hd Hm. unfold FetchWithAndWithout, FetchWithAndWithout_in.
    cbn [heap set_environ]. destruct (heap w !! this) as [f|]; [|reflexivity].
    apply Fetch_environment_blind.
    rewrite list_of_set_elem, elem_of_app, elem_of_without. intros [[_ Hx]|Hx]; auto.
Qed.

(** *** The default *)

(** The answer of a nested call with another default put in. *)
Definition with_default (d' : value) (r : fetched * list string)
  : fetched * list string :=
  match r with
  | (Nested v true, att) => (Nested v true, att)
  | (Nested _ false, att) => (Nested d' false, att)
  | (Top v, att) => (Top v, att)
  end.

(** The answer of a top call from that of a nested call. *)
Definition top_of (r : fetched * list string) : fetched * list string :=
  match r with
  | (Nested v _, att) => (Top v, att)
  | (Top v, att) => (Top v, att)
  end.

Definition default_free
    (F : nat -> string -> value -> option (list string) -> bool ->
         option (list string) -> outcome (fetched * list string)) : Prop :=
  forall this var d d' order tried,
    F this var d' order false tried = omap (with_default d') (F this var d order false tried).

Definition resolved_default (d' : value) (r : value * bool * list string)
  : value * bool * list string :=
  match r with
  | (v, true, att) => (v, true, att)
  | (_, false, att) => (d', false, att)
  end.

Lemma as_pair_with_default d' (m : outcome (fetched * list string)) :
  (do r <- omap (with_default d') m; as_pair r)
  = omap (resolved_default d') (do r <- m; as_pair r).
Proof. destruct m as [[[x|x [|]] a]| | |]; reflexivity. Qed.

Lemma resolver_default_free w F loc res f var d d' order att :
  default_free F ->
  fetch_location F w loc = Some res ->
  res f var d' order att = omap (resolved_default d') (res f var d order att).
Proof.
  intros HF. unfold fetch_location. intros E.
  repeat case_match; try discriminate E; injection E as <-.
  - unfold fetch_location_this, not_found.
    destruct (HasAttr f var); [destruct (GetAttr f var)|]; reflexivity.
  - unfold fetch_location_args, not_found. repeat case_match; reflexivity.
  - unfold fetch_location_globals, not_found. repeat case_match; reflexivity.
  - unfold fetch_location_config, not_found.
    destruct (negb (HasAttr f "config")); [reflexivity|].
    destruct (GetAttr f "config") as [c| | |]; cbn; try reflexivity.
    repeat case_match; reflexivity.
  - unfold fetch_location_precursor, not_found.
    destruct (precursor f) as [| | | | | | |p]; try reflexivity.
    unfold FetchWithAndWithout_in. destruct (heap w !! p); [|reflexivity].
    rewrite (HF p var d d'). apply as_pair_with_default.
  - unfold fetch_location_executor.
    destruct (executor f) as [| | | | | | |e]; try reflexivity.
    unfold FetchWithout_in. destruct (heap w !! e); [|reflexivity].
    rewrite (HF e var d d'). apply as_pair_with_default.
  - unfold fetch_location_environment, not_found. repeat case_match; reflexivity.
Qed.

Lemma fetch_scan_default_free w F f var d d' order locs att :
  default_free F ->
  fetch_scan F w f var d' order locs att = fetch_scan F w f var d order locs att.
Proof.
  intros HF. revert att. induction locs as [|loc rest IH]; intros att; [reflexivity|].
  cbn [fetch_scan]. case_bool_decide; [|apply IH].
  destruct (fetch_location F w loc) as [res|] eqn:Hres; [|reflexivity].
  rewrite (resolver_default_free w F loc res f var d d' order att HF Hres).
  destruct (res f var d order att) as [[[v [|]] att1]| | |]; cbn; try reflexivity.
  apply IH.
Qed.

Lemma Fetch_default_free fuel w : default_free (Fetch fuel w).
Proof.
  induction fuel as [|n IH]; intros this var d d' order tried; [reflexivity|].
  cbn [Fetch]. unfold Fetch_in. destruct (heap w !! this) as [f|]; [|reflexivity].
  case_bool_decide; [reflexivity|].
  cbn zeta. rewrite (fetch_scan_default_free w _ f var d d' _ _ _ IH).
  destruct (fetch_scan _ _ _ _ _ _ _ _) as [[[[? ?]|] att1]| | |]; reflexivity.
Qed.

Lemma Fetch_top_of fuel w this var d order tried :
  Fetch fuel w this var d order true tried
  = omap top_of (Fetch fuel w this var d order false tried).
Proof.
  destruct fuel as [|n]; [reflexivity|].
  cbn [Fetch]. unfold Fetch_in. destruct (heap w !! this) as [f|]; [|reflexivity].
  case_bool_decide; [reflexivity|]. cbn zeta.
  destruct (fetch_scan _ _ _ _ _ _ _ _) as [[[[? ?]|] att1]| | |]; reflexivity.
Qed.

(** X9. The default decides nothing but the answer when nothing is
    found: with another default, [Fetch] finds or misses the same, gives
    the same found value, visits the same Operations and fails the same
    way, and a miss carries the new default.  A top call gives the value
    of the pair a nested call gives. *)
Theorem Fetch_default_only_on_miss fuel w this var d d' order tried :
  Fetch fuel w this var d' order false tried
  = omap (with_default d') (Fetch fuel w this var d order false tried)
  /\ Fetch fuel w this var d order true tried
     = omap top_of (Fetch fuel w this var d order false tried)
  /\ forall v found att',
       Fetch fuel w this var d order false tried = Ok (Nested v found, att') ->
       found = false -> v = d.
Proof.
  split; [apply Fetch_default_free|]. split; [apply Fetch_top_of|].
  intros v found att' E ->.
  pose proof (Fetch_default_free fuel w this var d d order tried) as Hd.
  rewrite E in Hd. cbn in Hd. congruence.
Qed.
End ResolutionFacts.

(** ** Further properties of initialization *)

Section InitializationFacts.
Context {FT : PyFloat} {RT : PyRuntime}.
Local Open Scope nat_scope.
Implicit Types (w : World) (f : Functor).

(** *** Registering the scopes *)













(** *** Removing duplicate arguments *)

Lemma update_again w this f1 (g : Functor -> Functor) :
  update this g (set_heap w (<[this := f1]> (heap w)))
  = Returns tt (set_heap w (<[this := g f1]> (heap w))).
Proof.
  rewrite (update_run _ this f1 g (lookup_set_heap w this f1)).
  unfold set_heap. cbn [heap environ builtins programs].
  rewrite insert_insert_eq. reflexivity.
Qed.

Lemma RemoveDuplicateArgs_run w this f :
  heap w !! this = Some f ->
  RemoveDuplicateArgs this w
  = Returns tt
      (set_heap w
         (<[this := set_required f
                      (passes_over (map fst (optionalKWArgs f))
                         (fromkeys (requiredKWArgs f)))
                      (fromkeys (requiredMethods f))
                      (fromkeys (requiredPrograms f))]> (heap w))).
Proof.
  intros Hf. unfold RemoveDuplicateArgs, bindM at 1.
  rewrite (update_run w this f _ Hf). unfold bindM at 1.
  rewrite (self_run _ this _ (lookup_set_heap w this _)).
  unfold bindM at 1, pure. cbn [requiredKWArgs optionalKWArgs set_required].
  rewrite remove_optional_fromkeys. rewrite update_again. reflexivity.
Qed.

(** No two neighbours of the list are both optional. *)
Fixpoint apart (optional l : list string) : bool :=
  match l with
  | [] => true
  | x :: r =>
      match r with
      | [] => true
      | y :: _ => negb (bool_decide (x ∈ optional) && bool_decide (y ∈ optional))
      end && apart optional r
  end.

Lemma passes_over_sublist optional l : passes_over optional l `sublist_of` l.
Proof.
  enough (passes_over optional l `sublist_of` l
          /\ forall x, passes_over optional (x :: l) `sublist_of` x :: l) as [H _];
    [exact H|].
  induction l as [|y l [IH1 IH2]].
  - split; [constructor|]. intros x. cbn. case_bool_decide; repeat constructor.
  - split; [apply IH2|]. intros x. cbn [passes_over].
    case_bool_decide.
    + apply sublist_cons. apply sublist_skip. exact IH1.
    + apply sublist_skip. apply IH2.
Qed.

Lemma passes_over_keeps optional l x :
  x ∈ l -> x ∉ optional -> x ∈ passes_over optional l.
Proof.
  intros Hin Hx.
  enough ((x ∈ l -> x ∈ passes_over optional l)
          /\ forall y, x ∈ y :: l -> x ∈ passes_over optional (y :: l)) as [H _];
    [exact (H Hin)|]. clear Hin.
  induction l as [|z l [IH1 IH2]].
  - split; [intros Hn; inversion Hn|]. intros y [->|Hn]%elem_of_cons; [|inversion Hn].
    cbn. rewrite bool_decide_eq_false_2; [left|exact Hx].
  - split; [apply IH2|]. intros y Hy. cbn [passes_over]. case_bool_decide as Hopt.
    + apply elem_of_cons in Hy as [->|Hy]; [contradiction|].
      apply elem_of_cons in Hy as [->|Hy]; [left|right; apply IH1; exact Hy].
    + apply elem_of_cons in Hy as [->|Hy]; [left|right; apply IH2; exact Hy].
Qed.

Lemma passes_over_apart optional l :
  apart optional l = true ->
  passes_over optional l = filter (fun x => x ∉ optional) l.
Proof.
  enough ((apart optional l = true ->
           passes_over optional l = filter (fun x => x ∉ optional) l)
          /\ forall x, apart optional (x :: l) = true ->
               passes_over optional (x :: l) = filter (fun x => x ∉ optional) (x :: l))
    as [H _]; [exact H|].
  induction l as [|y l [IH1 IH2]].
  - split; [reflexivity|]. intros x _. cbn [passes_over]. rewrite filter_cons.
    case_bool_decide; [rewrite decide_False by tauto|rewrite decide_True by tauto];
      reflexivity.
  - split; [apply IH2|]. intros x Hap.
    change (apart optional (x :: y :: l))
      with (negb (bool_decide (x ∈ optional) && bool_decide (y ∈ optional))
            && apart optional (y :: l))%bool in Hap.
    apply andb_true_iff in Hap as [Hxy Hap].
    cbn [passes_over]. rewrite (filter_cons _ x).
    case_bool_decide as Hx.
    + rewrite decide_False by tauto.
      cbn [andb] in Hxy.
      apply negb_true_iff, bool_decide_eq_false in Hxy.
      rewrite (filter_cons _ y), decide_True by exact Hxy. f_equal.
      apply IH1. destruct l as [|z l]; [reflexivity|].
      cbn [apart] in Hap. apply andb_true_iff in Hap as [_ Hap]. exact Hap.
    + rewrite decide_True by exact Hx. f_equal. apply IH2. exact Hap.
Qed.

(** X12. [RemoveDuplicateArgs] always completes.  It leaves each of
    the three lists without repetitions and in first-occurrence order;
    the required arguments it keeps are a sub-sequence of the declared
    ones that holds every declared name that is not optional; and when
    no two neighbours of the deduplicated list are both optional, it
    holds no optional name at all. *)
Theorem RemoveDuplicateArgs_result w this f :
  heap w !! this = Some f ->
  let optional := map fst (optionalKWArgs f) in
  exists kw,
    RemoveDuplicateArgs this w
    = Returns tt
        (set_heap w
           (<[this := set_required f kw (fromkeys (requiredMethods f))
                        (fromkeys (requiredPrograms f))]> (heap w)))
    /\ kw `sublist_of` fromkeys (requiredKWArgs f)
    /\ NoDup kw
    /\ (forall x, x ∈ requiredKWArgs f -> x ∉ optional -> x ∈ kw)
    /\ (apart optional (fromkeys (requiredKWArgs f)) = true ->
        kw = filter (fun x => x ∉ optional) (fromkeys (requiredKWArgs f))).
Proof.
  intros Hf optional. eexists. split; [apply RemoveDuplicateArgs_run; exact Hf|].
  split; [apply passes_over_sublist|].
  split; [eapply sublist_NoDup; [apply fromkeys_NoDup|apply passes_over_sublist]|].
  split; [|apply passes_over_apart].
  intros x Hx Hopt. apply passes_over_keeps; [|exact Hopt].
  apply fromkeys_elem. exact Hx.
Qed.

(** *** One-time initialization *)

Definition not_in_path (prog : string) : exn :=
  FunctorError (prog +:+ " required but not found in path.").

Lemma check_programs w (l : list string) :
  for_each l (fun prog =>
    fun w => if bool_decide (prog ∈ programs w) then Returns tt w
             else Raises (FunctorError (prog +:+ " required but not found in path.")) w) w
  = match list_find (fun p => p ∉ programs w) l with
    | Some (_, prog) => Raises (not_in_path prog) w
    | None => Returns tt w
    end.
Proof.
  induction l as [|x l IH]; [reflexivity|].
  cbn [for_each list_find]. unfold bindM at 1. case_bool_decide as Hx.
  - rewrite decide_False by tauto. rewrite IH.
    destruct (list_find _ l) as [[i y]|]; reflexivity.
  - rewrite decide_True by exact Hx. reflexivity.
Qed.

Definition initialized_from (f : Functor) : Functor :=
  set_required
    (set_fetchLocations f (populate_locations (fetchFrom f) (fetchLocations f)))
    (passes_over (map fst (optionalKWArgs f)) (fromkeys (requiredKWArgs f)))
    (fromkeys (requiredMethods f)) (fromkeys (requiredPrograms f)).

Lemma Initialize_run w this f :
  heap w !! this = Some f -> initialized f = false ->
  Initialize this w
  = match list_find (fun p => p ∉ programs w) (fromkeys (requiredPrograms f)) with
    | Some (_, prog) =>
        Raises (not_in_path prog) (set_heap w (<[this := initialized_from f]> (heap w)))
    | None =>
        Returns tt
          (set_heap w (<[this := set_initialized (initialized_from f) true]> (heap w)))
    end.
Proof.
  intros Hf Hi. unfold Initialize, bindM at 1. rewrite (self_run w this f Hf), Hi.
  unfold bindM at 1, PopulateFetchLocations. rewrite (update_run w this f _ Hf).
  unfold bindM at 1.
  rewrite (RemoveDuplicateArgs_run _ this _ (lookup_set_heap w this _)).
  assert (forall g1 g2 : Functor,
            set_heap (set_heap w (<[this := g1]> (heap w)))
              (<[this := g2]> (heap (set_heap w (<[this := g1]> (heap w)))))
            = set_heap w (<[this := g2]> (heap w))) as Hset.
  { intros g1 g2. unfold set_heap. cbn [heap environ builtins programs].
    rewrite insert_insert_eq. reflexivity. }
  rewrite Hset. unfold bindM at 1.
  rewrite (self_run _ this _ (lookup_set_heap w this _)).
  unfold bindM at 1. rewrite check_programs.
  cbn [programs set_heap requiredPrograms set_required].
  fold (initialized_from f).
  destruct (list_find _ _) as [[i prog]|]; [reflexivity|].
  rewrite update_again. reflexivity.
Qed.

Lemma initialized_from_programs f :
  fromkeys (requiredPrograms (initialized_from f)) = fromkeys (requiredPrograms f).
Proof. cbn. apply fromkeys_idempotent. Qed.

(** X13. [Initialize] runs once.  On an initialized Operation it
    changes nothing.  Otherwise it either sets [initialized], every
    required program being on the path, after which a further call
    changes nothing; or it raises [FunctorError] for a required program
    that is not on the path and leaves [initialized] unset, so that the
    next call checks again and, on the same host, fails the same way. *)
Theorem Initialize_once w this f :
  heap w !! this = Some f ->
  (initialized f = true -> Initialize this w = Returns tt w)
  /\ (forall w', Initialize this w = Returns tt w' ->
        exists f', heap w' !! this = Some f' /\ initialized f' = true
          /\ Initialize this w' = Returns tt w'
          /\ (initialized f = false ->
              forall prog, prog ∈ requiredPrograms f -> prog ∈ programs w))
  /\ (forall e w', Initialize this w = Raises e w' ->
        exists prog f',
          e = FunctorError (prog +:+ " required but not found in path.")
          /\ prog ∈ requiredPrograms f /\ (prog ∉ programs w)
          /\ heap w' !! this = Some f' /\ initialized f' = false
          /\ exists w'', Initialize this w' = Raises e w'')
  /\ ((exists w', Initialize this w = Returns tt w')
      \/ exists e w', Initialize this w = Raises e w').
Proof.
  intros Hf.
  assert (initialized f = true -> Initialize this w = Returns tt w) as Hdone.
  { intros Hi. unfold Initialize, bindM. rewrite (self_run w this f Hf), Hi.
    reflexivity. }
  split; [exact Hdone|].
  destruct (initialized f) eqn:Hi.
  { rewrite (Hdone eq_refl). split; [|split; [discriminate|left; eauto]].
    intros w' [= <-]. exists f. split; [exact Hf|]. split; [exact Hi|].
    split; [exact (Hdone eq_refl)|discriminate]. }
  rewrite (Initialize_run w this f Hf Hi).
  destruct (list_find _ _) as [[i prog]|] eqn:Hfind.
  - split; [discriminate|]. split; [|right; eauto].
    intros e w' [= <- <-]. apply list_find_Some in Hfind as (Hl & Hmiss & Hfirst).
    exists prog, (initialized_from f). split; [reflexivity|].
    split; [apply fromkeys_elem; eapply list_elem_of_lookup_2; exact Hl|].
    split; [exact Hmiss|]. split; [apply lookup_set_heap|].
    split; [exact Hi|].
    rewrite (Initialize_run _ this (initialized_from f)
               (lookup_set_heap w this (initialized_from f)) Hi).
    rewrite initialized_from_programs. cbn [programs set_heap].
    destruct (list_find _ _) as [[j prog']|] eqn:Hfind'.
    + apply list_find_Some in Hfind' as (Hl' & Hmiss' & Hfirst').
      eexists. f_equal.
      destruct (Nat.lt_trichotomy i j) as [Hlt|[->|Hlt]].
      * exfalso. exact (Hfirst' i prog Hl Hlt Hmiss).
      * congruence.
      * exfalso. exact (Hfirst j prog' Hl' Hlt Hmiss').
    + exfalso. apply list_find_None in Hfind'.
      rewrite Forall_forall in Hfind'.
      apply (Hfind' prog); [eapply list_elem_of_lookup_2; exact Hl|exact Hmiss].
  - split; [|split; [discriminate|left; eauto]].
    intros w' [= <-]. eexists. split; [apply lookup_set_heap|].
    split; [reflexivity|]. split.
    + unfold Initialize, bindM.
      rewrite (self_run _ this _ (lookup_set_heap w this _)). reflexivity.
    + intros _ prog Hp. apply list_find_None in Hfind.
      rewrite Forall_forall in Hfind.
      destruct (decide (prog ∈ programs w)) as [Hin|Hout]; [exact Hin|].
      exfalso. apply (Hfind prog); [apply fromkeys_elem; exact Hp|exact Hout].
Qed.
End InitializationFacts.

(** ** Further properties of the lifecycle *)

Section AttributeFacts.
Context {FT : PyFloat} {RT : PyRuntime}.
Implicit Types (w : World) (f : Functor).

(** *** Storing an attribute *)

Lemma field_value_set_members f m a : field_value (set_members f m) a = field_value f a.
Proof. reflexivity. Qed.

Lemma field_value_set_next f v a :
  a <> "next" -> field_value (set_next f v) a = field_value f a.
Proof.
  intros Ha. apply String.eqb_neq in Ha. unfold field_value. rewrite Ha. reflexivity.
Qed.

Lemma setattr_cases f key v f' :
  setattr f key v = Ok f' ->
  (key = "next" /\ f' = set_next f v)
  \/ (key <> "next" /\ field_value f key = None /\ is_opaque key = false
      /\ f' = set_members f (<[key := v]> (members f))).
Proof.
  unfold setattr. destruct (String.eqb_spec key "next") as [->|Hk].
  - intros [= <-]. left. split; reflexivity.
  - destruct (field_value f key) eqn:Hfv; [discriminate|].
    destruct (is_opaque key) eqn:Hop; [discriminate|].
    destruct (_ || _)%bool; [discriminate|].
    intros [= <-]. right. split; [exact Hk|]. split; [reflexivity|].
    split; reflexivity.
Qed.

Lemma setattr_other f key v f' a :
  setattr f key v = Ok f' -> a <> key ->
  GetAttr f' a = GetAttr f a /\ HasAttr f' a = HasAttr f a.
Proof.
  intros [[-> ->]|(Hk & _ & _ & ->)]%setattr_cases Ha; unfold GetAttr, HasAttr.
  - cbn [members set_next]. rewrite (field_value_set_next f v a Ha). split; reflexivity.
  - cbn [members set_members]. rewrite lookup_insert_ne by congruence.
    rewrite field_value_set_members. split; reflexivity.
Qed.

Lemma setattr_same f key v f' :
  setattr f key v = Ok f' -> members f !! "next" = None ->
  GetAttr f' key = Ok v /\ HasAttr f' key = true.
Proof.
  intros [[-> ->]|(Hk & _ & _ & ->)]%setattr_cases Hn; unfold GetAttr, HasAttr.
  - cbn [members set_next]. rewrite Hn. split; reflexivity.
  - cbn [members set_members]. rewrite lookup_insert_eq. split; reflexivity.
Qed.

Lemma setattr_answers f key v : setattr f key v <> OutOfFuel /\ forall e, setattr f key v <> Raise e.
Proof.
  unfold setattr. split; [|intros e]; repeat case_match; discriminate.
Qed.

Lemma Set_run w this f var v ev :
  heap w !! this = Some f ->
  Set_ this var v ev w
  = match EvaluateToType f v ev with
    | Ok v' =>
        match setattr f (override_name f var) v' with
        | Ok f' => Returns tt (set_heap w (<[this := f']> (heap w)))
        | Raise e => Raises e w
        | OutOfFuel => NoFuel
        | Unmodelled => NotModelled
        end
    | Raise e => Raises e w
    | OutOfFuel => NoFuel
    | Unmodelled => NotModelled
    end.
Proof.
  intros Hf. unfold Set_, bindM at 1. rewrite (self_run w this f Hf).
  unfold bindM at 1, pure at 1. destruct (EvaluateToType f v ev) as [v'| | |];
    try reflexivity.
  unfold bindM at 1, pure at 1.
  destruct (setattr f (override_name f var) v') as [f'| | |]; try reflexivity.
  apply (update_run w this f _ Hf).
Qed.

(** X14. [Set] stores the coerced value under the name the
    configuration overrides give, and touches nothing else: afterwards
    that attribute reads back as the coerced value, every other attribute
    of the Operation reads as before, and the other Operations, the
    environment, the builtins and the programs are as they were.  When
    the coercion raises, nothing has changed. *)
Theorem Set_stores w this f var v ev :
  heap w !! this = Some f ->
  (forall w', Set_ this var v ev w = Returns tt w' ->
     exists v' f',
       EvaluateToType f v ev = Ok v'
       /\ w' = set_heap w (<[this := f']> (heap w))
       /\ (members f !! "next" = None ->
           GetAttr f' (override_name f var) = Ok v'
           /\ HasAttr f' (override_name f var) = true)
       /\ (forall a, a <> override_name f var ->
             GetAttr f' a = GetAttr f a /\ HasAttr f' a = HasAttr f a)
       /\ (forall other, other <> this -> heap w' !! other = heap w !! other))
  /\ (forall e w', Set_ this var v ev w = Raises e w' ->
        w' = w /\ EvaluateToType f v ev = Raise e).
Proof.
  intros Hf. rewrite (Set_run w this f var v ev Hf).
  destruct (EvaluateToType f v ev) as [v'| | |]; try (split; discriminate).
  - destruct (setattr f (override_name f var) v') as [f'| | |] eqn:Hs;
      try (split; discriminate).
    + split; [|discriminate]. intros w' [= <-]. exists v', f'.
      split; [reflexivity|]. split; [reflexivity|].
      split; [intros Hn; exact (setattr_same _ _ _ _ Hs Hn)|].
      split; [intros a Ha; exact (setattr_other _ _ _ _ a Hs Ha)|].
      intros other Ho. cbn. apply lookup_insert_ne. congruence.
    + exfalso. exact (proj2 (setattr_answers f (override_name f var) v') e Hs).
  - split; [discriminate|]. intros e' w' [= <- <-]. split; reflexivity.
Qed.


(** *** Links to the predecessor and the executor *)

(** X15. [PopulatePrecursor] takes the links from the key-word
    arguments.  The predecessor is the [precursor] argument of this
    invocation or none: one kept from an earlier invocation does not
    survive.  An executor already set is kept, and an [executor] argument
    then stays among the key-word arguments; an executor not yet set is
    taken from them.  [precursor] is removed from the key-word arguments
    and the others are untouched.  A [precursor] argument that is not an
    Operation raises [AttributeError], the links being already set. *)
Theorem PopulatePrecursor_links w this f kw :
  heap w !! this = Some f -> kwargs f = Some kw ->
  exists f' kw',
    let w' := set_heap w (<[this := f']> (heap w)) in
    f' = set_links f (default VNone (kw !! "precursor"))
           (if is_none (executor f) then default VNone (kw !! "executor")
            else executor f)
           (Some kw')
    /\ kw' !! "precursor" = None
    /\ kw' !! "executor" = (if is_none (executor f) then None else kw !! "executor")
    /\ (forall k, k <> "precursor" -> k <> "executor" -> kw' !! k = kw !! k)
    /\ match kw !! "precursor" with
       | None => PopulatePrecursor this w = Returns tt w'
       | Some (VRef r) =>
           heap w !! r <> None -> PopulatePrecursor this w = Returns tt w'
       | Some _ => PopulatePrecursor this w = Raises (AttributeError "name") w'
       end.
Proof.
  intros Hf Hkw.
  set (e := if is_none (executor f) then default VNone (kw !! "executor")
            else executor f).
  set (kw1 := if is_none (executor f) then delete "executor" kw else kw).
  assert (kw1 !! "precursor" = kw !! "precursor") as Hp1.
  { subst kw1. destruct (is_none (executor f)); [|reflexivity].
    apply lookup_delete_ne. discriminate. }
  exists (set_links f (default VNone (kw !! "precursor")) e
            (Some (delete "precursor" kw1))), (delete "precursor" kw1).
  cbn zeta. split; [reflexivity|]. split; [apply lookup_delete_eq|].
  split.
  { rewrite lookup_delete_ne by discriminate. subst kw1.
    destruct (is_none (executor f)); [apply lookup_delete_eq|reflexivity]. }
  split.
  { intros k Hk1 Hk2. rewrite lookup_delete_ne by congruence. subst kw1.
    destruct (is_none (executor f)); [|reflexivity].
    apply lookup_delete_ne. congruence. }
  assert ((if is_none (executor f) then
             match kw !! "executor" with
             | Some x => (x, delete "executor" kw)
             | None => (executor f, kw)
             end
           else (executor f, kw)) = (e, kw1)) as Hpair.
  { subst e kw1. destruct (is_none (executor f)) eqn:He; [|reflexivity].
    destruct (kw !! "executor") as [x|] eqn:Hx; [reflexivity|].
    rewrite (delete_id _ _ Hx). destruct (executor f); try discriminate He.
    reflexivity. }
  assert (PopulatePrecursor this w
          = match kw1 !! "precursor" with
            | Some p =>
                update this (fun f => set_links f p e (Some (delete "precursor" kw1))) ;;;
                match p with
                | VRef r => (fun w => match heap w !! r with
                                      | Some _ => Returns tt w
                                      | None => NotModelled
                                      end)
                | _ => raise (AttributeError "name")
                end
            | None => update this (fun f => set_links f VNone e (Some kw1))
            end w) as ->.
  { unfold PopulatePrecursor, bindM at 1. rewrite (self_run w this f Hf).
    unfold bindM at 1, pure. rewrite Hkw, Hpair. reflexivity. }
  rewrite Hp1. destruct (kw !! "precursor") as [p|] eqn:Hp.
  - unfold bindM. rewrite (update_run w this f _ Hf). cbn [default from_option id].
    destruct p as [| | | | | | |r]; try reflexivity.
    intros Hr. cbn [heap set_heap].
    destruct (decide (r = this)) as [->|Hne].
    + rewrite lookup_insert_eq. reflexivity.
    + rewrite lookup_insert_ne by congruence.
      destruct (heap w !! r); [reflexivity|contradiction].
  - rewrite (update_run w this f _ Hf). cbn [default from_option id].
    rewrite (delete_id kw1 "precursor" Hp1). reflexivity.
Qed.

(** *** Binding the arguments *)

Lemma bindM_Returns {S A B} (m : M S A) (k : A -> M S B) s b s' :
  bindM m k s = Returns b s' ->
  exists a s1, m s = Returns a s1 /\ k a s1 = Returns b s'.
Proof.
  unfold bindM. destruct (m s) as [a s1| | |]; try discriminate. eauto.
Qed.

Lemma self_Returns w this f w1 :
  self this w = Returns f w1 -> w1 = w /\ heap w !! this = Some f.
Proof.
  unfold self. destruct (heap w !! this); [|discriminate].
  intros [= <- <-]. split; reflexivity.
Qed.

Lemma pure_Returns {S A} (g : S -> outcome A) s a s1 :
  pure g s = Returns a s1 -> s1 = s /\ g s = Ok a.
Proof.
  unfold pure. destruct (g s); try discriminate. intros [= <- <-]. split; reflexivity.
Qed.

(** What [Set] leaves alone on the way through [ValidateArgs]. *)
Record keeps (f f' : Functor) : Prop := mkKeeps {
  keeps_required : requiredKWArgs f' = requiredKWArgs f;
  keeps_optional : optionalKWArgs f' = optionalKWArgs f;
  keeps_overrides : configNameOverrides f' = configNameOverrides f;
  keeps_attrs : forall a, HasAttr f a = true -> HasAttr f' a = true
}.

Lemma keeps_refl f : keeps f f.
Proof. split; auto. Qed.

Lemma keeps_trans f1 f2 f3 : keeps f1 f2 -> keeps f2 f3 -> keeps f1 f3.
Proof.
  intros [R1 O1 C1 A1] [R2 O2 C2 A2]. split; [congruence..|auto].
Qed.

Lemma setattr_keeps f key v f' :
  setattr f key v = Ok f' -> keeps f f' /\ HasAttr f' key = true.
Proof.
  intros Hs.
  assert (HasAttr f' key = true) as Hkey.
  { destruct (setattr_cases f key v f' Hs) as [[-> ->]|(_ & _ & _ & ->)];
      unfold HasAttr.
    - cbn [members set_next]. destruct (members f !! "next"); reflexivity.
    - cbn [members set_members]. rewrite lookup_insert_eq. reflexivity. }
  split; [|exact Hkey].
  split; try (destruct (setattr_cases f key v f' Hs) as [[-> ->]|(_ & _ & _ & ->)];
              reflexivity).
  intros a Ha. destruct (decide (a = key)) as [->|Hne]; [exact Hkey|].
  rewrite (proj2 (setattr_other f key v f' a Hs Hne)). exact Ha.
Qed.

Definition kept (this : nat) (f0 : Functor) w : Prop :=
  exists f', heap w !! this = Some f' /\ keeps f0 f'.

Definition has_bound (this : nat) (f0 : Functor) (x : string) w : Prop :=
  exists f', heap w !! this = Some f' /\ keeps f0 f'
             /\ HasAttr f' (override_name f0 x) = true.

Lemma Set_keeps this f0 w var v ev w' :
  kept this f0 w -> Set_ this var v ev w = Returns tt w' ->
  kept this f0 w' /\ has_bound this f0 var w'
  /\ forall x, has_bound this f0 x w -> has_bound this f0 x w'.
Proof.
  intros (f1 & H1 & K1). rewrite (Set_run w this f1 var v ev H1).
  destruct (EvaluateToType f1 v ev) as [v'| | |]; try discriminate.
  destruct (setattr f1 (override_name f1 var) v') as [f'| | |] eqn:Hs;
    try discriminate.
  intros [= <-]. destruct (setattr_keeps _ _ _ _ Hs) as [K Hkey].
  pose proof (keeps_trans _ _ _ K1 K) as K'.
  pose proof (lookup_set_heap w this f') as Hl.
  split; [exists f'; split; assumption|]. split.
  - exists f'. split; [exact Hl|]. split; [exact K'|].
    unfold override_name in *. rewrite <- (keeps_overrides _ _ K1). exact Hkey.
  - intros x (f2 & H2 & _ & Hx). rewrite H1 in H2. injection H2 as <-.
    exists f'. split; [exact Hl|]. split; [exact K'|].
    apply (keeps_attrs _ _ K). exact Hx.
Qed.

Lemma for_each_binds {A} this f0 (l : list A) (key : A -> string)
    (body : A -> M World unit) w w' :
  (forall x w1 w2, x ∈ l -> kept this f0 w1 ->
     (forall y, has_bound this f0 y w -> has_bound this f0 y w1) ->
     body x w1 = Returns tt w2 ->
     (w2 = w1 /\ has_bound this f0 (key x) w1)
     \/ exists v ev, Set_ this (key x) v ev w1 = Returns tt w2) ->
  kept this f0 w -> for_each l body w = Returns tt w' ->
  kept this f0 w'
  /\ (forall x, x ∈ l -> has_bound this f0 (key x) w')
  /\ (forall y, has_bound this f0 y w -> has_bound this f0 y w').
Proof.
  revert w. induction l as [|x l IH]; intros w Hbody Hk; cbn [for_each].
  - intros [= <-]. split; [exact Hk|]. split; [|auto].
    intros x Hx. inversion Hx.
  - intros ([] & w1 & Hx & Hrest)%bindM_Returns.
    assert (kept this f0 w1 /\ has_bound this f0 (key x) w1
            /\ forall y, has_bound this f0 y w -> has_bound this f0 y w1)
      as (K1 & B1 & M1).
    { destruct (Hbody x w w1 ltac:(left) Hk ltac:(auto) Hx)
        as [[-> Hb]|(v & ev & Hset)].
      - split; [exact Hk|]. split; [exact Hb|auto].
      - exact (Set_keeps this f0 w (key x) v ev w1 Hk Hset). }
    destruct (IH w1) as (K' & B' & M'); [|exact K1|exact Hrest|].
    { intros y w2 w3 Hy Hk2 Hmono. apply Hbody; [right; exact Hy|exact Hk2|].
      intros z Hz. apply Hmono, M1, Hz. }
    split; [exact K'|]. split; [|auto].
    intros y [->|Hy]%elem_of_cons; [apply M'; exact B1|apply B'; exact Hy].
Qed.

Lemma elem_of_map_fst {A B} (l : list (A * B)) x :
  x ∈ map fst l <-> exists y, (x, y) ∈ l.
Proof.
  induction l as [|[a b] l IH]; cbn [map fst].
  - split; [intros Hx; inversion Hx|intros [y Hy]; inversion Hy].
  - rewrite elem_of_cons, IH. split.
    + intros [->|[y Hy]]; [exists b; left|exists y; right; exact Hy].
    + intros [y [[= -> ->]|Hy]%elem_of_cons]; [left; reflexivity|right; eauto].
Qed.

Lemma dict_set_keys d k v x :
  x ∈ map fst (dict_set d k v) <-> x = k \/ x ∈ map fst d.
Proof.
  induction d as [|[k' v'] d IH]; cbn [dict_set map fst].
  - set_solver.
  - case_bool_decide as Hk; cbn [map fst]; [subst k'; set_solver|].
    rewrite !elem_of_cons, IH. tauto.
Qed.

Lemma dict_zip_keys acc names values x :
  x ∈ map fst (dict_zip acc names values)
  <-> x ∈ map fst acc \/ x ∈ take (length values) names.
Proof.
  revert acc values. induction names as [|k ks IH]; intros acc values.
  - cbn. rewrite take_nil. set_solver.
  - destruct values as [|v vs]; cbn [dict_zip length take]; [set_solver|].
    rewrite IH, dict_set_keys, elem_of_cons. tauto.
Qed.

(** X16. What a completed [ValidateArgs] guarantees: there were no
    more positional arguments than [argMapping] names, and afterwards the
    Operation has an attribute for every name that a positional argument
    filled, for every required argument and for every optional argument,
    each under the name the configuration overrides give it.  No
    attribute the Operation had is lost, and the declared arguments are
    as they were. *)
Theorem ValidateArgs_binds fuel w this f a w' :
  heap w !! this = Some f -> args f = Some a ->
  ValidateArgs fuel this w = Returns tt w' ->
  (length a <= length (argMapping f))%nat
  /\ exists f',
       heap w' !! this = Some f'
       /\ (forall k, k ∈ take (length a) (argMapping f) \/ k ∈ requiredKWArgs f
                     \/ k ∈ map fst (optionalKWArgs f) ->
             HasAttr f' (override_name f k) = true)
       /\ (forall k, HasAttr f k = true -> HasAttr f' k = true)
       /\ requiredKWArgs f' = requiredKWArgs f
       /\ optionalKWArgs f' = optionalKWArgs f.
Proof.
  intros Hf Ha. unfold ValidateArgs.
  intros (f_ & w1 & [-> H1]%self_Returns & Hrun)%bindM_Returns.
  rewrite Hf in H1. injection H1 as <-.
  apply bindM_Returns in Hrun as (a_ & w1 & [-> H2]%pure_Returns & Hrun).
  rewrite Ha in H2. injection H2 as <-.
  destruct (Nat.ltb (length (argMapping f)) (length a)) eqn:Hlt; [discriminate Hrun|].
  apply Nat.ltb_ge in Hlt. split; [exact Hlt|].
  set (argMap := dict_zip [] (take (length a) (argMapping f)) a) in *.
  assert (forall k, k ∈ map fst argMap <-> k ∈ take (length a) (argMapping f)) as Hkeys.
  { intros k. unfold argMap. rewrite dict_zip_keys, take_take, Nat.min_id.
    cbn [map]. set_solver. }
  apply bindM_Returns in Hrun as ([] & w1 & Hloop1 & Hrun).
  apply bindM_Returns in Hrun as (f1 & w1' & [-> Hf1]%self_Returns & Hrun).
  apply bindM_Returns in Hrun as ([] & w2 & Hloop2 & Hrun).
  apply bindM_Returns in Hrun as (f2 & w2' & [-> Hf2]%self_Returns & Hloop3).
  assert (kept this f w) as K0 by (exists f; split; [exact Hf|apply keeps_refl]).
  (* the positional arguments *)
  destruct (for_each_binds this f argMap fst
              (fun kv => Set_ this kv.1 kv.2 true) w w1) as (K1 & B1 & _);
    [|exact K0|exact Hloop1|].
  { intros kv w3 w4 _ _ _ Hset. right. exists kv.2, true. exact Hset. }
  assert (forall k, k ∈ map fst argMap -> has_bound this f k w1) as B1'.
  { intros k [y Hy]%elem_of_map_fst. exact (B1 (k, y) Hy). }
  (* the required arguments *)
  assert (requiredKWArgs f1 = requiredKWArgs f) as Hreq.
  { destruct K1 as (g & Hg & K). rewrite Hf1 in Hg. injection Hg as <-.
    apply (keeps_required _ _ K). }
  rewrite Hreq in Hloop2.
  lazymatch type of Hloop2 with
  | for_each _ ?body _ = _ =>
      destruct (for_each_binds this f (requiredKWArgs f) id body w1 w2)
        as (K2 & B2 & M2); [|exact K1|exact Hloop2|]
  end.
  { intros rkw w3 w4 _ _ Hmono. case_bool_decide as Hin.
    - intros [= <-]. left. split; [reflexivity|]. apply Hmono, B1', Hin.
    - intros (r & w5 & [-> Hr]%pure_Returns & Hset)%bindM_Returns.
      destruct r as [[fetched found] att]. destruct found; [|discriminate Hset].
      right. exists fetched, true. exact Hset. }
  (* the optional arguments *)
  assert (optionalKWArgs f2 = optionalKWArgs f) as Hopt.
  { destruct K2 as (g & Hg & K). rewrite Hf2 in Hg. injection Hg as <-.
    apply (keeps_optional _ _ K). }
  rewrite Hopt in Hloop3.
  lazymatch type of Hloop3 with
  | for_each _ ?body _ = _ =>
      destruct (for_each_binds this f (optionalKWArgs f) fst body w2 w')
        as (K3 & B3 & M3); [|exact K2|exact Hloop3|]
  end.
  { intros [okw dflt] w3 w4 _ _ Hmono. case_bool_decide as Hin.
    - intros [= <-]. left. split; [reflexivity|]. apply Hmono, M2, B1', Hin.
    - intros (v & w5 & [-> Hr]%pure_Returns & Hset)%bindM_Returns.
      right. exists v, true. exact Hset. }
  destruct K3 as (f' & Hf' & K). exists f'. split; [exact Hf'|].
  split; [|split; [apply (keeps_attrs _ _ K)|split; [apply (keeps_required _ _ K)|
                                                      apply (keeps_optional _ _ K)]]].
  assert (forall k, has_bound this f k w' -> HasAttr f' (override_name f k) = true)
    as Hb.
  { intros k (g & Hg & _ & Hattr). rewrite Hf' in Hg. injection Hg as <-.
    exact Hattr. }
  intros k [Hk|[Hk|Hk]]; apply Hb.
  - apply M3, M2, B1', Hkeys, Hk.
  - apply M3. exact (B2 k Hk).
  - apply elem_of_map_fst in Hk as [y Hy]. exact (B3 (k, y) Hy).
Qed.
End AttributeFacts.

(** ** Further properties of an invocation *)

Section InvocationFacts.
Context {FT : PyFloat} {RT : PyRuntime}.
Implicit Types (w : World) (f : Functor) (p : Process).

(** *** The successor queue *)

(** X17. [CallNext] at its edges.  With an empty queue, or a [next]
    that is no list, it returns [None] and does nothing.  With a
    successor queued and no executor it raises [InvalidNext], and so it
    does when [ValidateNext] refuses the successor, [Execute] not being
    called; in both cases the successor has already been taken off the
    queue. *)
Theorem CallNext_edges H this w tr ev f :
  heap w !! this = Some f ->
  let popped q := set_heap w (<[this := set_next f (VList q)]> (heap w)) in
  (match next f with VList (_ :: _) => False | _ => True end ->
     CallNext H this (mkProcess w tr ev) = Returns VNone (mkProcess w tr ev))
  /\ (forall s q, next f = VList (s :: q) -> executor f = VNone ->
        CallNext H this (mkProcess w tr ev)
        = Raises InvalidNext (mkProcess (popped q) tr ev))
  /\ (forall s q e w1,
        next f = VList (s :: q) -> executor f = VRef e ->
        ValidateNext H this s (popped q) = Returns false w1 ->
        CallNext H this (mkProcess w tr ev)
        = Raises InvalidNext (mkProcess w1 tr (ev ++ [EvValidateNext s]))).
Proof.
  intros Hf popped.
  assert (forall k : Functor -> M Process value,
            bindM (in_world (self this)) k (mkProcess w tr ev)
            = k f (mkProcess w tr ev)) as Hself.
  { intros k. unfold bindM, in_world, zoom. cbn [world tracker trace].
    rewrite (self_run w this f Hf). reflexivity. }
  unfold CallNext. rewrite Hself. split; [|split].
  - destruct (next f) as [| | | | |[|s q]| |]; intros Hn; try reflexivity.
    destruct Hn.
  - intros s q -> ->. unfold bindM, in_world, zoom. cbn [world tracker trace].
    rewrite (update_run w this f _ Hf). reflexivity.
  - intros s q e w1 Hn He Hval. rewrite Hn.
    rewrite (bind_in_world _ _ w tr ev tt (popped q) (update_run w this f _ Hf)).
    rewrite He. cbn [is_none]. rewrite bind_emit.
    rewrite (bind_in_world _ _ _ _ _ false w1 Hval). reflexivity.
Qed.

(** *** The exceptions that leave an invocation *)

(** What holds of the outcome of a computation, by the way it ends. *)
Definition post {S A} (m : M S A) (s : S) (Q : A -> S -> Prop) (R : exn -> S -> Prop)
  : Prop :=
  match m s with
  | Returns a s' => Q a s'
  | Raises e s' => R e s'
  | NoFuel | NotModelled => True
  end.

Lemma post_bind {S A B} (m : M S A) (k : A -> M S B) s Q R :
  post m s (fun a s1 => post (k a) s1 Q R) R -> post (bindM m k) s Q R.
Proof. unfold post, bindM. destruct (m s); auto. Qed.

Lemma post_try {S A} (m : M S A) (h : exn -> M S A) s Q R :
  post m s Q (fun e s1 => post (h e) s1 Q R) -> post (try_except m h) s Q R.
Proof. unfold post, try_except. destruct (m s); auto. Qed.

Lemma post_weaken {S A} (m : M S A) s (Q Q' : A -> S -> Prop) (R R' : exn -> S -> Prop) :
  post m s Q R -> (forall a s', Q a s' -> Q' a s') -> (forall e s', R e s' -> R' e s') ->
  post m s Q' R'.
Proof. unfold post. destruct (m s); auto. Qed.

Lemma look_run this fr :
  in_proc (in_world (self this)) fr
  = match heap (world (proc fr)) !! this with
    | Some f => Returns f fr
    | None => NotModelled
    end.
Proof.
  destruct fr as [[w t e] r n]. unfold in_proc, in_world, zoom, self.
  cbn [proc world tracker trace ret_ nextRet]. destruct (heap w !! this); reflexivity.
Qed.




(** *** The successor queue at warm-up *)

Lemma scan_next_misses F w f kw order locs att :
  kwargs f = Some kw -> kw !! "next" = None ->
  HasAttr f "config" = false ->
  precursor f = VNone ->
  (forall s, s ∈ fetchLocations f -> has_resolver s = true) ->
  (forall s, s ∈ locs -> s ∉ ["this"; "environment"; "executor"; "globals"]) ->
  fetch_scan F w f "next" (VList []) order locs att = Ok (None, att).
Proof.
  intros Hkw Hnext Hconfig Hpre Hreg. induction locs as [|loc rest IH]; intros Hlocs;
    [reflexivity|].
  assert (fetch_scan F w f "next" (VList []) order rest att = Ok (None, att)) as Hrest.
  { apply IH. intros s Hs. apply Hlocs. right. exact Hs. }
  cbn [fetch_scan]. case_bool_decide as Hin; [|exact Hrest].
  pose proof (Hlocs loc ltac:(left)) as Hloc.
  apply Hreg in Hin. unfold has_resolver in Hin. apply bool_decide_eq_true in Hin.
  rewrite !elem_of_cons in Hin. rewrite !not_elem_of_cons in Hloc.
  destruct Hloc as (N1 & N2 & N3 & N4 & _).
  destruct Hin as [->|[->|[->|[->|[->|[->|[->|Hin]]]]]]];
    try contradiction; try (inversion Hin; fail).
  - change (fetch_location F w "args") with (Some (fetch_location_args)).
    unfold fetch_location_args. rewrite Hkw, Hnext. exact Hrest.
  - change (fetch_location F w "config") with (Some (fetch_location_config)).
    unfold fetch_location_config. rewrite Hconfig. exact Hrest.
  - change (fetch_location F w "precursor")
      with (Some (fetch_location_precursor F w)).
    unfold fetch_location_precursor. rewrite Hpre. exact Hrest.
Qed.

(** X19. [PopulateNext] does not keep a queue: on an Operation with
    no predecessor and no configuration, invoked without a [next]
    argument, it sets [next] to the empty list, whatever [next] held
    before and whatever the executor, the builtins and the environment
    would answer. *)
Theorem PopulateNext_discards_queue fuel w this f kw :
  heap w !! this = Some f ->
  kwargs f = Some kw -> kw !! "next" = None ->
  HasAttr f "config" = false ->
  precursor f = VNone ->
  (forall s, s ∈ fetchLocations f -> has_resolver s = true) ->
  override_name f "next" = "next" ->
  PopulateNext (S fuel) this w
  = Returns tt (set_heap w (<[this := set_next f (VList [])]> (heap w))).
Proof.
  intros Hf Hkw Hnext Hconfig Hpre Hreg Hover.
  unfold PopulateNext, bindM, pure, FetchWithout, FetchWithout_in. rewrite Hf.
  rewrite Fetch_attempted_None.
  rewrite (Fetch_unfold fuel w this f _ _ _ _ [] Hf) by apply not_elem_of_nil.
  cbn [from_option id].
  rewrite (scan_next_misses _ w f kw _ _ _ Hkw Hnext Hconfig Hpre Hreg).
  - cbn [bind fst snd fetch_return top_value].
    rewrite (Set_run w this f "next" (VList []) false Hf), Hover. reflexivity.
  - intros s [_ Hs]%elem_of_without. exact Hs.
Qed.

(** *** The order of the calls *)

(** The calls one invocation makes when nothing raises: [Before], the
    call method, [Undo] when it failed and rollback is enabled, the
    successor validated and executed when there is one to chain to, and
    [After]. *)
Definition undo_part (l : list event) : Prop := l = [] \/ l = [EvUndo].

Definition chain_part (l : list event) : Prop :=
  l = [] \/ exists s q, l = [EvValidateNext s; EvExecute s q].

Definition script (l : list event) : Prop :=
  exists u c, undo_part u /\ chain_part c
              /\ l = [EvBefore; EvCall] ++ u ++ c ++ [EvAfter].

(** The calls of an invocation that was cut short. *)
Definition partial_script (l : list event) : Prop :=
  exists sc, script sc /\ l `prefix_of` sc.

(** A computation adds calls to the record: [Q] of those it adds when
    it returns, [R] when it raises. *)
Definition adds {S A} (tr : S -> list event) (m : M S A)
    (Q : A -> list event -> Prop) (R : list event -> Prop) : Prop :=
  forall s, post m s (fun a s' => exists l, tr s' = tr s ++ l /\ Q a l)
                     (fun _ s' => exists l, tr s' = tr s ++ l /\ R l).

Definition frame_trace (fr : Frame) : list event := trace (proc fr).

Lemma adds_bind {S A B} tr (m : M S A) (k : A -> M S B) Q1 R1 Q R :
  adds tr m Q1 R1 -> (forall l, R1 l -> R l) ->
  (forall a l1, Q1 a l1 ->
     adds tr (k a) (fun b l2 => Q b (l1 ++ l2)) (fun l2 => R (l1 ++ l2))) ->
  adds tr (bindM m k) Q R.
Proof.
  intros Hm HR Hk s. unfold post, bindM. specialize (Hm s). unfold post in Hm.
  destruct (m s) as [a s1|e s1| |]; try exact I.
  - destruct Hm as (l1 & E1 & Hq). specialize (Hk a l1 Hq s1). unfold post in Hk.
    destruct (k a s1); try exact I; destruct Hk as (l2 & E2 & H2); exists (l1 ++ l2);
      (split; [rewrite E2, E1, app_assoc; reflexivity|exact H2]).
  - destruct Hm as (l & E & Hr). exists l. split; [exact E|apply HR, Hr].
Qed.

Lemma adds_weaken {S A} tr (m : M S A) Q R (Q' : A -> list event -> Prop)
    (R' : list event -> Prop) :
  adds tr m Q R -> (forall a l, Q a l -> Q' a l) -> (forall l, R l -> R' l) ->
  adds tr m Q' R'.
Proof.
  intros Hm HQ HR s. specialize (Hm s). unfold post in *.
  destruct (m s); try exact I; destruct Hm as (l & E & Hl); exists l; auto.
Qed.

Lemma adds_ret {S A} tr (a : A) (Q : A -> list event -> Prop) R :
  Q a [] -> adds (S := S) tr (ret a) Q R.
Proof. intros Hq s. exists []. rewrite app_nil_r. auto. Qed.

Lemma adds_raise {S A} tr e (Q : A -> list event -> Prop) (R : list event -> Prop) :
  R [] -> adds (S := S) tr (raise e) Q R.
Proof. intros Hr s. exists []. rewrite app_nil_r. auto. Qed.

Lemma adds_in_world {A} (m : M World A) :
  adds trace (in_world m) (fun _ l => l = []) (fun l => l = []).
Proof.
  intros p. unfold post, in_world, zoom.
  destruct (m (world p)); try exact I; exists []; cbn [trace];
    rewrite app_nil_r; auto.
Qed.

Lemma adds_emit e : adds trace (emit e) (fun _ l => l = [e]) (fun _ => False).
Proof. intros p. exists [e]. auto. Qed.

Lemma adds_in_proc {A} (m : M Process A) Q R :
  adds trace m Q R -> adds frame_trace (in_proc m) Q R.
Proof.
  intros Hm fr. specialize (Hm (proc fr)). unfold post, in_proc, zoom in *.
  destruct (m (proc fr)); try exact I; exact Hm.
Qed.

Lemma adds_locals (g : Frame -> Frame) :
  (forall fr, proc (g fr) = proc fr) ->
  adds frame_trace (modify g) (fun _ l => l = []) (fun _ => False).
Proof.
  intros Hg fr. exists []. unfold frame_trace. rewrite Hg, app_nil_r. auto.
Qed.

Lemma adds_hook {A} e (m : M World A) :
  adds frame_trace (hook e m) (fun _ l => l = [e]) (fun l => l = [e]).
Proof.
  unfold hook. apply adds_in_proc.
  eapply adds_bind; [apply adds_emit|intros l []|]. intros [] l1 ->.
  eapply adds_weaken; [apply adds_in_world|intros a l ->; reflexivity|
                        intros l ->; reflexivity].
Qed.

Lemma chain_part_pair s q : chain_part [EvValidateNext s; EvExecute s q].
Proof. right. eauto. Qed.

Lemma adds_CallNext H this :
  adds trace (CallNext H this) (fun _ c => chain_part c)
    (fun c' => exists c, chain_part c /\ c' `prefix_of` c).
Proof.
  unfold CallNext.
  eapply adds_bind; [apply adds_in_world| |].
  { intros l ->. exists []. split; [left|]; reflexivity. }
  intros f l1 ->. cbn [app].
  destruct (next f) as [| | | | |[|s q]| |]; try (apply adds_ret; left; reflexivity).
  eapply adds_bind; [apply adds_in_world| |].
  { intros l ->. exists []. split; [left|]; reflexivity. }
  intros _ l1 ->. cbn [app].
  destruct (is_none (executor f)).
  { apply adds_raise. exists []. split; [left|]; reflexivity. }
  eapply adds_bind; [apply adds_emit|intros l []|]. intros [] l1 ->.
  eapply adds_bind; [apply adds_in_world| |].
  { intros l ->. exists [EvValidateNext s; EvExecute s VNone].
    split; [apply chain_part_pair|]. exists [EvExecute s VNone]. reflexivity. }
  intros ok l1 ->. destruct ok.
  - eapply adds_bind; [apply adds_in_world| |].
    { intros l ->. exists [EvValidateNext s; EvExecute s VNone].
      split; [apply chain_part_pair|]. exists [EvExecute s VNone]. reflexivity. }
    intros g l1 ->. cbn [app].
    destruct (executor g) as [| | | | | | |e]; try (intros p; exact I).
    + apply adds_raise. exists [EvValidateNext s; EvExecute s VNone].
      split; [apply chain_part_pair|]. exists [EvExecute s VNone]. reflexivity.
    + eapply adds_bind; [apply adds_emit|intros l []|]. intros [] l1 ->.
      eapply adds_weaken; [apply adds_in_world|..].
      * intros a l ->. apply chain_part_pair.
      * intros l ->. exists [EvValidateNext s; EvExecute s (next g)].
        split; [apply chain_part_pair|reflexivity].
  - apply adds_raise. exists [EvValidateNext s; EvExecute s VNone].
    split; [apply chain_part_pair|]. exists [EvExecute s VNone]. reflexivity.
Qed.

(** The calls of [settle]: the rollback, then the chaining. *)
Definition settled (l : list event) : Prop :=
  exists u c, undo_part u /\ chain_part c /\ l = u ++ c.

Definition within_settled (l : list event) : Prop :=
  exists l', settled l' /\ l `prefix_of` l'.

Lemma settled_chain c : chain_part c -> settled c.
Proof. intros Hc. exists [], c. split; [left; reflexivity|]. split; [exact Hc|reflexivity]. Qed.

Lemma settled_undo_chain c : chain_part c -> settled (EvUndo :: c).
Proof.
  intros Hc. exists [EvUndo], c. split; [right; reflexivity|].
  split; [exact Hc|reflexivity].
Qed.

Lemma chain_part_nil : chain_part [].
Proof. left. reflexivity. Qed.

Lemma within_settled_of l : settled l -> within_settled l.
Proof. intros Hl. exists l. split; [exact Hl|reflexivity]. Qed.

Lemma within_chain c' :
  (exists c, chain_part c /\ c' `prefix_of` c) -> within_settled c'.
Proof. intros (c & Hc & Hp). exists c. split; [apply settled_chain, Hc|exact Hp]. Qed.

Lemma within_undo_chain c' :
  (exists c, chain_part c /\ c' `prefix_of` c) -> within_settled (EvUndo :: c').
Proof.
  intros (c & Hc & Hp). exists (EvUndo :: c).
  split; [apply settled_undo_chain, Hc|]. apply prefix_cons. exact Hp.
Qed.

Lemma adds_chain H this :
  adds frame_trace (n <-- in_proc (CallNext H this) ;; set_nextRet n)
    (fun _ c => chain_part c) (fun c' => exists c, chain_part c /\ c' `prefix_of` c).
Proof.
  eapply adds_bind; [apply adds_in_proc, adds_CallNext|auto|]. intros n l1 Hc.
  eapply adds_weaken; [apply adds_locals; reflexivity| |intros l []].
  intros a l ->. rewrite app_nil_r. exact Hc.
Qed.

Lemma adds_this_result this r :
  adds frame_trace (this_result this r) (fun _ l => l = []) (fun l => l = []).
Proof. apply adds_in_proc, adds_in_world. Qed.

Lemma adds_settle H this :
  adds frame_trace (settle H this) (fun _ l => settled l) within_settled.
Proof.
  unfold settle.
  eapply adds_bind; [apply adds_in_proc, adds_in_world| |].
  { intros l ->. apply within_settled_of, settled_chain, chain_part_nil. }
  intros ok l1 ->. destruct ok.
  - eapply adds_bind; [apply adds_this_result| |].
    { intros l ->. apply within_settled_of, settled_chain, chain_part_nil. }
    intros [] l1 ->.
    eapply adds_weaken; [apply adds_chain|..].
    + intros a c Hc. apply settled_chain, Hc.
    + intros c' Hc. apply within_chain, Hc.
  - eapply adds_bind; [apply adds_in_proc, adds_in_world| |].
    { intros l ->. apply within_settled_of, settled_chain, chain_part_nil. }
    intros f l1 ->. destruct (enableRollback f).
    + eapply adds_bind; [apply adds_hook| |].
      { intros l ->. apply within_settled_of, settled_undo_chain, chain_part_nil. }
      intros v l1 ->.
      eapply adds_bind; [apply adds_locals; reflexivity|intros l []|].
      intros [] l1 ->.
      eapply adds_bind; [apply adds_in_proc, adds_in_world| |].
      { intros l ->. apply within_settled_of, settled_undo_chain, chain_part_nil. }
      intros undone l1 ->. destruct undone.
      * eapply adds_bind; [apply adds_this_result| |].
        { intros l ->. apply within_settled_of, settled_undo_chain, chain_part_nil. }
        intros [] l1 ->.
        eapply adds_weaken; [apply adds_chain|..].
        -- intros a c Hc. apply settled_undo_chain, Hc.
        -- intros c' Hc. apply within_undo_chain, Hc.
      * eapply adds_weaken; [apply adds_this_result|..].
        -- intros a l ->. apply settled_undo_chain, chain_part_nil.
        -- intros l ->. apply within_settled_of, settled_undo_chain, chain_part_nil.
    + eapply adds_weaken; [apply adds_this_result|..].
      * intros a l ->. apply settled_chain, chain_part_nil.
      * intros l ->. apply within_settled_of, settled_chain, chain_part_nil.
Qed.

Lemma script_of_settled l : settled l -> script (EvBefore :: EvCall :: l ++ [EvAfter]).
Proof.
  intros (u & c & Hu & Hc & ->). exists u, c. split; [exact Hu|]. split; [exact Hc|].
  cbn [app]. rewrite <- app_assoc. reflexivity.
Qed.

Lemma script_partial l : script l -> partial_script l.
Proof. intros Hl. exists l. split; [exact Hl|reflexivity]. Qed.

Lemma partial_of_within l :
  within_settled l -> partial_script (EvBefore :: EvCall :: l).
Proof.
  intros (l' & Hl' & Hp). exists (EvBefore :: EvCall :: l' ++ [EvAfter]).
  split; [apply script_of_settled, Hl'|].
  do 2 apply prefix_cons. etrans; [exact Hp|]. apply prefix_app_r. reflexivity.
Qed.

Lemma partial_start l :
  l `prefix_of` [EvBefore; EvCall] -> partial_script l.
Proof.
  intros Hp. exists [EvBefore; EvCall; EvAfter]. split.
  - exists [], []. split; [left; reflexivity|]. split; [left|]; reflexivity.
  - etrans; [exact Hp|]. exists [EvAfter]. reflexivity.
Qed.

Lemma adds_call_body fuel H this a kw :
  adds frame_trace (call_body fuel H this a kw) (fun _ l => script l) partial_script.
Proof.
  unfold call_body.
  eapply adds_bind; [apply adds_in_proc, adds_in_world| |].
  { intros l ->. apply partial_start. exists [EvBefore; EvCall]. reflexivity. }
  intros [] l1 ->.
  eapply adds_bind; [apply adds_hook| |].
  { intros l ->. apply partial_start. exists [EvCall]. reflexivity. }
  intros [] l1 ->.
  eapply adds_bind; [apply adds_hook| |].
  { intros l ->. apply partial_start. reflexivity. }
  intros v l1 ->.
  eapply adds_bind; [apply adds_locals; reflexivity|intros l []|].
  intros [] l1 ->.
  eapply adds_bind; [apply adds_settle| |].
  { intros l Hl. apply (partial_of_within l Hl). }
  intros [] l1 Hs.
  eapply adds_weaken; [apply adds_hook|..].
  - intros x l ->. apply (script_of_settled l1 Hs).
  - intros l ->. apply script_partial, (script_of_settled l1 Hs).
Qed.

Lemma call_frame_order fuel H this a kw fr :
  post (call_frame fuel H this a kw) fr
    (fun _ fr' =>
       exists l, frame_trace fr' = frame_trace fr ++ l /\ partial_script l
                 /\ forall f, heap (world (proc fr')) !! this = Some f ->
                              raiseExceptions f = true -> script l)
    (fun _ fr' =>
       exists l, frame_trace fr' = frame_trace fr ++ l /\ partial_script l).
Proof.
  unfold call_frame. apply post_bind, post_try.
  set (Q := fun (_ : value) (fr' : Frame) => exists l, _ /\ _ /\ _).
  set (R := fun (_ : exn) (fr' : Frame) => exists l, _ /\ _).
  assert (forall fr1 l,
            frame_trace fr1 = frame_trace fr ++ l -> partial_script l ->
            (script l \/ exists f, heap (world (proc fr1)) !! this = Some f
                                   /\ raiseExceptions f = false) ->
            post (f <-- in_proc (in_world (self this)) ;;
                  if (raiseExceptions f && Z.ltb 1 (result f))%bool
                  then raise (FunctorError (name f +:+ " failed with result "
                                            +:+ PyStr.str_of_int (result f)))
                  else
                    fr <-- (fun fr => Returns fr fr) ;;
                    let r := if is_none (nextRet fr) then ret_ fr else nextRet fr in
                    in_proc (Pop this) ;;;
                    ret r) fr1 Q R) as Htail.
  { intros fr1 l E Hp Hl. apply post_bind. unfold post at 1. rewrite look_run.
    destruct (heap (world (proc fr1)) !! this) as [f|] eqn:Hf; [|exact I].
    cbv beta iota.
    destruct (raiseExceptions f && Z.ltb 1 (result f))%bool eqn:Hc.
    - unfold post, raise, R. eauto.
    - unfold post, bindM, in_proc, zoom, Pop, modify, ret, Q, frame_trace.
      cbn [proc world tracker trace]. exists l. split; [exact E|].
      split; [exact Hp|]. intros g Hg Hr. destruct Hl as [Hl|(f' & Hf' & Hr')];
        [exact Hl|]. congruence. }
  eapply post_weaken; [exact (adds_call_body fuel H this a kw fr)|..].
  - intros [] fr1 (l & E & Hl). apply (Htail fr1 l E); [apply script_partial, Hl|].
    left. exact Hl.
  - intros e fr1 (l & E & Hp). cbn beta. apply post_bind. unfold post at 1.
    rewrite look_run.
    destruct (heap (world (proc fr1)) !! this) as [f|] eqn:Hf; [|exact I].
    cbv beta iota. destruct (raiseExceptions f) eqn:Hr.
    + unfold post, raise, R. eauto.
    + unfold post at 1, ret. apply (Htail fr1 l E Hp). right. eauto.
Qed.

(** X20. The order of the calls of one invocation.  Whatever the
    hooks do and however the invocation ends, the calls it made are an
    initial part of: [Before], the call method, at most one [Undo], at
    most one successor validated and then executed, [After].  So nothing
    runs before [Before], [After] is the last call and runs at most once,
    and a successor is executed only right after it was validated.  When
    the invocation returns with [raiseExceptions] set, all of it ran. *)
Theorem call_order fuel H this a kw p :
  match __call__ fuel H this a kw p with
  | Returns _ p' =>
      exists l, trace p' = trace p ++ l /\ partial_script l
                /\ forall f, heap (world p') !! this = Some f ->
                             raiseExceptions f = true -> script l
  | Raises _ p' => exists l, trace p' = trace p ++ l /\ partial_script l
  | NoFuel | NotModelled => True
  end.
Proof.
  unfold __call__, bindM, Push, modify.
  pose proof (call_frame_order fuel H this a kw
                (mkFrame (mkProcess (world p) (tracker p ++ [this]) (trace p))
                   VNone VNone)) as Hc.
  unfold post, frame_trace in Hc. cbn [proc tracker trace] in Hc.
  destruct (call_frame _ _ _ _ _ _) as [r fr'|e fr'| |]; try exact I; exact Hc.
Qed.
End InvocationFacts.

(** * The further properties on concrete Operations *)

Module MoreRuns.
Import RefRuntime.

Ltac decide_it := apply (bool_decide_unpack _); vm_compute; exact I.

(** ** Coercion *)

Lemma EvaluateToType_plain_idempotent_witness :
  EvaluateToType (new_Functor "op") (VList [VStr "true"; VStr "7"]) false
  = Ok (VList [VBool true; VInt 7])
  /\ EvaluateToType (new_Functor "op") (VList [VBool true; VInt 7]) false
     = Ok (VList [VBool true; VInt 7]).
Proof.
  assert (EvaluateToType (new_Functor "op") (VList [VStr "true"; VStr "7"]) false
          = Ok (VList [VBool true; VInt 7])) as Hv by (vm_compute; reflexivity).
  split; [exact Hv|].
  exact (EvaluateToType_plain_idempotent (new_Functor "op") _ _ Hv).
Defined.

Lemma cast_text_prints_back_witness : text_of (cast_text "12") = Ok "12".
Proof. apply (proj2 (cast_text_prints_back "12")). vm_compute. reflexivity. Defined.

Lemma EvaluateToType_one_field_witness :
  attribute_name "result" = true
  /\ EvaluateToType (new_Functor "op") (VStr "{this.result}") true = Ok (VInt 0)
  /\ EvaluateToType (new_Functor "op") (VStr "{this.nowhere}") true
     = Raise (AttributeError "nowhere")
  /\ EvaluateToType (new_Functor "op") (VStr "{this.class}") true
     = Raise SyntaxError.
Proof.
  split; [reflexivity|]. split; [|split].
  - rewrite (EvaluateToType_one_field (new_Functor "op") "result" eq_refl).
    vm_compute. reflexivity.
  - rewrite (EvaluateToType_one_field (new_Functor "op") "nowhere" eq_refl).
    vm_compute. reflexivity.
  - rewrite (EvaluateToType_one_field (new_Functor "op") "class" eq_refl).
    vm_compute. reflexivity.
Defined.

(** ** Resolution *)

(** An Operation with an attribute, before and after its scopes are
    registered, and its predecessor. *)
Definition op_new : Functor :=
  set_members (new_Functor "op") {[ "a" := VInt 1 ]}.

Definition w_new : World := mkWorld {[ 0%nat := op_new ]} {[ "x" := "e" ]} ∅ ∅.

Definition op_after : Functor :=
  set_links (Runs.ready (Runs.custom "after" ["this"; "args"; "precursor"] [] [] []
                           true true) {[ "x" := VInt 1 ]})
    (VRef 1) VNone (Some {[ "x" := VInt 1 ]}).

Definition op_before : Functor :=
  Runs.ready (Runs.custom "before" ["this"; "args"; "environment"] [] [] []
                true true) ∅.

Definition w_two : World :=
  mkWorld {[ 0%nat := op_after; 1%nat := op_before ]} {[ "y" := "e" ]} ∅ ∅.

Lemma Fetch_visited_grows_witness :
  Fetch 3 w_two 0 "y" VNone None true (Some ["seen"])
  = Ok (Top VNone, ["seen"; "after"; "before"])
  /\ ["seen"] `prefix_of` ["seen"; "after"; "before"]
  /\ NoDup ["seen"; "after"; "before"].
Proof.
  assert (Fetch 3 w_two 0 "y" VNone None true (Some ["seen"])
          = Ok (Top VNone, ["seen"; "after"; "before"])) as Hrun
    by (vm_compute; reflexivity).
  split; [exact Hrun|].
  destruct (Fetch_visited_grows 3 w_two 0 "y" VNone None true (Some ["seen"]) _ _ Hrun)
    as [Hp Hn].
  split; [exact Hp|]. apply Hn. apply NoDup_singleton.
Defined.

Lemma Fetch_before_Initialize_witness :
  HasAttr op_new "a" = true
  /\ exists att, Fetch 1 w_new 0 "a" (VStr "fallback") None true None
                 = Ok (Top (VStr "fallback"), att).
Proof.
  split; [reflexivity|]. eexists.
  exact (Fetch_before_Initialize 0 w_new 0 op_new "a" (VStr "fallback") None true None
           eq_refl eq_refl).
Defined.

Lemma Fetch_environment_local_witness :
  Fetch 3 (set_environ w_two ∅) 0 "y" VNone (Some ["this"; "args"; "precursor"])
    true None
  = Fetch 3 w_two 0 "y" VNone (Some ["this"; "args"; "precursor"]) true None.
Proof.
  apply (Fetch_environment_local 3 w_two ∅ 0 "y" VNone ["this"; "args"; "precursor"]
           true None).
  decide_it.
Defined.

Lemma Fetch_default_only_on_miss_witness :
  Fetch 3 w_two 0 "y" VNone None false None
  = Ok (Nested VNone false, ["after"; "before"])
  /\ Fetch 3 w_two 0 "y" (VInt 9) None false None
     = Ok (Nested (VInt 9) false, ["after"; "before"]).
Proof.
  assert (Fetch 3 w_two 0 "y" VNone None false None
          = Ok (Nested VNone false, ["after"; "before"])) as Hrun
    by (vm_compute; reflexivity).
  split; [exact Hrun|].
  rewrite (proj1 (Fetch_default_only_on_miss 3 w_two 0 "y" VNone (VInt 9) None None)).
  rewrite Hrun. reflexivity.
Defined.

(** ** Initialization *)

Definition op_vault : Functor :=
  Runs.custom "op" ["args"; "vault"; "environment"] ["a"; "b"; "a"] []
    [("b", VNone)] true true.

Definition w_vault : World := mkWorld {[ 0%nat := op_vault ]} {[ "x" := "e" ]} ∅ ∅.



Lemma RemoveDuplicateArgs_result_witness :
  exists kw,
    RemoveDuplicateArgs 0 w_vault
    = Returns tt
        (set_heap w_vault
           (<[0%nat := set_required op_vault kw [] []]> (heap w_vault)))
    /\ NoDup kw /\ "a" ∈ kw.
Proof.
  pose proof (RemoveDuplicateArgs_result w_vault 0 op_vault eq_refl) as Hx.
  cbv zeta in Hx. destruct Hx as (kw & Hrun & _ & Hn & Hkeep & _).
  exists kw. split; [exact Hrun|]. split; [exact Hn|].
  apply Hkeep; decide_it.
Defined.

Definition op_git : Functor :=
  set_required (new_Functor "op") [] [] ["git"].

Definition w_git : World := mkWorld {[ 0%nat := op_git ]} ∅ ∅ ∅.

Lemma Initialize_once_witness :
  Initialize 0 w_git
  = Raises (FunctorError "git required but not found in path.")
      (Runs.world_of (Initialize 0 w_git) w_git)
  /\ exists w'', Initialize 0 (Runs.world_of (Initialize 0 w_git) w_git)
                 = Raises (FunctorError "git required but not found in path.") w''.
Proof.
  assert (Initialize 0 w_git
          = Raises (FunctorError "git required but not found in path.")
              (Runs.world_of (Initialize 0 w_git) w_git)) as Hrun
    by (vm_compute; reflexivity).
  split; [exact Hrun|].
  destruct (Initialize_once w_git 0 op_git eq_refl) as (_ & _ & Hraise & _).
  destruct (Hraise _ _ Hrun) as (prog & f' & _ & _ & _ & _ & _ & Hagain).
  exact Hagain.
Defined.

(** ** Attributes and arguments *)

Definition op_call : Functor :=
  Runs.ready (Runs.custom "op" ["args"] ["x"] [] [] true true) {[ "x" := VStr "5" ]}.

Definition w_call : World := mkWorld {[ 0%nat := op_call ]} ∅ ∅ ∅.

Lemma Set_stores_witness :
  exists f',
    Set_ 0 "y" (VStr "12") true w_call
    = Returns tt (set_heap w_call (<[0%nat := f']> (heap w_call)))
    /\ GetAttr f' "y" = Ok (VInt 12)
    /\ GetAttr f' "name" = Ok (VStr "op").
Proof.
  assert (Set_ 0 "y" (VStr "12") true w_call
          = Returns tt (Runs.world_of (Set_ 0 "y" (VStr "12") true w_call) w_call))
    as Hrun by (vm_compute; reflexivity).
  destruct (proj1 (Set_stores w_call 0 op_call "y" (VStr "12") true eq_refl) _ Hrun)
    as (v' & f' & Hv & Hw & Hsame & Hother & _).
  exists f'. split; [rewrite <- Hw; exact Hrun|].
  assert (EvaluateToType op_call (VStr "12") true = Ok (VInt 12)) as Hv'
    by (vm_compute; reflexivity).
  rewrite Hv' in Hv. injection Hv as <-.
  split; [apply Hsame; reflexivity|].
  rewrite (proj1 (Hother "name" ltac:(discriminate))). reflexivity.
Defined.

Lemma PopulatePrecursor_links_witness :
  exists f',
    PopulatePrecursor 0 w_call
    = Returns tt (set_heap w_call (<[0%nat := f']> (heap w_call)))
    /\ precursor f' = VNone /\ executor f' = VNone.
Proof.
  destruct (PopulatePrecursor_links w_call 0 op_call {[ "x" := VStr "5" ]}
              eq_refl eq_refl) as (f' & kw' & Hf' & _ & _ & _ & Hrun).
  exists f'. split; [exact Hrun|]. rewrite Hf'. split; reflexivity.
Defined.

Lemma ValidateArgs_binds_witness :
  ValidateArgs 2 0 w_call
  = Returns tt (Runs.world_of (ValidateArgs 2 0 w_call) w_call)
  /\ exists f',
       heap (Runs.world_of (ValidateArgs 2 0 w_call) w_call) !! 0%nat = Some f'
       /\ HasAttr f' "x" = true.
Proof.
  assert (ValidateArgs 2 0 w_call
          = Returns tt (Runs.world_of (ValidateArgs 2 0 w_call) w_call)) as Hrun
    by (vm_compute; reflexivity).
  split; [exact Hrun|].
  destruct (ValidateArgs_binds 2 w_call 0 op_call [] _ eq_refl eq_refl Hrun)
    as (_ & f' & Hf' & Hb & _).
  exists f'. split; [exact Hf'|].
  apply (Hb "x"). right. left. decide_it.
Defined.

(** ** Invocation *)

Definition op_queue : Functor :=
  set_next (Runs.ready (Runs.custom "op" ["args"; "precursor"] [] [] [] true true) ∅)
    (VList [VStr "stale"]).

Definition w_queue : World := mkWorld {[ 0%nat := op_queue ]} ∅ ∅ ∅.

Lemma CallNext_edges_witness :
  CallNext base_hooks 0 (mkProcess w_queue [] [])
  = Raises InvalidNext
      (mkProcess (set_heap w_queue (<[0%nat := set_next op_queue (VList [])]>
                                      (heap w_queue))) [] []).
Proof.
  pose proof (CallNext_edges base_hooks 0 w_queue [] [] op_queue eq_refl) as Hx.
  cbv zeta in Hx. destruct Hx as (_ & Hraise & _).
  apply (Hraise (VStr "stale") []); reflexivity.
Defined.

Lemma PopulateNext_discards_queue_witness :
  next op_queue = VList [VStr "stale"]
  /\ PopulateNext 1 0 w_queue
     = Returns tt (set_heap w_queue (<[0%nat := set_next op_queue (VList [])]>
                                       (heap w_queue))).
Proof.
  split; [reflexivity|].
  apply (PopulateNext_discards_queue 0 w_queue 0 op_queue ∅); try reflexivity.
  intros s Hs. revert Hs. change (fetchLocations op_queue) with ["args"; "precursor"].
  rewrite !elem_of_cons. intros [->|[->|Hs]]; [reflexivity|reflexivity|inversion Hs].
Defined.

Lemma call_order_witness :
  match __call__ 2 base_hooks 0 [] ∅ (mkProcess w_queue [] []) with
  | Returns _ p' | Raises _ p' => exists l, trace p' = l /\ partial_script l
  | NoFuel | NotModelled => True
  end.
Proof.
  pose proof (call_order 2 base_hooks 0 [] ∅ (mkProcess w_queue [] [])) as Hx.
  destruct (__call__ 2 base_hooks 0 [] ∅ (mkProcess w_queue [] []))
    as [r p'|e p'| |]; try exact I.
  - destruct Hx as (l & Hl & Hp & _). exists l. split; [exact Hl|exact Hp].
  - destruct Hx as (l & Hl & Hp). exists l. split; [exact Hl|exact Hp].
Defined.


Lemma EvaluateToType_without_braces_witness :
  EvaluateToType (new_Functor "op") (VList [VStr "7"; VStr "{"]) true
  = EvaluateToType (new_Functor "op") (VList [VStr "7"; VStr "{"]) false.
Proof.
  apply (EvaluateToType_without_braces (new_Functor "op") (VList [VStr "7"; VStr "{"])).
  reflexivity.
Defined.

End MoreRuns.
